(** * tsl: sparse attention kernels, the GRIN imputation model and
      the predictor

    A shallow embedding of [tsl/nn/functional.py],
    [tsl/nn/models/imputation/grin_model.py] and of the methods of
    [tsl/inference/predictor.py] that work on plain dictionaries and
    lists.

    Tensors are modelled by their shape together with the value held at
    every multi-index.  Arithmetic on tensor entries is carried out over
    the real numbers: rounding, infinities and NaN of the IEEE formats are
    not part of that model.  Python exceptions are modelled by the [result]
    type; arrays that the code updates in place live in an explicit store
    indexed by object identity.

    The grouped softmax is embedded a second time on float32 tensors
    (module [float32]), with the rounding of IEEE 754, to tell what of its
    normalisation survives rounding. *)

From Stdlib Require Import Reals Lra Lia ZifyNat ZArith List String.
From Stdlib Require SpecFloat.
From stdpp Require Import base option list strings gmap.

(** ** Python exceptions *)

Inductive exn : Type :=
  | TypeError
  | ValueError (msg : string)
  | AssertionError
  | IndexError
  | RuntimeError.

Inductive result (A : Type) : Type :=
  | Ok (a : A)
  | Raise (e : exn).
Arguments Ok {A} a.
Arguments Raise {A} e.

#[global] Instance result_ret : MRet result := fun A a => Ok a.
#[global] Instance result_bind : MBind result := fun A B f m =>
  match m with Ok a => f a | Raise e => Raise e end.
#[global] Instance result_fmap : FMap result := fun A B f m =>
  match m with Ok a => Ok (f a) | Raise e => Raise e end.

Definition raises {A} (m : result A) : Prop := exists e, m = Raise e.
Definition returns {A} (m : result A) : Prop := exists a, m = Ok a.

(** ** Tensors *)

Module Torch.

(** A floating tensor: its shape and the entry at each multi-index.  Only
    the entries at multi-indices inside the shape are meaningful. *)
Record Tensor : Type := mkTensor { shape : list nat; val : list nat -> R }.

(** An integer (int64) tensor, as produced by index expansion and by the
    [indices] field of [torch.min]/[torch.max]. *)
Record LongTensor : Type := mkLong { lshape : list nat; lval : list nat -> Z }.

Definition ndim (t : Tensor) : nat := length (shape t).
Definition size (t : Tensor) (d : nat) : nat := nth d (shape t) 0.

Definition in_bounds (sh idx : list nat) : Prop := Forall2 lt idx sh.
#[global] Instance in_bounds_dec sh idx : Decision (in_bounds sh idx) :=
  Forall2_dec lt idx sh.

(** Two tensors hold the same values. *)
Definition same_values (a b : Tensor) : Prop :=
  shape a = shape b /\ forall idx, in_bounds (shape a) idx -> val a idx = val b idx.

(** Every multi-index of a shape, in row-major order. *)
Fixpoint all_indices (sh : list nat) : list (list nat) :=
  match sh with
  | [] => [[]]
  | n :: sh' => i ← seq 0 n; (fun idx => i :: idx) <$> all_indices sh'
  end.

(** Literals of rank one, two and three. *)
Definition tensor1 (l : list R) : Tensor :=
  mkTensor [length l]
    (fun idx => match idx with [i] => nth i l 0%R | _ => 0%R end).
Definition tensor2 (l : list (list R)) : Tensor :=
  mkTensor [length l; length (hd [] l)]
    (fun idx => match idx with [i; j] => nth j (nth i l []) 0%R | _ => 0%R end).
Definition tensor3 (l : list (list (list R))) : Tensor :=
  mkTensor [length l; length (hd [] l); length (hd [] (hd [] l))]
    (fun idx => match idx with
                | [i; j; k] => nth k (nth j (nth i l []) []) 0%R
                | _ => 0%R
                end).

(** [maybe_wrap_dim]: a dimension argument may count from the end; a
    zero-dimensional tensor accepts the dimensions -1 and 0. *)
Definition wrap_dim (nd : nat) (dim : Z) : result nat :=
  let n := Z.of_nat (Nat.max nd 1) in
  if decide (- n <= dim < n)%Z
  then Ok (Z.to_nat (if decide (dim < 0)%Z then dim + n else dim)%Z)
  else Raise IndexError.

(** *** Broadcasting *)

Definition pad_shape (n : nat) (s : list nat) : list nat :=
  replicate (n - length s) 1 ++ s.

Definition broadcast_dim (a b : nat) : result nat :=
  if decide (a = b) then Ok a
  else if decide (a = 1) then Ok b
  else if decide (b = 1) then Ok a
  else Raise RuntimeError.

Fixpoint zip_dims (a b : list nat) : result (list nat) :=
  match a, b with
  | x :: a', y :: b' =>
      n ← broadcast_dim x y; sh ← zip_dims a' b'; Ok (n :: sh)
  | _, _ => Ok []
  end.

(** Shapes are aligned on their trailing dimensions; the shorter one is
    padded with leading ones. *)
Definition broadcast_shapes (a b : list nat) : result (list nat) :=
  let n := Nat.max (length a) (length b) in
  zip_dims (pad_shape n a) (pad_shape n b).

(** The multi-index of an operand of shape [s] that feeds position [idx]
    of the broadcast result. *)
Definition bcast_index (s idx : list nat) : list nat :=
  zip_with (fun n i => if decide (n = 1) then 0 else i) s
           (drop (length idx - length s) idx).

Definition pointwise (f : R -> R) (a : Tensor) : Tensor :=
  mkTensor (shape a) (fun idx => f (val a idx)).

Definition pointwise2 (f : R -> R -> R) (a b : Tensor) : result Tensor :=
  sh ← broadcast_shapes (shape a) (shape b);
  Ok (mkTensor sh (fun idx =>
        f (val a (bcast_index (shape a) idx))
          (val b (bcast_index (shape b) idx)))).

Definition add := pointwise2 Rplus.
Definition sub := pointwise2 Rminus.
Definition mul := pointwise2 Rmult.
Definition div := pointwise2 Rdiv.

Definition sigmoid_R (x : R) : R := (1 / (1 + exp (- x)))%R.
Definition relu_R (x : R) : R := Rmax 0 x.

Definition ttanh := pointwise tanh.
Definition tsigmoid := pointwise sigmoid_R.
Definition texp := pointwise exp.
Definition trelu := pointwise relu_R.
Definition add_scalar (a : Tensor) (c : R) : Tensor :=
  pointwise (fun x => (x + c)%R) a.
Definition div_scalar (a : Tensor) (c : R) : Tensor :=
  pointwise (fun x => (x / c)%R) a.

(** *** Slicing and splitting *)

(** [at::slice(self, d, start, stop)] with unit step. *)
Definition slice (t : Tensor) (d start stop : nat) : Tensor :=
  mkTensor (<[d := stop - start]> (shape t))
           (fun idx => val t (alter (Nat.add start) d idx)).

Fixpoint split_loop (input : Tensor) (d min_split_size num_splits_one_extra
                     split_idx start_idx n : nat) : list Tensor :=
  match n with
  | 0 => []
  | S n' =>
      let split_size :=
        if decide (split_idx < num_splits_one_extra)
        then min_split_size + 1 else min_split_size in
      slice input d start_idx (start_idx + split_size)
      :: split_loop input d min_split_size num_splits_one_extra
           (S split_idx) (start_idx + split_size) n'
  end.

(** [torch.tensor_split(input, sections, dim)]: the first
    [size mod sections] parts get one more element than the others. *)
Definition tensor_split (input : Tensor) (sections : nat) (dim : Z)
  : result (list Tensor) :=
  if decide (ndim input = 0) then Raise RuntimeError else
  d ← wrap_dim (ndim input) dim;
  if decide (sections = 0) then Raise RuntimeError else
  let dim_size := size input d in
  Ok (split_loop input d (dim_size / sections) (dim_size mod sections)
        0 0 sections).

(** *** Reductions along a dimension *)

Definition Rsum (l : list R) : R := foldr Rplus 0%R l.

(** The multi-index obtained by putting [j] at position [d]. *)
Definition insert_at (d j : nat) (idx : list nat) : list nat :=
  take d idx ++ j :: drop d idx.

(** The entries met when position [d] of the reduced tensor's multi-index
    [idx] runs over the whole dimension. *)
Definition fibre (t : Tensor) (d : nat) (idx : list nat) : list R :=
  (fun j => val t (insert_at d j idx)) <$> seq 0 (size t d).

(** [t.sum(dim)] *)
Definition tsum (t : Tensor) (dim : Z) : result Tensor :=
  d ← wrap_dim (ndim t) dim;
  if decide (ndim t = 0) then Ok t else
  Ok (mkTensor (delete d (shape t)) (fun idx => Rsum (fibre t d idx))).

(** [torch.mean(t, dim)] *)
Definition tmean (t : Tensor) (dim : Z) : result Tensor :=
  d ← wrap_dim (ndim t) dim;
  if decide (ndim t = 0) then Ok t else
  Ok (mkTensor (delete d (shape t))
        (fun idx => (Rsum (fibre t d idx) / INR (size t d))%R)).

(** Smallest (largest) entry of a non-empty list, with the position of
    its first occurrence. *)
Fixpoint argmin_from (best : R) (besti : nat) (i : nat) (l : list R) : R * nat :=
  match l with
  | [] => (best, besti)
  | x :: l' =>
      if Rlt_dec x best then argmin_from x i (S i) l'
      else argmin_from best besti (S i) l'
  end.
Fixpoint argmax_from (best : R) (besti : nat) (i : nat) (l : list R) : R * nat :=
  match l with
  | [] => (best, besti)
  | x :: l' =>
      if Rlt_dec best x then argmax_from x i (S i) l'
      else argmax_from best besti (S i) l'
  end.
Definition argmin (l : list R) : R * nat :=
  match l with [] => (0%R, 0) | x :: l' => argmin_from x 0 1 l' end.
Definition argmax (l : list R) : R * nat :=
  match l with [] => (0%R, 0) | x :: l' => argmax_from x 0 1 l' end.

(** [torch.min(t, dim)] and [torch.max(t, dim)] return the pair
    [(values, indices)]; reducing an empty dimension is an error. *)
Definition reduce_with_indices (pick : list R -> R * nat) (t : Tensor) (dim : Z)
  : result (Tensor * LongTensor) :=
  d ← wrap_dim (ndim t) dim;
  if decide (ndim t = 0)
  then Ok (t, mkLong [] (fun _ => 0%Z))
  else if decide (size t d = 0) then Raise IndexError
  else Ok (mkTensor (delete d (shape t)) (fun idx => (pick (fibre t d idx)).1),
           mkLong (delete d (shape t))
                  (fun idx => Z.of_nat (pick (fibre t d idx)).2)).
Definition tmin := reduce_with_indices argmin.
Definition tmax := reduce_with_indices argmax.

(** *** Joining tensors *)

(** [torch.stack(ts, dim)]: all tensors have the same shape; a new
    dimension of size [length ts] is inserted at [dim]. *)
Definition stack (ts : list Tensor) (dim : Z) : result Tensor :=
  match ts with
  | [] => Raise RuntimeError
  | t0 :: _ =>
      d ← wrap_dim (S (ndim t0)) dim;
      if decide (Forall (fun t => shape t = shape t0) ts)
      then Ok (mkTensor (insert_at d (length ts) (shape t0))
                 (fun idx => val (nth (nth d idx 0) ts t0) (delete d idx)))
      else Raise RuntimeError
  end.

(** Locate offset [i] in the concatenation of blocks of the given sizes:
    the block number and the offset inside that block. *)
Fixpoint locate (sizes : list nat) (i : nat) : nat * nat :=
  match sizes with
  | [] => (0, i)
  | n :: sizes' =>
      if decide (i < n) then (0, i)
      else let '(b, o) := locate sizes' (i - n) in (S b, o)
  end.

(** [torch.cat(tensors, dim)].  The Python list may hold [None], which is
    a type error; the tensors agree on every dimension but [dim]. *)
Definition cat (tensors : list (option Tensor)) (dim : Z) : result Tensor :=
  match tensors with
  | [] => Raise RuntimeError
  | None :: _ => Raise TypeError
  | Some t0 :: _ =>
      if decide (Exists (fun o => o = None) tensors) then Raise TypeError else
      let ts := default t0 <$> tensors in
      d ← wrap_dim (ndim t0) dim;
      if decide (ndim t0 = 0) then Raise RuntimeError else
      if decide (Forall (fun t => <[d := 0]> (shape t) = <[d := 0]> (shape t0)) ts)
      then
        let sizes := (fun t => size t d) <$> ts in
        Ok (mkTensor (<[d := foldr Nat.add 0 sizes]> (shape t0))
              (fun idx =>
                 let '(b, o) := locate sizes (nth d idx 0) in
                 val (nth b ts t0) (<[d := o]> idx)))
      else Raise RuntimeError
  end.

(** *** Indexing *)

(** [t.index_select(dim, index)] with a one-dimensional [index]. *)
Definition index_select (t : Tensor) (dim : Z) (index : list Z) : result Tensor :=
  d ← wrap_dim (ndim t) dim;
  if decide (Forall (fun i => (0 <= i < Z.of_nat (size t d))%Z) index)
  then Ok (mkTensor (<[d := length index]> (shape t))
             (fun idx => val t (alter (fun j => Z.to_nat (nth j index 0%Z)) d idx)))
  else Raise IndexError.

(** [t.size(dim)] *)
Definition size_of (t : Tensor) (dim : Z) : result nat :=
  if decide (ndim t = 0) then Raise IndexError else
  d ← wrap_dim (ndim t) dim; Ok (size t d).

(** [torch.arange(start, -1, -1)]: [start, start - 1, ..., 0]. *)
Definition arange_down (start : Z) : list Z :=
  (fun i => (start - Z.of_nat i)%Z) <$> seq 0 (Z.to_nat (start + 1)).

(** [torch.zeros(sizes)] *)
Definition zeros (sizes : list Z) : result Tensor :=
  if decide (Forall (fun n => (0 <= n)%Z) sizes)
  then Ok (mkTensor (Z.to_nat <$> sizes) (fun _ => 0%R))
  else Raise RuntimeError.

(** *** Views *)

Definition numel (sh : list nat) : nat := foldr Nat.mul 1 sh.

(** Row-major offset of a multi-index, and back. *)
Fixpoint ravel (sh idx : list nat) : nat :=
  match sh, idx with
  | _ :: sh', i :: idx' => i * numel sh' + ravel sh' idx'
  | _, _ => 0
  end.
Fixpoint unravel (sh : list nat) (p : nat) : list nat :=
  match sh with
  | [] => []
  | _ :: sh' => p / numel sh' :: unravel sh' (p mod numel sh')
  end.

(** Sizes given to [view], one of which may be -1 and is then inferred. *)
Definition infer_size (sizes : list Z) (n : nat) : result (list nat) :=
  if decide (Exists (fun s => (s < -1)%Z) sizes) then Raise RuntimeError else
  let known := filter (fun s => s ≠ (-1)%Z) sizes in
  let newsize := Z.to_nat (foldr Z.mul 1%Z known) in
  match length sizes - length known with
  | 0 => if decide (newsize = n) then Ok (Z.to_nat <$> sizes)
         else Raise RuntimeError
  | 1 => if decide (0 < newsize ∧ n mod newsize = 0)
         then Ok ((fun s => if decide (s = (-1)%Z) then n / newsize
                            else Z.to_nat s) <$> sizes)
         else Raise RuntimeError
  | _ => Raise RuntimeError
  end.

(** [t.view(sizes)] of a contiguous tensor. *)
Definition view (t : Tensor) (sizes : list Z) : result Tensor :=
  sh ← infer_size sizes (numel (shape t));
  Ok (mkTensor sh (fun idx => val t (unravel (shape t) (ravel sh idx)))).

(** [LongTensor.expand(sizes)] *)
Definition expand (t : LongTensor) (sizes : list nat) : result LongTensor :=
  if decide (length (lshape t) <= length sizes
             ∧ Forall2 (fun s n => s = n ∨ s = 1)
                       (pad_shape (length sizes) (lshape t)) sizes)
  then Ok (mkLong sizes (fun idx => lval t (bcast_index (lshape t) idx)))
  else Raise RuntimeError.

(** *** Dropout and linear layers *)

(** [F.dropout(input, p, training=True)].  [keep] is the Bernoulli draw:
    it tells, for each entry, whether the entry survives. *)
Definition dropout (input : Tensor) (p : R) (keep : list nat -> bool)
  : result Tensor :=
  if Rlt_dec p 0 then Raise (ValueError "dropout probability"%string) else
  if Rlt_dec 1 p then Raise (ValueError "dropout probability"%string) else
  Ok (mkTensor (shape input) (fun idx =>
        if Req_dec_T p 1 then 0%R
        else if Req_dec_T p 0 then val input idx
        else if keep idx then (val input idx / (1 - p))%R else 0%R)).

(** [nn.Linear]: [weight] has shape [out_features, in_features]. *)
Record Linear : Type := mkLinear {
  in_features : nat;
  out_features : nat;
  weight : nat -> nat -> R;
  bias : nat -> R }.

Definition Linear_forward (l : Linear) (x : Tensor) : result Tensor :=
  match reverse (shape x) with
  | n :: rsh =>
      if decide (n = in_features l)
      then Ok (mkTensor (reverse (out_features l :: rsh))
                 (fun idx =>
                    let o := List.last idx 0 in
                    (Rsum ((fun i => val x (removelast idx ++ [i]) * weight l o i)%R
                             <$> seq 0 (in_features l)) + bias l o)%R))
      else Raise RuntimeError
  | [] => Raise RuntimeError
  end.

(** *** torch_scatter and torch_geometric helpers *)

(** [torch_geometric.utils.num_nodes.maybe_num_nodes] on an index tensor. *)
Definition maybe_num_nodes (index : list Z) (num_nodes : option Z) : Z :=
  match num_nodes with
  | Some n => n
  | None =>
      match index with
      | [] => 0%Z
      | i :: l => (foldl Z.max i l + 1)%Z
      end
  end.

(** [torch_scatter.utils.broadcast(src, other, dim)] for a one-dimensional
    [src]: unsqueeze [dim] times in front, pad with trailing unit
    dimensions up to the rank of [other], then expand. *)
Definition broadcast (src : list Z) (other : Tensor) (dim : Z) : result LongTensor :=
  let dim := if decide (dim < 0)%Z then (Z.of_nat (ndim other) + dim)%Z else dim in
  let lead := Z.to_nat dim in
  let sh := replicate lead 1 ++ [length src] in
  let sh := sh ++ replicate (ndim other - length sh) 1 in
  expand (mkLong sh (fun idx => nth (nth lead idx 0) src 0%Z)) (shape other).

Inductive reduction : Type := ReduceSum | ReduceMax.

Definition Rmax_list (l : list R) : R :=
  match l with [] => 0%R | x :: l' => foldl Rmax x l' end.

Definition reduce_list (r : reduction) (l : list R) : R :=
  match r with ReduceSum => Rsum l | ReduceMax => Rmax_list l end.

(** The positions along dimension [d] that [index] sends to the group
    found at position [d] of [idx]. *)
Definition members (index : LongTensor) (d n : nat) (idx : list nat) : list nat :=
  filter (fun j => lval index (<[d := j]> idx) = Z.of_nat (nth d idx 0)) (seq 0 n).

(** [torch_scatter.scatter(src, index, dim, dim_size=dim_size, reduce=...)]
    with an [index] already expanded to the shape of [src]; a group
    without member gets 0. *)
Definition scatter (src : Tensor) (index : LongTensor) (dim : Z) (dim_size : Z)
                   (reduce : reduction) : result Tensor :=
  d ← wrap_dim (ndim src) dim;
  if decide (lshape index ≠ shape src) then Raise RuntimeError else
  if decide (dim_size < 0)%Z then Raise RuntimeError else
  if decide (Forall (fun idx => (0 <= lval index idx < dim_size)%Z)
                    (all_indices (shape src)))
  then Ok (mkTensor (<[d := Z.to_nat dim_size]> (shape src))
             (fun idx => reduce_list reduce
                ((fun j => val src (<[d := j]> idx))
                   <$> members index d (size src d) idx)))
  else Raise IndexError.

(** [self.scatter_add_(dim, index, src)]; the result is the new content
    of [self]. *)
Definition scatter_add_ (self : Tensor) (dim : Z) (index : LongTensor)
                        (src : Tensor) : result Tensor :=
  d ← wrap_dim (ndim self) dim;
  if decide (length (lshape index) = ndim self ∧ ndim src = ndim self
             ∧ Forall2 le (lshape index) (shape src)
             ∧ Forall2 le (<[d := 0]> (lshape index)) (shape self))
  then
    if decide (Forall (fun idx => (0 <= lval index idx < Z.of_nat (size self d))%Z)
                      (all_indices (lshape index)))
    then Ok (mkTensor (shape self)
               (fun idx =>
                  Rplus (val self idx)
                    (if decide (in_bounds (<[d := S (nth d idx 0)]> (lshape index)) idx)
                     then Rsum ((fun j => val src (<[d := j]> idx))
                                  <$> members index d (nth d (lshape index) 0) idx)
                     else 0%R)))
    else Raise IndexError
  else Raise RuntimeError.

End Torch.

(** ** Objects passed by reference *)

(** Arrays handed to a function are Python references.  The store maps an
    object identity to the array it currently holds. *)
Inductive object : Type :=
  | FloatObj (t : Torch.Tensor)
  | LongObj (ix : list Z).

(** A computation that reads and updates the store and may raise; the
    store as it is when the exception is raised is kept. *)
Definition Py (A : Type) : Type :=
  gmap nat object -> gmap nat object * result A.

#[global] Instance Py_ret : MRet Py := fun A a h => (h, Ok a).
#[global] Instance Py_bind : MBind Py := fun A B f m h =>
  match m h with
  | (h', Ok a) => f a h'
  | (h', Raise e) => (h', Raise e)
  end.

Definition lift {A} (r : result A) : Py A := fun h => (h, r).

Definition load_float (l : nat) : Py Torch.Tensor := fun h =>
  match h !! l with
  | Some (FloatObj t) => (h, Ok t)
  | _ => (h, Raise TypeError)
  end.

Definition load_long (l : nat) : Py (list Z) := fun h =>
  match h !! l with
  | Some (LongObj ix) => (h, Ok ix)
  | _ => (h, Raise TypeError)
  end.

Definition store (l : nat) (t : Torch.Tensor) : Py unit := fun h =>
  (<[l := FloatObj t]> h, Ok tt).

(** [a *= other]: the product is written into the array [a] refers to, so
    its broadcast shape has to be the shape of that array. *)
Definition imul (l : nat) (other : Torch.Tensor) : Py unit :=
  t ← load_float l;
  r ← lift (Torch.mul t other);
  if decide (Torch.shape r = Torch.shape t) then store l r
  else lift (Raise RuntimeError).

(** ** tsl/nn/functional.py *)

Module functional.
Import Torch.

Definition gated_tanh (input : Tensor) (dim : Z) : result Tensor :=
  parts ← tensor_split input 2 dim;
  match parts with
  | [out; gate] => mul (ttanh out) (tsigmoid gate)
  | _ => Raise (ValueError "unpack"%string)
  end.

Definition reverse_tensor (tensor : Tensor) (dim : Z) : result Tensor :=
  n ← size_of tensor dim;
  let indices := arange_down (Z.of_nat n - 1) in
  index_select tensor dim indices.

Definition unpack3 (sh : list nat) : result (nat * nat * nat) :=
  match sh with
  | [a; b; c] => Ok (a, b, c)
  | _ => Raise (ValueError "unpack"%string)
  end.

Section kernels.

(** The module constant [tsl.epsilon], a small positive number. *)
Variable epsilon : R.

Definition sparse_softmax (src : Tensor) (index : list Z)
                          (num_nodes : option Z) (dim : Z) : result Tensor :=
  let N := maybe_num_nodes index num_nodes in
  expanded_index ← broadcast index src dim;
  src_max ← scatter src expanded_index dim N ReduceMax;
  src_max ← index_select src_max dim index;
  out ← texp <$> sub src src_max;
  out_sum ← scatter out expanded_index dim N ReduceSum;
  out_sum ← index_select out_sum dim index;
  div out (add_scalar out_sum epsilon).

(** [q], [k], [v] and [index] are references into the store; [keep] is the
    random draw used by dropout. *)
Definition sparse_multi_head_attention (q k v index : nat)
    (dim_size : option Z) (dropout_p : R) (keep : list nat -> bool)
  : Py (Tensor * Tensor) :=
  let dim := 0%Z in
  qt ← load_float q;
  '(B, H, E) ← lift (unpack3 (shape qt));
  ix ← load_long index;
  let N := maybe_num_nodes ix dim_size in
  kt ← load_float k;
  qk ← lift (mul qt kt);
  s ← lift (tsum qk (-1));
  let alpha := div_scalar s (sqrt (INR E)) in
  alpha ← lift (sparse_softmax alpha ix (Some N) dim);
  alpha ← (if Rlt_dec 0 dropout_p then lift (dropout alpha dropout_p keep)
           else mret alpha);
  w ← lift (view alpha [(-1)%Z; Z.of_nat H; 1%Z]);
  imul v w;;
  vt ← load_float v;
  O ← lift (size_of vt 2);
  out ← lift (zeros [N; Z.of_nat H; Z.of_nat O]);
  add_index ← lift (broadcast ix vt dim);
  out ← lift (scatter_add_ out dim add_index vt);
  mret (out, alpha).

End kernels.

End functional.

(** ** tsl/nn/functional.py on float32 tensors *)

(** [sparse_softmax] once more, on tensors whose entries are IEEE 754
    binary32 numbers and with every operation rounded as the format
    prescribes.  The shapes, the index handling and the order of the steps
    are those of [functional.sparse_softmax]; only the entries and the
    arithmetic on them differ. *)
Module float32.
Import Torch.

(** binary32: 24 bits of precision, exponents below 128; the operations
    of [SpecFloat] round to nearest, ties to even. *)
Definition f32_prec : Z := 24.
Definition f32_emax : Z := 128.
Definition f32 : Type := SpecFloat.spec_float.

Definition f32_of_Z (z : Z) : f32 :=
  SpecFloat.binary_normalize f32_prec f32_emax z 0 false.
Definition f32_add : f32 -> f32 -> f32 := SpecFloat.SFadd f32_prec f32_emax.
Definition f32_sub : f32 -> f32 -> f32 := SpecFloat.SFsub f32_prec f32_emax.
Definition f32_div : f32 -> f32 -> f32 := SpecFloat.SFdiv f32_prec f32_emax.

(** The greater of two numbers; NaN wins, as in [torch.maximum]. *)
Definition f32_max (a b : f32) : f32 :=
  match a, b with
  | SpecFloat.S754_nan, _ | _, SpecFloat.S754_nan => SpecFloat.S754_nan
  | _, _ => if SpecFloat.SFltb a b then b else a
  end.

(** A Python float, which is a binary64 number, converted to float32. *)
Definition f32_of_double (x : SpecFloat.spec_float) : f32 :=
  match x with
  | SpecFloat.S754_finite s m e =>
      SpecFloat.binary_normalize f32_prec f32_emax
        (SpecFloat.cond_Zopp s (Zpos m)) e s
  | _ => x
  end.

(** The real number that a finite float stands for.  Infinities and NaN
    stand for no real number; they are sent to 0. *)
Definition f32_value (x : f32) : R :=
  match x with
  | SpecFloat.S754_finite s m e =>
      (IZR (SpecFloat.cond_Zopp s (Zpos m)) * powerRZ 2 e)%R
  | _ => 0%R
  end.

Record Tensor32 : Type := mkTensor32 { shape32 : list nat; val32 : list nat -> f32 }.

Definition ndim32 (t : Tensor32) : nat := length (shape32 t).
Definition size32 (t : Tensor32) (d : nat) : nat := nth d (shape32 t) 0.

Definition pointwise32 (f : f32 -> f32) (a : Tensor32) : Tensor32 :=
  mkTensor32 (shape32 a) (fun idx => f (val32 a idx)).

Definition pointwise2_32 (f : f32 -> f32 -> f32) (a b : Tensor32) : result Tensor32 :=
  sh ← broadcast_shapes (shape32 a) (shape32 b);
  Ok (mkTensor32 sh (fun idx =>
        f (val32 a (bcast_index (shape32 a) idx))
          (val32 b (bcast_index (shape32 b) idx)))).

Definition sub32 := pointwise2_32 f32_sub.
Definition div32 := pointwise2_32 f32_div.

(** [a + c] for a Python scalar [c] already converted to float32. *)
Definition add_scalar32 (a : Tensor32) (c : f32) : Tensor32 :=
  pointwise32 (fun x => f32_add x c) a.

(** [t.index_select(dim, index)] *)
Definition index_select32 (t : Tensor32) (dim : Z) (index : list Z) : result Tensor32 :=
  d ← wrap_dim (ndim32 t) dim;
  if decide (Forall (fun i => (0 <= i < Z.of_nat (size32 t d))%Z) index)
  then Ok (mkTensor32 (<[d := length index]> (shape32 t))
             (fun idx => val32 t (alter (fun j => Z.to_nat (nth j index 0%Z)) d idx)))
  else Raise IndexError.

(** [torch_scatter.utils.broadcast(src, other, dim)]; only the shape of
    [other] matters. *)
Definition broadcast32 (src : list Z) (other : Tensor32) (dim : Z) : result LongTensor :=
  broadcast src (mkTensor (shape32 other) (fun _ => 0%R)) dim.

(** The sum is accumulated in index order, starting from zero; the
    maximum of no element is zero. *)
Definition reduce_list32 (r : reduction) (l : list f32) : f32 :=
  match r with
  | ReduceSum => foldl f32_add (f32_of_Z 0) l
  | ReduceMax => match l with [] => f32_of_Z 0 | x :: l' => foldl f32_max x l' end
  end.

(** [torch_scatter.scatter(src, index, dim, dim_size=dim_size, reduce=...)] *)
Definition scatter32 (src : Tensor32) (index : LongTensor) (dim : Z) (dim_size : Z)
                     (reduce : reduction) : result Tensor32 :=
  d ← wrap_dim (ndim32 src) dim;
  if decide (lshape index ≠ shape32 src) then Raise RuntimeError else
  if decide (dim_size < 0)%Z then Raise RuntimeError else
  if decide (Forall (fun idx => (0 <= lval index idx < dim_size)%Z)
                    (all_indices (shape32 src)))
  then Ok (mkTensor32 (<[d := Z.to_nat dim_size]> (shape32 src))
             (fun idx => reduce_list32 reduce
                ((fun j => val32 src (<[d := j]> idx))
                   <$> members index d (size32 src d) idx)))
  else Raise IndexError.

Section kernels32.

(** [torch.exp] on float32 entries.  Its results are not fixed by
    IEEE 754, so the function is left open. *)
Variable exp32 : f32 -> f32.

(** [tsl.epsilon], converted to float32. *)
Variable epsilon : f32.

Definition sparse_softmax32 (src : Tensor32) (index : list Z)
                            (num_nodes : option Z) (dim : Z) : result Tensor32 :=
  let N := maybe_num_nodes index num_nodes in
  expanded_index ← broadcast32 index src dim;
  src_max ← scatter32 src expanded_index dim N ReduceMax;
  src_max ← index_select32 src_max dim index;
  out ← pointwise32 exp32 <$> sub32 src src_max;
  out_sum ← scatter32 out expanded_index dim N ReduceSum;
  out_sum ← index_select32 out_sum dim index;
  div32 out (add_scalar32 out_sum epsilon).

End kernels32.

End float32.

(** ** tsl/nn/models/imputation/grin_model.py *)

Module grin_model.
Import Torch.
Import functional.
#[local] Open Scope string_scope.

(** What a Python name bound to the imputation may hold: a tensor, or the
    named pair [(values, indices)] that [torch.min] and [torch.max] return
    when they reduce along a dimension. *)
Inductive pyvalue : Type :=
  | PyTensor (t : Tensor)
  | PyValuesIndices (values : Tensor) (indices : LongTensor).

(** Modelled from the spec: [tsl.nn.base.embedding.StaticGraphEmbedding],
    which is not part of the sources at hand.  The spec describes it as an
    embedding table of shape [[num_nodes, embedding_size]] whose rows are
    looked up per forward pass and broadcast across batch and time. *)
Record StaticGraphEmbedding : Type := mkEmbedding {
  emb_nodes : nat;
  emb_size : nat;
  emb_table : nat -> nat -> R }.

Definition StaticGraphEmbedding_init (n_nodes emb_size : Z)
    (table : nat -> nat -> R) : result StaticGraphEmbedding :=
  if decide (0 <= n_nodes ∧ 0 <= emb_size)%Z
  then Ok (mkEmbedding (Z.to_nat n_nodes) (Z.to_nat emb_size) table)
  else Raise RuntimeError.

(** [emb(expand=(b, s, -1, -1))] *)
Definition StaticGraphEmbedding_forward (e : StaticGraphEmbedding) (b s : nat)
  : result Tensor :=
  Ok (mkTensor [b; s; emb_nodes e; emb_size e]
        (fun idx => emb_table e (nth 2 idx 0) (nth 3 idx 0))).

(** [nn.Linear(in_features, out_features)] with its initial parameters. *)
Definition Linear_init (in_features out_features : Z)
    (w : nat -> nat -> R) (b : nat -> R) : result Linear :=
  if decide (0 <= in_features ∧ 0 <= out_features)%Z
  then Ok (mkLinear (Z.to_nat in_features) (Z.to_nat out_features) w b)
  else Raise RuntimeError.

(** [nn.Dropout(p)] *)
Definition Dropout_init (p : R) : result R :=
  if Rlt_dec p 0 then Raise (ValueError "dropout probability"%string)
  else if Rlt_dec 1 p then Raise (ValueError "dropout probability"%string)
  else Ok p.

(** The object bound to [self.out]. *)
Inductive out_module : Type :=
  | Sequential (lin1 : Linear) (p : R) (lin2 : Linear)
  | TorchFunction (name : string).

(** [a + b] where [b] may be [None]. *)
Definition py_add (a : Z) (b : option Z) : result Z :=
  match b with
  | Some b => Ok (a + b)%Z
  | None => Raise TypeError
  end.

(** [b, s, *_ = t.size()] *)
Definition unpack2_star (sh : list nat) : result (nat * nat) :=
  match sh with
  | b :: s :: _ => Ok (b, s)
  | _ => Raise (ValueError "unpack"%string)
  end.

(** Arguments of the constructor. *)
Record config : Type := mkConfig {
  input_size : Z;
  hidden_size : Z;
  ff_size : Z;
  embedding_size : option Z;
  exog_size : option Z;
  n_layers : Z;
  n_nodes : option Z;
  kernel_size : Z;
  decoder_order : Z;
  layer_norm : bool;
  dropout_prob : R;
  ff_dropout : R;
  merge_mode : string }.

(** The constructor called with its default arguments. *)
Definition defaults (input_size : Z) : config :=
  mkConfig input_size 64 128 None None 1 None 2 1 false 0 0 "mlp".

Section model.

(** The recurrent cell [tsl.nn.layers.graph_convs.grin_cell.GRIL] is used
    through its call contract only: a constructor, and a call that yields
    output, prediction, representation and final state. *)
Variable GRIL : Type.
Variable Adj : Type.
Variable State : Type.
Variable GRIL_init : nat -> config -> result GRIL.
Variable GRIL_forward :
  GRIL -> Tensor -> Adj -> option Tensor -> option Tensor -> option Tensor ->
  result (Tensor * Tensor * Tensor * State).

(** Initial values of the learned parameters. *)
Variable init_table : nat -> nat -> R.
Variable init_weight : nat -> nat -> nat -> R.
Variable init_bias : nat -> nat -> R.

Record GRINModel : Type := mkModel {
  fwd_gril : GRIL;
  bwd_gril : GRIL;
  emb : option StaticGraphEmbedding;
  model_merge_mode : string;
  out : out_module;
  training : bool }.

Definition init (cfg : config) : result GRINModel :=
  fwd ← GRIL_init 0 cfg;
  bwd ← GRIL_init 1 cfg;
  e ← match embedding_size cfg with
      | Some es =>
          match n_nodes cfg with
          | None => Raise AssertionError
          | Some n => Some <$> StaticGraphEmbedding_init n es init_table
          end
      | None => Ok None
      end;
  o ← (if decide (merge_mode cfg = "mlp") then
         in_channels ← py_add (4 * hidden_size cfg + input_size cfg)
                              (embedding_size cfg);
         lin1 ← Linear_init in_channels (ff_size cfg)
                            (init_weight 0) (init_bias 0);
         p ← Dropout_init (ff_dropout cfg);
         lin2 ← Linear_init (ff_size cfg) (input_size cfg)
                            (init_weight 1) (init_bias 1);
         Ok (Sequential lin1 p lin2)
       else if decide (merge_mode cfg ∈ ["mean"; "sum"; "min"; "max"])
       then Ok (TorchFunction (merge_mode cfg))
       else Raise (ValueError (String.append "Merge option "
                                 (String.append (merge_mode cfg)
                                                " not allowed."))));
  Ok (mkModel fwd bwd e (merge_mode cfg) o true).

(** [self.out(imputation)] *)
Definition call_out (m : GRINModel) (x : Tensor) (keep : list nat -> bool)
  : result pyvalue :=
  match out m with
  | Sequential lin1 p lin2 =>
      h ← Linear_forward lin1 x;
      let h := trelu h in
      h ← (if training m then dropout h p keep else Ok h);
      y ← Linear_forward lin2 h;
      Ok (PyTensor y)
  | TorchFunction _ => Raise TypeError
  end.

(** [self.out(imputation, dim=-1)] *)
Definition call_out_dim (m : GRINModel) (x : Tensor) (dim : Z) : result pyvalue :=
  match out m with
  | Sequential _ _ _ => Raise TypeError
  | TorchFunction name =>
      if decide (name = "mean") then PyTensor <$> tmean x dim
      else if decide (name = "sum") then PyTensor <$> tsum x dim
      else if decide (name = "min")
      then (fun '(v, i) => PyValuesIndices v i) <$> tmin x dim
      else if decide (name = "max")
      then (fun '(v, i) => PyValuesIndices v i) <$> tmax x dim
      else Raise TypeError
  end.

Definition reverse_opt (t : option Tensor) (dim : Z) : result (option Tensor) :=
  match t with
  | Some t => Some <$> reverse_tensor t dim
  | None => Ok None
  end.

Definition forward (m : GRINModel) (x : Tensor) (edge_index : Adj)
    (edge_weight mask u : option Tensor) (keep : list nat -> bool)
  : result (pyvalue * (Tensor * Tensor * Tensor * Tensor)) :=
  fwd ← GRIL_forward (fwd_gril m) x edge_index edge_weight mask u;
  let '(fwd_out, fwd_pred, fwd_repr, _) := fwd in
  rev_x ← reverse_tensor x 1;
  rev_mask ← reverse_opt mask 1;
  rev_u ← reverse_opt u 1;
  bwd ← GRIL_forward (bwd_gril m) rev_x edge_index edge_weight rev_mask rev_u;
  let '(raw_out, raw_pred, raw_repr, _) := bwd in
  bwd_out ← reverse_tensor raw_out 1;
  bwd_pred ← reverse_tensor raw_pred 1;
  bwd_repr ← reverse_tensor raw_repr 1;
  imputation ←
    (if decide (model_merge_mode m = "mlp") then
       let inputs := [Some fwd_repr; Some bwd_repr; mask] in
       inputs ← match emb m with
                | Some e =>
                    bs ← unpack2_star (shape fwd_repr);
                    t ← StaticGraphEmbedding_forward e bs.1 bs.2;
                    Ok (inputs ++ [Some t])%list
                | None => Ok inputs
                end;
       imputation ← cat inputs (-1);
       call_out m imputation keep
     else
       imputation ← stack [fwd_out; bwd_out] (-1);
       call_out_dim m imputation (-1));
  Ok (imputation, (fwd_out, bwd_out, fwd_pred, bwd_pred)).

End model.

End grin_model.

(** ** tsl.inference.predictor *)

Module predictor.
Import Torch.
#[local] Open Scope string_scope.

(** *** [Predictor.on_predict_epoch_end] *)

(** [try: processed_res[k].append(v)  except KeyError: processed_res[k] = [v]] *)
Definition append_result (processed_res : gmap string (list Tensor))
    (k : string) (v : Tensor) : gmap string (list Tensor) :=
  match processed_res !! k with
  | Some l => <[k := (l ++ [v])%list]> processed_res
  | None => <[k := [v]]> processed_res
  end.

(** The outputs of the batches of one dataloader, gathered per key. *)
Definition process (res : list (gmap string Tensor)) : gmap string (list Tensor) :=
  foldl (fun processed_res b_res =>
           map_fold (fun k v acc => append_result acc k v) processed_res b_res)
        ∅ res.

(** [for k, v in res.items(): res[k] = torch.cat(v, 0)].  The entries
    written so far are kept in a map of their own, since they hold tensors
    where [res] held lists. *)
Definition concatenate (res : gmap string (list Tensor))
  : result (gmap string Tensor) :=
  map_fold (fun k v acc =>
              acc ← acc; t ← cat (Some <$> v) 0; Ok (<[k := t]> acc))
           (Ok ∅) res.

(** The method returns nothing; it replaces the contents of the list
    [results] it is given.  The value returned here is the contents of
    [results] once the method has returned. *)
Definition on_predict_epoch_end (results : list (list (gmap string Tensor)))
  : result (list (gmap string Tensor)) :=
  let processed_results := process <$> results in
  mapM concatenate processed_results.

(** *** [Predictor.load_model] and [Predictor.configure_optimizers] *)

(** Exceptions of the predictor: those of the kernels, and [KeyError]. *)
Inductive pyexn : Type :=
  | Builtin (e : exn)
  | KeyError (key : string).

Inductive outcome (A : Type) : Type :=
  | Return (a : A)
  | Throw (e : pyexn).
Arguments Return {A} a.
Arguments Throw {A} e.

Section objects.

(** Python objects held in keyword dictionaries, with [None] among them;
    classes; the state dictionary of a checkpoint and what loading it
    leaves in the module. *)
Context {Obj Cls StateDict Weights : Type}.
Context `{EqDecision Obj} `{EqDecision Cls}.
Variable PyNone : Obj.

(** The fields of [self] that the two methods read or write.  A class is
    used through its constructor call. *)
Record Predictor : Type := mkPredictor {
  model_cls : Cls;
  model_kwargs : gmap string Obj;
  parameters : Obj;
  optim_class : Obj -> gmap string Obj -> result Obj;
  optim_kwargs : gmap string Obj;
  scheduler_class : option (Obj -> gmap string Obj -> result Obj);
  scheduler_kwargs : gmap string Obj }.

(** What [torch.load] returned: [model['hyper_parameters']['model_class']],
    [model['hyper_parameters']['model_kwargs']] with its items in order,
    and [model['state_dict']]. *)
Record Checkpoint : Type := mkCheckpoint {
  ckpt_model_class : Cls;
  ckpt_model_kwargs : list (string * Obj);
  ckpt_state_dict : StateDict }.

(** [for k, v in model_kwargs.items(): assert v == self.model_kwargs[k]] *)
Fixpoint check_kwargs (self : Predictor) (items : list (string * Obj))
  : outcome unit :=
  match items with
  | [] => Return tt
  | (k, v) :: items' =>
      match model_kwargs self !! k with
      | None => Throw (KeyError k)
      | Some v' =>
          if decide (v = v') then check_kwargs self items'
          else Throw (Builtin AssertionError)
      end
  end.

Definition load_model (load_state_dict : StateDict -> outcome Weights)
    (self : Predictor) (model : Checkpoint) : outcome Weights :=
  if decide (ckpt_model_class model = model_cls self) then
    match check_kwargs self (ckpt_model_kwargs model) with
    | Return _ => load_state_dict (ckpt_state_dict model)
    | Throw e => Throw e
    end
  else Throw (Builtin AssertionError).

(** [self.scheduler_kwargs.pop('monitor', None)] changes [self]: the
    method yields the predictor it leaves behind together with its result. *)
Definition configure_optimizers (self : Predictor)
  : Predictor * result (gmap string Obj) :=
  match optim_class self (parameters self) (optim_kwargs self) with
  | Raise e => (self, Raise e)
  | Ok optimizer =>
      let cfg : gmap string Obj := <["optimizer" := optimizer]> ∅ in
      match scheduler_class self with
      | None => (self, Ok cfg)
      | Some scheduler_class' =>
          let metric := default PyNone (scheduler_kwargs self !! "monitor") in
          let self :=
            mkPredictor (model_cls self) (model_kwargs self) (parameters self)
              (optim_class self) (optim_kwargs self) (scheduler_class self)
              (delete "monitor" (scheduler_kwargs self)) in
          match scheduler_class' optimizer (scheduler_kwargs self) with
          | Raise e => (self, Raise e)
          | Ok scheduler =>
              let cfg := <["lr_scheduler" := scheduler]> cfg in
              let cfg := if decide (metric = PyNone) then cfg
                         else <["monitor" := metric]> cfg in
              (self, Ok cfg)
          end
      end
  end.

End objects.

End predictor.

(** * Statements and proofs *)

Import Torch functional grin_model.
Import predictor.
Import float32.

(** ** Vocabulary *)

(** The positions that the group index sends to group [g]. *)
Definition group_members (index : list Z) (g : Z) : list nat :=
  filter (fun j => nth j index 0%Z = g) (seq 0 (length index)).

(** The group of the element found at multi-index [idx], for a group index
    laid along dimension [d]. *)
Definition group_at (index : list Z) (d : nat) (idx : list nat) : Z :=
  nth (nth d idx 0) index 0%Z.

(** The entries of [t] met along dimension [d] through [idx]. *)
Definition column (t : Tensor) (d : nat) (idx : list nat) (j : nat) : R :=
  val t (<[d:=j]> idx).

(** [m] is the greatest element of [l]. *)
Definition is_max_of (m : R) (l : list R) : Prop :=
  m ∈ l ∧ forall x, x ∈ l -> (x <= m)%R.

(** [x] equals one up to the tolerance [eps]. *)
Definition near_one (eps x : R) : Prop := (Rabs (x - 1) <= eps)%R.

(** The normalising sum of a group: the exponentials of the scores [col j]
    of its members, each score taken relative to the greatest of them. *)
Definition softmax_normaliser (col : nat -> R) (grp : list nat) : R :=
  let m := Rmax_list (col <$> grp) in
  Rsum ((fun j => exp (col j - m)) <$> grp).

(** The attention score of query [s] and head [hd]: the dot product of the
    rows of [qt] and [kt] divided by the square root of the embedding
    size; a key of embedding size one is broadcast. *)
Definition attention_score (qt kt : Tensor) (s hd : nat) : R :=
  let E := size qt 2 in
  Rdiv (Rsum ((fun e => Rmult (val qt [s; hd; e])
                          (val kt [s; hd; if decide (size kt 2 = 1) then 0 else e]))
                <$> seq 0 E))
       (sqrt (INR E)).

(** The group index fits the source tensor and the group count: one
    non-negative group number per position along [dim], each below the
    group count when that count is given. *)
Definition group_index_ok (src : Tensor) (index : list Z) (num_nodes : option Z)
                          (dim : Z) (d : nat) : Prop :=
  0 < ndim src ∧ wrap_dim (ndim src) dim = Ok d ∧ length index = size src d
  ∧ Forall (fun g => (0 <= g)%Z) index
  ∧ forall n, num_nodes = Some n -> (0 <= n)%Z ∧ Forall (fun g => (g < n)%Z) index.

(** The same for float32 tensors. *)
Definition column32 (t : Tensor32) (d : nat) (idx : list nat) (j : nat) : f32 :=
  val32 t (<[d:=j]> idx).
Definition group_index32_ok (src : Tensor32) (index : list Z) (num_nodes : option Z)
                            (dim : Z) (d : nat) : Prop :=
  0 < ndim32 src ∧ wrap_dim (ndim32 src) dim = Ok d ∧ length index = size32 src d
  ∧ Forall (fun g => (0 <= g)%Z) index
  ∧ forall n, num_nodes = Some n -> (0 <= n)%Z ∧ Forall (fun g => (g < n)%Z) index.

(** A call whose arguments have the documented shapes: [q] is [(S, H, E)],
    [k] is [(S, H, E)] or [(S, H, 1)], [v] is [(S, H, O)] and [index] has
    [S] entries, all of them group numbers below the group count. *)
Definition attention_inputs_ok (h : gmap nat object) (q k v index : nat)
    (qt kt vt : Tensor) (ix : list Z) (S H E Ek O : nat) (dim_size : option Z)
  : Prop :=
  h !! q = Some (FloatObj qt) ∧ h !! k = Some (FloatObj kt)
  ∧ h !! v = Some (FloatObj vt) ∧ h !! index = Some (LongObj ix)
  ∧ shape qt = [S; H; E] ∧ shape kt = [S; H; Ek] ∧ (Ek = E ∨ Ek = 1)
  ∧ shape vt = [S; H; O] ∧ 0 < H ∧ length ix = S
  ∧ Forall (fun g => (0 <= g)%Z) ix
  ∧ forall n, dim_size = Some n -> (0 <= n)%Z ∧ Forall (fun g => (g < n)%Z) ix.

(** A computation that writes to no other object than [v]. *)
Definition writes_only (v : nat) {A} (m : Py A) : Prop :=
  forall (h : gmap nat object) l, l ≠ v -> (m h).1 !! l = h !! l.

(** The error raised for an unknown merge mode. *)
Definition merge_error (mode : string) : exn :=
  ValueError (String.append "Merge option " (String.append mode " not allowed.")).

(** The position that reversal along [d] reads from. *)
Definition mirror (t : Tensor) (d : nat) (idx : list nat) : list nat :=
  <[d := size t d - 1 - nth d idx 0]> idx.

(** What the batches of one dataloader hold under key [k], in batch order. *)
Definition gathered (k : string) (res : list (gmap string Tensor)) : list Tensor :=
  omap (fun b_res : gmap string Tensor => b_res !! k) res.

(** Tensors that [torch.cat] stacks along dimension 0: none is
    zero-dimensional, and they agree on every other dimension. *)
Definition rows_compatible (l : list Tensor) : Prop :=
  forall t t', t ∈ l -> t' ∈ l ->
    shape t ≠ [] ∧ tail (shape t) = tail (shape t').

(** The size of the last dimension. *)
Definition width (t : Tensor) : nat := size t (ndim t - 1).

(** The entry of [t] at the leading coordinates [front] and feature [j]. *)
Definition at_feature (t : Tensor) (front : list nat) (j : nat) : R :=
  val t (front ++ [j]).

(** Output feature [o] of a linear layer applied to the features [x]. *)
Definition affine (l : Linear) (x : nat -> R) (o : nat) : R :=
  Rplus (Rsum ((fun i => Rmult (x i) (weight l o i)) <$> seq 0 (in_features l)))
        (bias l o).

(** What dropout with probability [p] makes of the entry [v] at [idx]. *)
Definition dropout_value (p : R) (keep : list nat -> bool) (idx : list nat)
    (v : R) : R :=
  if Req_dec_T p 1 then 0%R
  else if Req_dec_T p 0 then v
  else if keep idx then (v / (1 - p))%R else 0%R.

(** The features that the output network of the model reads at the leading
    coordinates [front]: those of the forward representation, then those
    of the backward representation, then the mask, then the embedding of
    the node. *)
Definition mlp_features (fwd_repr bwd_repr mask : Tensor)
    (e : StaticGraphEmbedding) (front : list nat) (j : nat) : R :=
  let wa := width fwd_repr in
  let wb := width bwd_repr in
  let wm := width mask in
  if decide (j < wa) then at_feature fwd_repr front j
  else if decide (j < wa + wb) then at_feature bwd_repr front (j - wa)
  else if decide (j < wa + wb + wm) then at_feature mask front (j - wa - wb)
  else emb_table e (nth 2 front 0) (j - wa - wb - wm).

(** ** Example inputs *)

(** The value of [tsl.epsilon]. *)
Definition epsilon_default : R := (5 / 100000000)%R.

(** The same constant as Python holds it, the binary64 number nearest to
    5 / 10^8 (5 and 10^8 are binary64 numbers and the division rounds to
    nearest), and as it is added to a float32 tensor. *)
Definition epsilon_double : SpecFloat.spec_float :=
  SpecFloat.SFdiv 53 1024 (SpecFloat.binary_normalize 53 1024 5 0 false)
                          (SpecFloat.binary_normalize 53 1024 100000000 0 false).
Definition epsilon32 : f32 := f32_of_double epsilon_double.

(** Thirty scores equal to one, of shape (30, 1), all in group 0. *)
Definition equal_scores32 : Tensor32 := mkTensor32 [30; 1] (fun _ => f32_of_Z 1).
Definition one_group : list Z := replicate 30 0%Z.

(** A store holding [q], [k], [v] and [index] as objects 0, 1, 2 and 3. *)
Definition example_store (qt kt vt : Tensor) (ix : list Z) : gmap nat object :=
  <[0:=FloatObj qt]> (<[1:=FloatObj kt]> (<[2:=FloatObj vt]> (<[3:=LongObj ix]> ∅))).

Definition example_src : Tensor := tensor2 [[1]; [2]; [3]]%R.
Definition example_index : list Z := [0; 1; 0]%Z.
Definition example_shift (g : Z) : R := (10 * IZR g)%R.
Definition example_shifted : Tensor :=
  mkTensor [3; 1]
    (fun idx => Rplus (val example_src idx)
                      (example_shift (nth (nth 0 idx 0) example_index 0%Z))).

(** A cell that echoes its input, used to run the model on examples. *)
Definition echo_init (_ : nat) (_ : config) : result unit := Ok tt.
Definition echo_forward (_ : unit) (x : Tensor) (_ : unit)
    (_ _ _ : option Tensor) : result (Tensor * Tensor * Tensor * unit) :=
  Ok (x, x, x, tt).
Definition zero_table (_ _ : nat) : R := 0%R.
Definition zero_weight (_ _ _ : nat) : R := 0%R.
Definition zero_bias (_ _ : nat) : R := 0%R.

Definition echo_model_init : config -> result (GRINModel unit) :=
  init unit echo_init zero_table zero_weight zero_bias.
Definition echo_model_forward :=
  forward unit unit unit echo_forward.

Definition with_mode (cfg : config) (mode : string) : config :=
  mkConfig (input_size cfg) (hidden_size cfg) (ff_size cfg) (embedding_size cfg)
           (exog_size cfg) (n_layers cfg) (n_nodes cfg) (kernel_size cfg)
           (decoder_order cfg) (layer_norm cfg) (dropout_prob cfg)
           (ff_dropout cfg) mode.
Definition with_embedding (cfg : config) (emb : option Z) (nodes : option Z) : config :=
  mkConfig (input_size cfg) (hidden_size cfg) (ff_size cfg) emb
           (exog_size cfg) (n_layers cfg) nodes (kernel_size cfg)
           (decoder_order cfg) (layer_norm cfg) (dropout_prob cfg)
           (ff_dropout cfg) (merge_mode cfg).

Definition echo_mean_model : GRINModel unit :=
  mkModel unit tt tt None "mean" (TorchFunction "mean") true.
Definition echo_min_model : GRINModel unit :=
  mkModel unit tt tt None "min" (TorchFunction "min") true.

Definition example_x : Tensor := mkTensor [2; 5; 3; 4] (fun idx => INR (nth 1 idx 0)).
Definition example_mask : Tensor := mkTensor [2; 5; 3; 4] (fun _ => 1%R).

(** Three queries with one head, sent to the groups 0, 2 and 0. *)
Definition example_attention_store : gmap nat object :=
  example_store (tensor3 [[[1; 2]]; [[3; 4]]; [[5; 6]]]%R)
                (tensor3 [[[1; 0]]; [[0; 1]]; [[1; 1]]]%R)
                (tensor3 [[[10]]; [[20]]; [[30]]]%R) [0; 2; 0]%Z.

(** A model with merge mode ["mlp"] and node embeddings: the widths of the
    concatenated inputs add up to [4 * 2 + 4 + 8]. *)
Definition small_mlp_config : config :=
  mkConfig 4 2 5 (Some 8%Z) None 1 (Some 3%Z) 2 1 false 0 0 "mlp".
Definition small_mlp_model : GRINModel unit :=
  mkModel unit tt tt (Some (mkEmbedding 3 8 zero_table)) "mlp"
    (Sequential (mkLinear 20 5 (zero_weight 0) (zero_bias 0)) 0
                (mkLinear 5 4 (zero_weight 1) (zero_bias 1))) true.

(** The outputs of two batches of one dataloader: two samples, then one. *)
Definition example_predictions : list (gmap string Tensor) :=
  [ <["y_hat" := tensor2 [[1]; [2]]%R]> (<["y" := tensor2 [[1]; [1]]%R]> ∅);
    <["y_hat" := tensor2 [[3]]%R]> (<["y" := tensor2 [[1]]%R]> ∅) ].

(** A predictor whose scheduler is told which metric to monitor, and a
    checkpoint of the same model class.  Objects are named by strings. *)
Definition example_predictor : Predictor (Obj:=string) (Cls:=string) :=
  mkPredictor "GRINModel"%string
    (<["input_size" := "4"]> (<["hidden_size" := "64"]> ∅))%string
    "parameters"%string
    (fun _ _ => Ok "Adam"%string) ∅
    (Some (fun _ _ => Ok "ReduceLROnPlateau"%string))
    (<["monitor" := "val_mae"]> (<["patience" := "10"]> ∅))%string.
Definition example_checkpoint (kwargs : list (string * string))
  : Checkpoint (Obj:=string) (Cls:=string) (StateDict:=unit) :=
  mkCheckpoint "GRINModel"%string kwargs tt.

(** ** The result monad *)

Lemma bind_returns {A B} (f : A -> result B) m b :
  m ≫= f = Ok b -> exists a, m = Ok a /\ f a = Ok b.
Proof. destruct m as [a|e]; [exists a; auto | discriminate]. Qed.

Lemma bind_raises {A B} (f : A -> result B) m :
  (forall a, raises (f a)) -> raises (m ≫= f).
Proof. intros H. destruct m as [a|e]; [apply H | exists e; reflexivity]. Qed.

Lemma bind_assoc {A B C} (m : result A) (f : A -> result B) (g : B -> result C) :
  (m ≫= f) ≫= g = m ≫= (fun x => f x ≫= g).
Proof. destruct m; reflexivity. Qed.

(** ** Multi-indices and dimensions *)

Lemma wrap_dim_lt nd dim d : wrap_dim nd dim = Ok d -> 0 < nd -> d < nd.
Proof.
  unfold wrap_dim. destruct (decide _) as [H|_]; [|discriminate].
  intros [= <-] Hn. destruct (decide _); lia.
Qed.

Lemma wrap_dim_last n : wrap_dim (S n) (-1) = Ok n.
Proof.
  unfold wrap_dim. destruct (decide _) as [_|H]; [|lia].
  f_equal. destruct (decide _); lia.
Qed.

Lemma in_bounds_length sh idx : in_bounds sh idx -> length idx = length sh.
Proof. apply Forall2_length. Qed.

Lemma all_indices_in_bounds sh idx : idx ∈ all_indices sh -> in_bounds sh idx.
Proof.
  revert idx. induction sh as [|n sh IH]; intros idx; cbn.
  - intros ->%list_elem_of_singleton. constructor.
  - intros (i & (rest & -> & Hr)%list_elem_of_fmap & Hi%elem_of_seq)%list_elem_of_bind.
    constructor; [lia | apply IH, Hr].
Qed.

Lemma in_bounds_nth sh idx d : in_bounds sh idx -> d < length sh -> nth d idx 0 < nth d sh 0.
Proof.
  intros H. revert d. induction H as [|i n idx sh Hi _ IH]; intros d Hd; cbn in *; [lia|].
  destruct d; [exact Hi | apply IH; lia].
Qed.

Lemma in_bounds_insert_l sh idx d j :
  in_bounds sh idx -> j < nth d sh 0 -> in_bounds sh (<[d:=j]> idx).
Proof.
  intros H. revert d. induction H as [|i m idx sh Hi H IH]; intros d Hj; cbn; [constructor|].
  destruct d; cbn in *; constructor; auto; apply IH; auto.
Qed.

Lemma nth_insert_eq (l : list nat) d j : d < length l -> nth d (<[d:=j]> l) 0 = j.
Proof. intros H. rewrite nth_lookup, list_lookup_insert_eq by exact H. reflexivity. Qed.

Lemma insert_nth_id (l : list nat) d : <[d:=nth d l 0]> l = l.
Proof.
  revert d. induction l as [|x l IH]; intros [|d]; cbn; try reflexivity.
  now rewrite IH.
Qed.

Lemma alter_as_insert (f : nat -> nat) (l : list nat) d :
  alter f d l = <[d:=f (nth d l 0)]> l.
Proof.
  revert d. induction l as [|x l IH]; intros [|d]; cbn; try reflexivity.
  now rewrite IH.
Qed.

Lemma filter_ext_elem {A} (P Q : A -> Prop) `{!forall x, Decision (P x)}
      `{!forall x, Decision (Q x)} (l : list A) :
  (forall x, x ∈ l -> (P x <-> Q x)) -> filter P l = filter Q l.
Proof.
  induction l as [|x l IH]; intros Hext; [reflexivity|].
  rewrite !filter_cons.
  destruct (decide (P x)) as [HP|HP], (decide (Q x)) as [HQ|HQ].
  - f_equal. apply IH. intros y Hy. apply Hext. now right.
  - exfalso. apply HQ, Hext; [left | exact HP].
  - exfalso. apply HP, Hext; [left | exact HQ].
  - apply IH. intros y Hy. apply Hext. now right.
Qed.

Lemma Forall_nth_Z (P : Z -> Prop) (l : list Z) i :
  Forall P l -> i < length l -> P (nth i l 0%Z).
Proof.
  intros H Hi. rewrite nth_lookup.
  destruct (lookup_lt_is_Some_2 l i Hi) as [x Hx]. rewrite Hx. cbn.
  eapply Forall_lookup_1; eauto.
Qed.

Lemma insert_at_end (l : list nat) j : insert_at (length l) j l = l ++ [j].
Proof. unfold insert_at. rewrite take_ge, drop_ge by lia. reflexivity. Qed.

Lemma delete_end (l : list nat) j : delete (length l) (l ++ [j]) = l.
Proof. rewrite delete_middle. apply app_nil_r. Qed.

Lemma nth_end (l : list nat) j : nth (length l) (l ++ [j]) 0 = j.
Proof. rewrite app_nth2, Nat.sub_diag by lia. reflexivity. Qed.

(** ** Broadcasting *)

Lemma pad_shape_same s : pad_shape (length s) s = s.
Proof. unfold pad_shape. rewrite Nat.sub_diag. reflexivity. Qed.

Lemma zip_dims_same sh : zip_dims sh sh = Ok sh.
Proof.
  induction sh as [|y sh IH]; cbn; [reflexivity|].
  unfold broadcast_dim. destruct (decide (y = y)); [|contradiction].
  cbn. now rewrite IH.
Qed.

Lemma broadcast_shapes_same sh : broadcast_shapes sh sh = Ok sh.
Proof.
  unfold broadcast_shapes. rewrite Nat.max_id, pad_shape_same. apply zip_dims_same.
Qed.

Lemma broadcast_shapes_same_length a b :
  length a = length b -> broadcast_shapes a b = zip_dims a b.
Proof.
  intros H. unfold broadcast_shapes. rewrite H, Nat.max_id.
  rewrite <- H at 1. now rewrite !pad_shape_same.
Qed.

Lemma zip_dims_insert sh d a b :
  d < length sh ->
  zip_dims (<[d:=a]> sh) (<[d:=b]> sh)
  = (n ← broadcast_dim a b; Ok (<[d:=n]> sh)).
Proof.
  revert d. induction sh as [|x sh IH]; intros d Hd; [cbn in Hd; lia|].
  destruct d as [|d]; cbn.
  - destruct (broadcast_dim a b) as [n|e]; cbn; [|reflexivity].
    assert (zip_dims sh sh = Ok sh) as ->; [|reflexivity].
    clear. induction sh as [|y sh IH]; cbn; [reflexivity|].
    unfold broadcast_dim. destruct (decide (y = y)); [|contradiction].
    cbn. now rewrite IH.
  - unfold broadcast_dim at 1. destruct (decide (x = x)); [|contradiction]. cbn.
    rewrite IH by (cbn in Hd; lia).
    destruct (broadcast_dim a b); reflexivity.
Qed.

Lemma bcast_index_id s idx : in_bounds s idx -> bcast_index s idx = idx.
Proof.
  intros H. unfold bcast_index.
  rewrite (Forall2_length _ _ _ H), Nat.sub_diag, drop_0.
  induction H as [|i n idx s Hi _ IH]; cbn; [reflexivity|].
  rewrite IH. destruct (decide (n = 1)); [f_equal; lia | reflexivity].
Qed.

Lemma pointwise2_same f a b :
  shape b = shape a ->
  exists r, pointwise2 f a b = Ok r ∧ shape r = shape a
    ∧ forall idx, in_bounds (shape a) idx -> val r idx = f (val a idx) (val b idx).
Proof.
  intros H. unfold pointwise2. rewrite H, broadcast_shapes_same.
  eexists. split; [reflexivity|]. split; [reflexivity|]. cbn.
  intros idx Hidx. now rewrite bcast_index_id.
Qed.

Lemma broadcast_dim_error x y e : broadcast_dim x y = Raise e -> e = RuntimeError.
Proof.
  unfold broadcast_dim. repeat destruct (decide _); congruence.
Qed.

Lemma zip_dims_last_mismatch a b x y :
  length a = length b -> x ≠ y -> x ≠ 1 -> y ≠ 1 ->
  zip_dims (a ++ [x]) (b ++ [y]) = Raise RuntimeError.
Proof.
  revert b. induction a as [|u a IH]; intros [|w b] Hl Hxy Hx Hy;
    cbn in Hl; try lia; cbn.
  - unfold broadcast_dim. repeat (destruct (decide _); [congruence|]). reflexivity.
  - rewrite IH by (assumption || lia).
    destruct (broadcast_dim u w) as [n|e] eqn:E; cbn; [reflexivity|].
    now rewrite (broadcast_dim_error _ _ _ E).
Qed.

Lemma broadcast_shapes_last_mismatch a b x y :
  x ≠ y -> x ≠ 1 -> y ≠ 1 ->
  broadcast_shapes (a ++ [x]) (b ++ [y]) = Raise RuntimeError.
Proof.
  intros Hxy Hx Hy. unfold broadcast_shapes, pad_shape.
  rewrite !app_assoc. apply zip_dims_last_mismatch; try assumption.
  rewrite !length_app, !length_replicate. cbn. lia.
Qed.

Lemma broadcast_shapes_last S H E Ek :
  Ek = E ∨ Ek = 1 -> broadcast_shapes [S; H; E] [S; H; Ek] = Ok [S; H; E].
Proof.
  intros HE. rewrite broadcast_shapes_same_length by reflexivity.
  change [S; H; E] with (<[2:=E]> [S; H; E]) at 1.
  change [S; H; Ek] with (<[2:=Ek]> [S; H; E]).
  rewrite zip_dims_insert by (cbn; lia). unfold broadcast_dim.
  destruct (decide (E = Ek)); [reflexivity|].
  destruct (decide (E = 1)); [destruct HE; congruence|].
  destruct (decide (Ek = 1)); [reflexivity | destruct HE; congruence].
Qed.

(** ** The gated activation *)

Lemma gated_tanh_unfold input dim d :
  0 < ndim input -> wrap_dim (ndim input) dim = Ok d ->
  let n := size input d in
  let s0 := if decide (0 < n mod 2) then n / 2 + 1 else n / 2 in
  gated_tanh input dim
  = mul (ttanh (slice input d 0 s0)) (tsigmoid (slice input d s0 (s0 + n / 2))).
Proof.
  intros Hn Hw. unfold gated_tanh, tensor_split.
  destruct (decide (ndim input = 0)); [lia|]. rewrite Hw.
  cbn [mbind result_bind]. destruct (decide (2 = 0)); [lia|].
  cbn [split_loop mbind result_bind].
  destruct (decide (1 < size input d mod 2)) as [H|_]; [|reflexivity].
  pose proof (Nat.mod_upper_bound (size input d) 2). lia.
Qed.

(** Claim C3, as the code has it.  [gated_tanh] splits with
    [torch.tensor_split] and checks nothing itself.  With an even size
    [2 * m] along [dim] it returns the element-wise product of [tanh] of the
    first half and [sigmoid] of the second half, and the split axis of the
    result has size [m].  With an odd size of at least five the two parts,
    of sizes [m + 1] and [m], cannot be broadcast and the product raises. *)
Theorem gated_tanh_halves input dim d :
  0 < ndim input -> wrap_dim (ndim input) dim = Ok d ->
  (forall m, size input d = 2 * m ->
     exists out, gated_tanh input dim = Ok out
       ∧ shape out = <[d:=m]> (shape input)
       ∧ forall idx, in_bounds (shape out) idx ->
           val out idx = (tanh (val input idx)
                          * sigmoid_R (val input (alter (Nat.add m) d idx)))%R)
  ∧ (forall m, 2 <= m -> size input d = 2 * m + 1 ->
       gated_tanh input dim = Raise RuntimeError).
Proof.
  intros Hn Hw. pose proof (wrap_dim_lt _ _ _ Hw Hn) as Hd.
  rewrite (gated_tanh_unfold _ _ _ Hn Hw). cbv zeta. split; intros m.
  - intros Hs. rewrite Hs.
    replace (2 * m mod 2) with 0 by lia.
    replace (2 * m / 2) with m by lia.
    destruct (decide (0 < 0)); [lia|].
    unfold mul, pointwise2. cbn [shape ttanh tsigmoid pointwise slice].
    rewrite broadcast_shapes_same_length by (now rewrite !length_insert).
    rewrite zip_dims_insert by exact Hd.
    replace (m - 0) with m by lia. replace (m + m - m) with m by lia.
    unfold broadcast_dim. destruct (decide (m = m)); [|contradiction].
    cbn [mbind result_bind]. eexists. split; [reflexivity|].
    split; [reflexivity|]. cbn [shape val]. intros idx Hidx.
    rewrite bcast_index_id by assumption.
    cbn [val ttanh tsigmoid pointwise slice].
    rewrite (list_alter_id (Nat.add 0)) by reflexivity. reflexivity.
  - intros Hm Hs. rewrite Hs.
    replace ((2 * m + 1) mod 2) with 1 by lia.
    replace ((2 * m + 1) / 2) with m by lia.
    destruct (decide (0 < 1)); [|lia].
    unfold mul, pointwise2. cbn [shape ttanh tsigmoid pointwise slice].
    rewrite broadcast_shapes_same_length by (now rewrite !length_insert).
    rewrite zip_dims_insert by exact Hd.
    unfold broadcast_dim.
    destruct (decide _); [lia|]. destruct (decide _); [lia|].
    destruct (decide _); [lia|]. reflexivity.
Qed.

Lemma gated_tanh_halves_witness :
  (exists out, gated_tanh (tensor1 [1; 2; 3; 4]%R) (-1) = Ok out
     ∧ shape out = [2]
     ∧ val out [1] = (tanh 2 * sigmoid_R 4)%R)
  ∧ gated_tanh (tensor1 [1; 2; 3; 4; 5]%R) (-1) = Raise RuntimeError.
Proof.
  split.
  - destruct (gated_tanh_halves (tensor1 [1; 2; 3; 4]%R) (-1) 0) as [H _];
      [cbn; lia | reflexivity |].
    destruct (H 2) as (out & Ho & Hs & Hv); [reflexivity|].
    exists out. split; [exact Ho|]. split; [exact Hs|].
    rewrite Hv; [reflexivity|]. rewrite Hs. repeat constructor.
  - destruct (gated_tanh_halves (tensor1 [1; 2; 3; 4; 5]%R) (-1) 0) as [_ H];
      [cbn; lia | reflexivity |].
    apply (H 2); [lia | reflexivity].
Defined.

(** Claim C3 fails for size three: the parts have sizes two
    and one, the second is broadcast over the first, and a result of size
    two is returned. *)
Lemma gated_tanh_size_three_returns :
  size (tensor1 [1; 2; 3]%R) 0 = 3
  ∧ ¬ raises (gated_tanh (tensor1 [1; 2; 3]%R) (-1))
  ∧ exists out, gated_tanh (tensor1 [1; 2; 3]%R) (-1) = Ok out
      ∧ shape out = [2]
      ∧ val out [0] = (tanh 1 * sigmoid_R 3)%R
      ∧ val out [1] = (tanh 2 * sigmoid_R 3)%R.
Proof.
  assert (exists out, gated_tanh (tensor1 [1; 2; 3]%R) (-1) = Ok out
      ∧ shape out = [2]
      ∧ val out [0] = (tanh 1 * sigmoid_R 3)%R
      ∧ val out [1] = (tanh 2 * sigmoid_R 3)%R) as H.
  { eexists. split; [reflexivity|]. repeat split. }
  split; [reflexivity|]. split; [|exact H].
  destruct H as (out & H & _). intros [e He]. congruence.
Qed.

(** ** Maxima and sums of lists *)

Lemma foldl_Rmax_is_max (l : list R) (x : R) : is_max_of (foldl Rmax x l) (x :: l).
Proof.
  revert x. induction l as [|y l IH]; intros x; cbn.
  - split; [left|]. intros z ->%list_elem_of_singleton. lra.
  - destruct (IH (Rmax x y)) as [Hin Hub]. split.
    + apply elem_of_cons in Hin as [Hin|Hin]; [|right; right; exact Hin].
      rewrite Hin. unfold Rmax. destruct (Rle_dec x y); [right; left | left].
    + intros z Hz. assert (Rmax x y <= foldl Rmax (Rmax x y) l)%R as Hm
        by (apply Hub; left).
      apply elem_of_cons in Hz as [->|Hz];
        [pose proof (Rmax_l x y); lra|].
      apply elem_of_cons in Hz as [->|Hz];
        [pose proof (Rmax_r x y); lra|].
      apply Hub. right. exact Hz.
Qed.

Lemma Rmax_list_is_max (l : list R) : l ≠ [] -> is_max_of (Rmax_list l) l.
Proof. destruct l as [|x l]; [congruence|]. intros _. apply foldl_Rmax_is_max. Qed.

Lemma is_max_of_unique m m' l : is_max_of m l -> is_max_of m' l -> m = m'.
Proof. intros [H1 H2] [H3 H4]. apply Rle_antisym; auto. Qed.

Lemma Rmax_list_shift (l : list R) (c : R) :
  l ≠ [] -> Rmax_list ((fun x => x + c)%R <$> l) = (Rmax_list l + c)%R.
Proof.
  intros Hne. apply (is_max_of_unique _ _ ((fun x => x + c)%R <$> l)).
  - apply Rmax_list_is_max. intros H%fmap_nil_inv. contradiction.
  - destruct (Rmax_list_is_max l Hne) as [Hin Hub]. split.
    + apply list_elem_of_fmap. eauto.
    + intros x (y & -> & Hy)%list_elem_of_fmap. specialize (Hub y Hy). lra.
Qed.

Lemma Rsum_div (l : list R) (c : R) :
  Rsum ((fun x => x / c)%R <$> l) = (Rsum l / c)%R.
Proof.
  induction l as [|x l IH]; cbn; [lra|]. unfold Rsum in IH. rewrite IH. lra.
Qed.

Lemma Rsum_nonneg_ge (l : list R) (x : R) :
  Forall (fun y => (0 <= y)%R) l -> x ∈ l -> (x <= Rsum l)%R.
Proof.
  induction 1 as [|y l Hy Hl IH]; [intros H; inversion H|].
  assert (0 <= Rsum l)%R as Hs.
  { clear IH. induction Hl; cbn; [lra|]. unfold Rsum in *. lra. }
  cbn. fold (Rsum l). intros [->|Hx]%elem_of_cons; [lra|].
  specialize (IH Hx). lra.
Qed.

Lemma softmax_normaliser_ge_1 (col : nat -> R) (grp : list nat) :
  grp ≠ [] ->
  let m := Rmax_list (col <$> grp) in
  (1 <= Rsum ((fun j => exp (col j - m)) <$> grp))%R.
Proof.
  intros Hne m.
  destruct (Rmax_list_is_max (col <$> grp)) as [Hin _].
  { intros H%fmap_nil_inv. contradiction. }
  fold m in Hin. apply list_elem_of_fmap in Hin as (j & Hm & Hj).
  apply Rsum_nonneg_ge.
  - apply Forall_fmap, Forall_forall. intros x _. cbn. left. apply exp_pos.
  - apply list_elem_of_fmap. exists j. split; [|exact Hj].
    rewrite <- Hm, Rminus_diag. symmetry. apply exp_0.
Qed.

Lemma two_member_weight (e0 e1 eps x : R) :
  (0 < e0)%R -> (0 < e1)%R -> (0 <= eps)%R ->
  x = (e0 / (e0 + (e1 + 0) + eps))%R -> (0 < x < 1)%R.
Proof.
  intros H0 H1 He ->.
  assert (0 < e0 + (e1 + 0) + eps)%R as HD by lra.
  split.
  - apply Rdiv_lt_0_compat; assumption.
  - apply (Rmult_lt_reg_r (e0 + (e1 + 0) + eps)); [exact HD|].
    unfold Rdiv. rewrite Rmult_assoc, Rinv_l by lra. lra.
Qed.

Lemma rescaled_weight_far (e : R) :
  (0 < e < 1 / 4)%R -> ¬ near_one e (2 / (1 + e) + 0).
Proof.
  intros He. unfold near_one.
  replace (2 / (1 + e) + 0 - 1)%R with ((1 - e) * / (1 + e))%R by (field; lra).
  assert (0 < / (1 + e))%R as Hi by (apply Rinv_0_lt_compat; lra).
  assert ((1 + e) * / (1 + e) = 1)%R as Hinv by (apply Rinv_r; lra).
  rewrite Rabs_pos_eq by nra. nra.
Qed.

Lemma foldl_Zmax_ge (l : list Z) (x : Z) :
  (x <= foldl Z.max x l)%Z ∧ Forall (fun y => (y <= foldl Z.max x l)%Z) l.
Proof.
  revert x. induction l as [|y l IH]; intros x; cbn; [split; [lia | constructor]|].
  destruct (IH (Z.max x y)) as [H1 H2]. split; [lia|].
  constructor; [lia | exact H2].
Qed.

Lemma maybe_num_nodes_inferred (i : Z) (l : list Z) :
  exists mx, maybe_num_nodes (i :: l) None = (mx + 1)%Z
    ∧ mx ∈ i :: l ∧ Forall (fun g => (g <= mx)%Z) (i :: l).
Proof.
  exists (foldl Z.max i l). split; [reflexivity|].
  destruct (foldl_Zmax_ge l i) as [H1 H2]. split; [|constructor; assumption].
  clear H1 H2. revert i. induction l as [|y l IH]; intros i; cbn; [left|].
  pose proof (IH (Z.max i y)) as Hin. apply elem_of_cons in Hin as [Hin|Hin].
  - rewrite Hin. destruct (Z.max_spec i y) as [[_ ->]|[_ ->]];
      [right; left | left].
  - right. right. exact Hin.
Qed.

Lemma maybe_num_nodes_bounds index num_nodes :
  Forall (fun g => (0 <= g)%Z) index ->
  (forall n, num_nodes = Some n -> (0 <= n)%Z ∧ Forall (fun g => (g < n)%Z) index) ->
  let N := maybe_num_nodes index num_nodes in
  (0 <= N)%Z ∧ Forall (fun g => (0 <= g < N)%Z) index.
Proof.
  intros Hpos Hn. unfold maybe_num_nodes.
  destruct num_nodes as [n|].
  - destruct (Hn n eq_refl) as [H0 Hlt]. split; [exact H0|].
    apply Forall_forall. intros g Hg.
    rewrite Forall_forall in Hpos, Hlt. split; auto.
  - destruct index as [|i l]; [split; [lia | constructor]|].
    destruct (foldl_Zmax_ge l i) as [H1 H2].
    apply Forall_cons in Hpos as [Hi Hl]. split; [lia|].
    constructor; [lia|]. apply Forall_forall. intros g Hg.
    rewrite Forall_forall in Hl, H2. specialize (Hl g Hg). specialize (H2 g Hg).
    cbv beta in *. lia.
Qed.

(** ** The steps of the segment softmax *)

Lemma ones_expand (sh : list nat) :
  Forall2 (fun s n => s = n ∨ s = 1) (replicate (length sh) 1) sh.
Proof. induction sh; cbn; constructor; auto. Qed.

Lemma unit_shape_expands (sh : list nat) d :
  d < length sh ->
  Forall2 (fun s n => s = n ∨ s = 1)
    ((replicate d 1 ++ [nth d sh 0]) ++ replicate (length sh - (d + 1)) 1) sh.
Proof.
  revert d. induction sh as [|x sh IH]; intros d Hd; cbn in Hd; [lia|].
  destruct d as [|d]; cbn.
  - constructor; [auto|]. rewrite Nat.sub_0_r. apply ones_expand.
  - constructor; [auto|]. apply IH. lia.
Qed.

Lemma broadcast_index src index dim d :
  0 < ndim src -> wrap_dim (ndim src) dim = Ok d ->
  length index = size src d ->
  exists ei, broadcast index src dim = Ok ei
    ∧ lshape ei = shape src
    ∧ forall idx, in_bounds (shape src) idx ->
        lval ei idx = nth (nth d idx 0) index 0%Z.
Proof.
  intros Hn Hw Hl. pose proof (wrap_dim_lt _ _ _ Hw Hn) as Hd.
  unfold broadcast.
  assert (Z.to_nat (if decide (dim < 0)%Z then (Z.of_nat (ndim src) + dim)%Z else dim) = d)
    as ->.
  { unfold wrap_dim in Hw. destruct (decide _) as [H|_]; [|discriminate].
    injection Hw as <-. repeat destruct (decide _); lia. }
  set (shx := (replicate d 1 ++ [length index])
                ++ replicate (ndim src - length (replicate d 1 ++ [length index])) 1).
  assert (length shx = ndim src) as Hlx.
  { unfold shx. rewrite !length_app, !length_replicate. cbn. lia. }
  unfold expand. cbn [lshape lval]. destruct (decide _) as [_|Hno].
  - eexists. split; [reflexivity|]. split; [reflexivity|]. cbn [lval].
    intros idx Hidx. f_equal.
    pose proof (in_bounds_length _ _ Hidx) as Hli.
    pose proof (in_bounds_nth _ _ d Hidx Hd) as Hlt.
    unfold bcast_index. rewrite Hlx, Hli. unfold ndim. rewrite Nat.sub_diag, drop_0.
    rewrite !nth_lookup, lookup_zip_with.
    assert (shx !! d = Some (length index)) as ->.
    { unfold shx. rewrite <- app_assoc, lookup_app_r by (rewrite length_replicate; lia).
      rewrite length_replicate, Nat.sub_diag. reflexivity. }
    destruct (lookup_lt_is_Some_2 idx d) as [i Hi]; [unfold ndim in *; lia|].
    rewrite Hi. cbn. rewrite nth_lookup, Hi in Hlt. cbn in Hlt.
    unfold size in Hl. destruct (decide _); [lia | reflexivity].
  - exfalso. apply Hno. split; [unfold ndim in *; lia|].
    rewrite <- Hlx at 1. unfold pad_shape. rewrite Nat.sub_diag. cbn [replicate app].
    unfold shx, ndim. rewrite length_app, length_replicate. cbn [length].
    rewrite Hl. apply unit_shape_expands. exact Hd.
Qed.

Lemma scatter_gather t ei index dim d N r :
  0 < ndim t -> wrap_dim (ndim t) dim = Ok d ->
  lshape ei = shape t -> length index = size t d ->
  (forall idx, in_bounds (shape t) idx -> lval ei idx = nth (nth d idx 0) index 0%Z) ->
  (0 <= N)%Z -> Forall (fun g => (0 <= g < N)%Z) index ->
  exists r', (scatter t ei dim N r ≫= fun s => index_select s dim index) = Ok r'
    ∧ shape r' = shape t
    ∧ forall idx, in_bounds (shape t) idx ->
        val r' idx = reduce_list r
          (column t d idx <$> group_members index (nth (nth d idx 0) index 0%Z)).
Proof.
  intros Hn Hw Hsh Hl Hei HN Hix. pose proof (wrap_dim_lt _ _ _ Hw Hn) as Hd.
  unfold ndim in Hd. unfold scatter. rewrite Hw. cbn [mbind result_bind].
  destruct (decide (lshape ei ≠ shape t)); [contradiction|].
  destruct (decide (N < 0)%Z); [lia|].
  destruct (decide _) as [_|Hno].
  2:{ exfalso. apply Hno. apply Forall_forall. intros idx Hidx.
      apply all_indices_in_bounds in Hidx. rewrite Hei by exact Hidx.
      apply (Forall_nth_Z _ _ _ Hix). rewrite Hl.
      apply in_bounds_nth; assumption. }
  cbn [mbind result_bind]. unfold index_select, ndim. cbn [shape val].
  rewrite length_insert. fold (ndim t). rewrite Hw. cbn [mbind result_bind].
  destruct (decide _) as [_|Hno].
  2:{ exfalso. apply Hno. eapply Forall_impl; [exact Hix|]. intros g Hg.
      cbv beta in Hg. unfold size. cbn [shape].
      rewrite nth_insert_eq by exact Hd. lia. }
  eexists. split; [reflexivity|]. cbn [shape val]. split.
  { rewrite list_insert_insert_eq, Hl. apply insert_nth_id. }
  intros idx Hidx. f_equal.
  pose proof (in_bounds_length _ _ Hidx) as Hli.
  assert (nth d idx 0 < length index) as Hlt.
  { rewrite Hl. apply in_bounds_nth; assumption. }
  pose proof (Forall_nth_Z _ _ _ Hix Hlt) as Hg. cbn in Hg.
  rewrite alter_as_insert. unfold members.
  rewrite nth_insert_eq by lia. rewrite Z2Nat.id by lia.
  unfold group_members. rewrite <- Hl.
  erewrite (filter_ext_elem _ (fun j => nth j index 0%Z = nth (nth d idx 0) index 0%Z)).
  - apply list_fmap_ext. intros i j _. unfold column.
    now rewrite list_insert_insert_eq.
  - intros j Hj%elem_of_seq. rewrite list_insert_insert_eq, Hei.
    + rewrite nth_insert_eq by lia. reflexivity.
    + apply in_bounds_insert_l; [assumption|]. unfold size in Hl. lia.
Qed.

Lemma group_count_ok src index num_nodes dim d :
  group_index_ok src index num_nodes dim d ->
  let N := maybe_num_nodes index num_nodes in
  (0 <= N)%Z ∧ Forall (fun g => (0 <= g < N)%Z) index.
Proof.
  intros (_ & _ & _ & Hpos & Hn). now apply maybe_num_nodes_bounds.
Qed.

Lemma group_members_lt index g j : j ∈ group_members index g -> j < length index.
Proof. intros [_ H%elem_of_seq]%list_elem_of_filter. lia. Qed.

Lemma group_members_group index g j : j ∈ group_members index g -> nth j index 0%Z = g.
Proof. now intros [H _]%list_elem_of_filter. Qed.

Lemma group_members_nonempty index i :
  i < length index -> i ∈ group_members index (nth i index 0%Z).
Proof.
  intros H. apply list_elem_of_filter. split; [reflexivity|].
  apply elem_of_seq. lia.
Qed.

Lemma column_insert t d idx j j' : column t d (<[d:=j]> idx) j' = column t d idx j'.
Proof. unfold column. now rewrite list_insert_insert_eq. Qed.

Lemma example_group_index_ok :
  group_index_ok example_src example_index None (-2) 0.
Proof.
  split; [cbn; lia|]. split; [reflexivity|]. split; [reflexivity|].
  split; [repeat constructor; lia|]. intros n [=].
Defined.

Section softmax_value.
Variable epsilon : R.

Lemma sparse_softmax_value src index num_nodes dim d :
  group_index_ok src index num_nodes dim d ->
  exists out, sparse_softmax epsilon src index num_nodes dim = Ok out
    ∧ shape out = shape src
    ∧ forall idx, in_bounds (shape src) idx ->
        let grp := group_members index (nth (nth d idx 0) index 0%Z) in
        let m := Rmax_list (column src d idx <$> grp) in
        val out idx
        = (exp (val src idx - m)
           / (Rsum ((fun j => exp (column src d idx j - m)) <$> grp) + epsilon))%R.
Proof.
  intros Hok. pose proof (group_count_ok _ _ _ _ _ Hok) as [HN Hix].
  destruct Hok as (Hn & Hw & Hl & _ & _).
  pose proof (wrap_dim_lt _ _ _ Hw Hn) as Hd. unfold ndim in Hd.
  unfold sparse_softmax.
  destruct (broadcast_index _ _ _ _ Hn Hw Hl) as (ei & -> & Hes & Hev).
  cbn [mbind result_bind]. rewrite <- bind_assoc.
  destruct (scatter_gather src ei index dim d _ ReduceMax Hn Hw Hes Hl Hev HN Hix)
    as (smax & -> & Hms & Hmv).
  cbn [mbind result_bind]. unfold sub.
  destruct (pointwise2_same Rminus src smax Hms) as (diff & -> & Hds & Hdv).
  cbn [fmap result_fmap mbind result_bind]. rewrite <- bind_assoc.
  assert (shape (texp diff) = shape src) as Hos by exact Hds.
  destruct (scatter_gather (texp diff) ei index dim d
              (maybe_num_nodes index num_nodes) ReduceSum)
    as (ssum & -> & Hss & Hsv); try assumption.
  { unfold ndim. now rewrite Hos. }
  { unfold ndim. now rewrite Hos. }
  { now rewrite Hos. }
  { unfold size. now rewrite Hos. }
  { now rewrite Hos. }
  cbn [mbind result_bind]. unfold div.
  destruct (pointwise2_same Rdiv (texp diff) (add_scalar ssum epsilon))
    as (out & -> & Hrs & Hrv); [cbn; congruence|].
  exists out. split; [reflexivity|]. split; [congruence|].
  intros idx Hidx. cbv zeta. rewrite Hrv by (now rewrite Hos).
  cbn [val texp add_scalar pointwise]. rewrite Hsv by (now rewrite Hos).
  rewrite Hdv, Hmv by assumption. cbn [reduce_list]. f_equal. f_equal.
  f_equal. apply list_fmap_ext. intros i j Hj.
  apply list_elem_of_lookup_2 in Hj.
  pose proof (group_members_lt _ _ _ Hj) as Hjl.
  pose proof (group_members_group _ _ _ Hj) as Hjg.
  assert (in_bounds (shape src) (<[d:=j]> idx)) as Hb.
  { apply in_bounds_insert_l; [assumption|]. unfold size in Hl. lia. }
  pose proof (in_bounds_length _ _ Hidx) as Hli.
  unfold column at 1. cbn [val texp pointwise]. rewrite Hdv, Hmv by assumption.
  rewrite nth_insert_eq by lia. rewrite Hjg. unfold column. f_equal. f_equal.
  cbn [reduce_list]. f_equal. apply list_fmap_ext. intros i' j' _.
  now rewrite list_insert_insert_eq.
Qed.

End softmax_value.

Section softmax_facts.
Variable epsilon : R.

(** Claim C6.  For a source tensor and a group index with
    non-negative entries that fits it (group count given, or inferred),
    [sparse_softmax] returns a tensor of the shape of the source whose
    entry at every position is
    [exp (src_i - max_g) / (sum over j in g of exp (src_j - max_g) + epsilon)],
    where [g] is the group of the position, the sum runs over the members
    of [g] in the same column along [dim], and [max_g] is the greatest
    source entry among them. *)
Theorem sparse_softmax_per_group src index num_nodes dim d :
  group_index_ok src index num_nodes dim d ->
  exists out, sparse_softmax epsilon src index num_nodes dim = Ok out
    ∧ shape out = shape src
    ∧ forall idx, in_bounds (shape src) idx ->
        let grp := group_members index (group_at index d idx) in
        exists max_g, is_max_of max_g (column src d idx <$> grp)
          ∧ val out idx
            = (exp (val src idx - max_g)
               / (Rsum ((fun j => exp (column src d idx j - max_g)) <$> grp)
                  + epsilon))%R.
Proof.
  intros Hok.
  destruct (sparse_softmax_value epsilon _ _ _ _ _ Hok) as (out & Ho & Hs & Hv).
  exists out. split; [exact Ho|]. split; [exact Hs|].
  intros idx Hidx grp. unfold group_at in grp. eexists. split; [|apply Hv, Hidx].
  apply Rmax_list_is_max. intros Hnil%fmap_nil_inv.
  destruct Hok as (Hn & Hw & Hl & _).
  pose proof (wrap_dim_lt _ _ _ Hw Hn) as Hd.
  assert (nth d idx 0 ∈ grp) as Hin.
  { apply group_members_nonempty. rewrite Hl. apply in_bounds_nth; assumption. }
  rewrite Hnil in Hin. inversion Hin.
Qed.

(** Along one column, the members of a group share their maximum and their
    normalising sum. *)
Lemma sparse_softmax_column src index num_nodes dim d out idx g :
  group_index_ok src index num_nodes dim d ->
  sparse_softmax epsilon src index num_nodes dim = Ok out ->
  in_bounds (shape src) idx ->
  let grp := group_members index g in
  let m := Rmax_list (column src d idx <$> grp) in
  let T := Rsum ((fun j => exp (column src d idx j - m)) <$> grp) in
  forall j, j ∈ grp ->
    column out d idx j = (exp (column src d idx j - m) / (T + epsilon))%R.
Proof.
  intros Hok Ho Hidx grp m T j Hj.
  destruct (sparse_softmax_value epsilon _ _ _ _ _ Hok) as (out' & Ho' & _ & Hv).
  rewrite Ho in Ho'. injection Ho' as <-.
  destruct Hok as (Hn & Hw & Hl & _).
  pose proof (wrap_dim_lt _ _ _ Hw Hn) as Hd. unfold ndim in Hd.
  pose proof (in_bounds_length _ _ Hidx) as Hli.
  pose proof (group_members_lt _ _ _ Hj) as Hjl.
  pose proof (group_members_group _ _ _ Hj) as Hjg.
  unfold column at 1. rewrite Hv.
  2:{ apply in_bounds_insert_l; [assumption|]. unfold size in Hl. lia. }
  cbv zeta. rewrite nth_insert_eq by lia. rewrite Hjg. fold grp.
  assert (Rmax_list (column src d (<[d:=j]> idx) <$> grp) = m) as ->.
  { unfold m. f_equal. apply list_fmap_ext. intros. apply column_insert. }
  f_equal. f_equal. unfold T. f_equal. apply list_fmap_ext. intros.
  now rewrite column_insert.
Qed.

(** Over a non-empty group of a column the outputs add up to
    [T / (T + epsilon)], [T] being the normalising sum of the group, which
    is at least one. *)
Lemma sparse_softmax_group_total src index num_nodes dim d out idx g :
  group_index_ok src index num_nodes dim d ->
  sparse_softmax epsilon src index num_nodes dim = Ok out ->
  in_bounds (shape src) idx ->
  group_members index g ≠ [] ->
  let T := softmax_normaliser (column src d idx) (group_members index g) in
  (1 <= T)%R
  ∧ Rsum (column out d idx <$> group_members index g) = (T / (T + epsilon))%R.
Proof.
  intros Hok Ho Hidx Hne T. split.
  - apply softmax_normaliser_ge_1. exact Hne.
  - pose proof (sparse_softmax_column _ _ _ _ _ _ _ g Hok Ho Hidx) as Hc.
    cbv zeta in Hc. unfold T, softmax_normaliser.
    rewrite <- Rsum_div, <- list_fmap_compose. f_equal. apply list_fmap_ext.
    intros i j Hj%list_elem_of_lookup_2. cbn. now apply Hc.
Qed.

(** Claim C8.  Adding to every source entry a constant that
    depends on the group of the entry only leaves every entry of the
    output of [sparse_softmax] unchanged. *)
Theorem sparse_softmax_shift_invariant src src' index num_nodes dim d (c : Z -> R) :
  group_index_ok src index num_nodes dim d ->
  shape src' = shape src ->
  (forall idx, in_bounds (shape src) idx ->
     val src' idx = Rplus (val src idx) (c (group_at index d idx))) ->
  exists out out',
    sparse_softmax epsilon src index num_nodes dim = Ok out
    ∧ sparse_softmax epsilon src' index num_nodes dim = Ok out'
    ∧ same_values out out'.
Proof.
  unfold group_at. intros Hok Hsh Hshift.
  assert (group_index_ok src' index num_nodes dim d) as Hok'.
  { unfold group_index_ok, ndim, size in *. now rewrite Hsh. }
  destruct (sparse_softmax_value epsilon _ _ _ _ _ Hok) as (out & Ho & Hs & Hv).
  destruct (sparse_softmax_value epsilon _ _ _ _ _ Hok') as (out' & Ho' & Hs' & Hv').
  exists out, out'. split; [exact Ho|]. split; [exact Ho'|].
  split; [congruence|]. rewrite Hs. intros idx Hidx.
  rewrite Hv, Hv' by (rewrite ?Hsh; assumption). cbv zeta.
  destruct Hok as (Hn & Hw & Hl & _).
  pose proof (wrap_dim_lt _ _ _ Hw Hn) as Hd. unfold ndim in Hd.
  pose proof (in_bounds_length _ _ Hidx) as Hli.
  assert (nth d idx 0 < length index) as Hlt.
  { rewrite Hl. apply in_bounds_nth; assumption. }
  set (g := nth (nth d idx 0) index 0%Z).
  set (grp := group_members index g).
  assert (forall j, j ∈ grp ->
            column src' d idx j = (column src d idx j + c g)%R) as Hcol.
  { intros j Hj. unfold column. rewrite Hshift.
    - rewrite nth_insert_eq by lia.
      now rewrite (group_members_group _ _ _ Hj).
    - apply in_bounds_insert_l; [assumption|].
      apply group_members_lt in Hj. unfold size in Hl. lia. }
  assert (column src' d idx <$> grp
          = (fun x => x + c g)%R <$> (column src d idx <$> grp)) as Hmap.
  { rewrite <- list_fmap_compose. apply list_fmap_ext.
    intros i j Hj%list_elem_of_lookup_2. cbn. now apply Hcol. }
  rewrite Hmap, Rmax_list_shift.
  2:{ intros H%fmap_nil_inv.
      pose proof (group_members_nonempty index _ Hlt) as Hin.
      fold g in Hin. fold grp in Hin. rewrite H in Hin. inversion Hin. }
  rewrite Hshift by assumption. fold g.
  set (m := Rmax_list (column src d idx <$> grp)).
  f_equal; [f_equal; lra|]. f_equal. f_equal. apply list_fmap_ext.
  intros i j Hj%list_elem_of_lookup_2. rewrite Hcol by assumption. f_equal. lra.
Qed.

End softmax_facts.

Lemma sparse_softmax_per_group_witness :
  exists out max_g,
    sparse_softmax epsilon_default example_src example_index None (-2) = Ok out
    ∧ shape out = [3; 1]
    ∧ is_max_of max_g [1; 3]%R
    ∧ val out [2; 0]
      = (exp (3 - max_g)
         / (exp (1 - max_g) + (exp (3 - max_g) + 0) + epsilon_default))%R.
Proof.
  destruct (sparse_softmax_per_group epsilon_default example_src example_index
              None (-2) 0 example_group_index_ok) as (out & Ho & Hs & Hv).
  destruct (Hv [2; 0]) as (max_g & Hm & Hval); [repeat constructor; lia|].
  exists out, max_g. split; [exact Ho|]. split; [exact Hs|].
  split; [exact Hm | exact Hval].
Defined.

Lemma sparse_softmax_shift_invariant_witness :
  exists out out',
    sparse_softmax epsilon_default example_src example_index None (-2) = Ok out
    ∧ sparse_softmax epsilon_default example_shifted example_index None (-2) = Ok out'
    ∧ same_values out out'.
Proof.
  apply (sparse_softmax_shift_invariant epsilon_default example_src example_shifted
           example_index None (-2) 0 example_shift example_group_index_ok).
  - reflexivity.
  - intros idx _. reflexivity.
Defined.

(** ** Running computations on the store *)

Lemma run_lift_Ok {A B} (a : A) (f : A -> Py B) h : (lift (Ok a) ≫= f) h = f a h.
Proof. reflexivity. Qed.

Lemma run_load_float {B} l t (f : Tensor -> Py B) (h : gmap nat object) :
  h !! l = Some (FloatObj t) -> (load_float l ≫= f) h = f t h.
Proof. intros H. unfold mbind, Py_bind, load_float. now rewrite H. Qed.

Lemma run_load_long {B} l ix (f : list Z -> Py B) (h : gmap nat object) :
  h !! l = Some (LongObj ix) -> (load_long l ≫= f) h = f ix h.
Proof. intros H. unfold mbind, Py_bind, load_long. now rewrite H. Qed.

Lemma writes_only_bind v {A B} (m : Py A) (f : A -> Py B) :
  writes_only v m -> (forall a, writes_only v (f a)) -> writes_only v (m ≫= f).
Proof.
  intros Hm Hf h l Hl. unfold mbind, Py_bind. specialize (Hm h l Hl).
  destruct (m h) as [h1 [a|e]]; cbn in *; [|exact Hm].
  rewrite <- Hm. now apply Hf.
Qed.

Lemma writes_only_lift v {A} (r : result A) : writes_only v (lift r).
Proof. intros h l _. reflexivity. Qed.

Lemma writes_only_ret v {A} (a : A) : writes_only v (mret a : Py A).
Proof. intros h l _. reflexivity. Qed.

Lemma writes_only_load_float v l : writes_only v (load_float l).
Proof. intros h l' _. unfold load_float. destruct (h !! l) as [[]|]; reflexivity. Qed.

Lemma writes_only_load_long v l : writes_only v (load_long l).
Proof. intros h l' _. unfold load_long. destruct (h !! l) as [[]|]; reflexivity. Qed.

Lemma writes_only_store v t : writes_only v (store v t).
Proof. intros h l Hl. cbn. now rewrite lookup_insert_ne. Qed.

Lemma writes_only_imul v w : writes_only v (imul v w).
Proof.
  unfold imul. apply writes_only_bind; [apply writes_only_load_float|]. intros t.
  apply writes_only_bind; [apply writes_only_lift|]. intros r.
  destruct (decide _); [apply writes_only_store | apply writes_only_lift].
Qed.

(** ** The steps of the attention kernel *)

Lemma tsum_last3 t S H E :
  shape t = [S; H; E] ->
  exists s, tsum t (-1) = Ok s ∧ shape s = [S; H].
Proof.
  intros Hs. unfold tsum, ndim. rewrite Hs. cbn.
  eexists. split; reflexivity.
Qed.

Lemma view_heads alpha S H :
  shape alpha = [S; H] -> 0 < H ->
  exists w, view alpha [(-1)%Z; Z.of_nat H; 1%Z] = Ok w
    ∧ shape w = [S; H; 1]
    ∧ forall s hd, hd < H -> val w [s; hd; 0] = val alpha [s; hd].
Proof.
  intros Hs HH. unfold view, infer_size. rewrite Hs.
  destruct (decide (Exists _ _)) as [Hex|_].
  { exfalso. repeat (apply Exists_cons in Hex as [Hex|Hex]; [lia|]).
    inversion Hex. }
  rewrite !filter_cons. destruct (decide (-1 ≠ -1)%Z); [congruence|].
  destruct (decide (Z.of_nat H ≠ -1)%Z); [|lia].
  destruct (decide (1 ≠ -1)%Z); [|lia]. rewrite filter_nil.
  cbn [length Nat.sub foldr numel].
  replace (Z.to_nat (Z.of_nat H * (1 * 1))) with H by lia.
  destruct (decide _) as [_|Hno].
  2:{ exfalso. apply Hno. split; [lia|].
      rewrite Nat.mul_1_r. apply Nat.Div0.mod_mul. }
  cbn [mbind result_bind fmap list_fmap].
  destruct (decide (-1 = -1)%Z); [|congruence].
  destruct (decide (Z.of_nat H = -1)%Z); [lia|].
  destruct (decide (1 = -1)%Z); [lia|].
  rewrite Nat.mul_1_r, Nat.div_mul by lia. rewrite Nat2Z.id.
  eexists. split; [reflexivity|]. split; [reflexivity|].
  intros s hd Hhd. cbn [val ravel unravel numel foldr].
  change (Z.to_nat 1) with 1.
  replace (s * (H * (1 * 1)) + (hd * (1 * 1) + (0 * 1 + 0))) with (H * s + hd)
    by lia.
  rewrite Nat.mul_1_r, Nat.div_1_r.
  rewrite <- (Nat.div_unique (H * s + hd) H s hd) by lia.
  rewrite <- (Nat.mod_unique (H * s + hd) H s hd) by lia.
  reflexivity.
Qed.

Lemma mul_heads vt w S H O :
  shape vt = [S; H; O] -> shape w = [S; H; 1] ->
  exists prod, mul vt w = Ok prod
    ∧ shape prod = [S; H; O]
    ∧ forall s hd o, s < S -> hd < H -> o < O ->
        val prod [s; hd; o] = Rmult (val vt [s; hd; o]) (val w [s; hd; 0]).
Proof.
  intros Hv Hw. unfold mul, pointwise2. rewrite Hv, Hw.
  rewrite broadcast_shapes_last by auto. cbn [mbind result_bind].
  eexists. split; [reflexivity|]. split; [reflexivity|].
  intros s hd o Hs Hh Ho. cbn [val]. f_equal; f_equal.
  - apply bcast_index_id. repeat constructor; assumption.
  - unfold bcast_index. cbn.
    destruct (decide (S = 1)), (decide (H = 1)); repeat f_equal; lia.
Qed.

Lemma zeros_ok (sizes : list Z) :
  Forall (fun n => (0 <= n)%Z) sizes ->
  zeros sizes = Ok (mkTensor (Z.to_nat <$> sizes) (fun _ => 0%R)).
Proof. intros H. unfold zeros. destruct (decide _); [reflexivity | contradiction]. Qed.

Lemma scatter_add_ok self index src S H O N :
  shape self = [N; H; O] -> lshape index = [S; H; O] -> shape src = [S; H; O] ->
  (forall idx, in_bounds [S; H; O] idx -> 0 <= lval index idx < Z.of_nat N)%Z ->
  returns (scatter_add_ self 0 index src).
Proof.
  intros Hself Hix Hsrc Hv. unfold scatter_add_, ndim, size.
  rewrite Hself, Hix, Hsrc. cbn [length].
  change (wrap_dim 3 0) with (Ok 0 : result nat). cbn [mbind result_bind].
  destruct (decide _) as [_|Hno].
  2:{ exfalso. apply Hno. repeat split; cbn; repeat constructor; lia. }
  destruct (decide _) as [_|Hno]; [eexists; reflexivity|].
  exfalso. apply Hno. apply Forall_forall. intros idx Hidx.
  apply (all_indices_in_bounds [S; H; O]) in Hidx. now apply Hv.
Qed.

Lemma dropout_ok a p keep :
  (0 < p <= 1)%R ->
  exists alpha, dropout a p keep = Ok alpha ∧ shape alpha = shape a
    ∧ forall idx, val alpha idx
        = if Req_dec_T p 1 then 0%R
          else if keep idx then (val a idx / (1 - p))%R else 0%R.
Proof.
  intros [H0 H1]. unfold dropout.
  destruct (Rlt_dec p 0); [lra|]. destruct (Rlt_dec 1 p); [lra|].
  eexists. split; [reflexivity|]. split; [reflexivity|]. intros idx. cbn.
  destruct (Req_dec_T p 1); [reflexivity|].
  destruct (Req_dec_T p 0); [lra | reflexivity].
Qed.

Lemma example_store_ok qt kt vt ix S H E Ek O :
  shape qt = [S; H; E] -> shape kt = [S; H; Ek] -> Ek = E ∨ Ek = 1 ->
  shape vt = [S; H; O] -> 0 < H -> length ix = S ->
  Forall (fun g => (0 <= g)%Z) ix ->
  attention_inputs_ok (example_store qt kt vt ix) 0 1 2 3 qt kt vt ix S H E Ek O None.
Proof.
  intros. unfold attention_inputs_ok, example_store.
  repeat (split; [first [assumption | reflexivity]|]). intros n [=].
Qed.

Lemma epsilon_default_nonneg : (0 <= epsilon_default)%R.
Proof. unfold epsilon_default. lra. Defined.

Section attention_facts.
Variable epsilon : R.

Lemma attention_writes_only q k v index dim_size dropout_p keep :
  writes_only v
    (sparse_multi_head_attention epsilon q k v index dim_size dropout_p keep).
Proof.
  unfold sparse_multi_head_attention.
  apply writes_only_bind; [apply writes_only_load_float|]. intros qt.
  apply writes_only_bind; [apply writes_only_lift|]. intros [[B H] E].
  apply writes_only_bind; [apply writes_only_load_long|]. intros ix.
  apply writes_only_bind; [apply writes_only_load_float|]. intros kt.
  apply writes_only_bind; [apply writes_only_lift|]. intros qk.
  apply writes_only_bind; [apply writes_only_lift|]. intros s.
  apply writes_only_bind; [apply writes_only_lift|]. intros a0.
  apply writes_only_bind.
  { destruct (Rlt_dec 0 dropout_p); [apply writes_only_lift | apply writes_only_ret]. }
  intros alpha.
  apply writes_only_bind; [apply writes_only_lift|]. intros w.
  apply writes_only_bind; [apply writes_only_imul|]. intros [].
  apply writes_only_bind; [apply writes_only_load_float|]. intros vt.
  apply writes_only_bind; [apply writes_only_lift|]. intros O.
  apply writes_only_bind; [apply writes_only_lift|]. intros out.
  apply writes_only_bind; [apply writes_only_lift|]. intros add_index.
  apply writes_only_bind; [apply writes_only_lift|]. intros out'.
  apply writes_only_ret.
Qed.

(** A call on inputs of the documented shapes runs to its end; the lemma
    names every intermediate value. *)
Lemma attention_run h q k v index qt kt vt ix S H E Ek O dim_size dropout_p keep :
  attention_inputs_ok h q k v index qt kt vt ix S H E Ek O dim_size ->
  (dropout_p <= 1)%R ->
  let N := maybe_num_nodes ix dim_size in
  exists scores a0 alpha w prod out,
    shape scores = [S; H]
    ∧ group_index_ok scores ix (Some N) 0 0
    ∧ sparse_softmax epsilon scores ix (Some N) 0 = Ok a0
    ∧ (if Rlt_dec 0 dropout_p then dropout a0 dropout_p keep = Ok alpha
       else alpha = a0)
    ∧ shape alpha = [S; H]
    ∧ view alpha [(-1)%Z; Z.of_nat H; 1%Z] = Ok w
    ∧ mul vt w = Ok prod
    ∧ shape prod = [S; H; O]
    ∧ (forall s hd o, s < S -> hd < H -> o < O ->
         val prod [s; hd; o] = Rmult (val vt [s; hd; o]) (val alpha [s; hd]))
    ∧ sparse_multi_head_attention epsilon q k v index dim_size dropout_p keep h
      = (<[v:=FloatObj prod]> h, Ok (out, alpha)).
Proof.
  intros (Hq & Hk & Hv & Hi & Hqs & Hks & HE & Hvs & HH & Hl & Hpos & Hn) Hp N.
  destruct (maybe_num_nodes_bounds ix dim_size Hpos Hn) as [HN Hix]. fold N in HN, Hix.
  (* scores *)
  assert (exists qk, mul qt kt = Ok qk ∧ shape qk = [S; H; E]) as (qk & Hqk & Hqks).
  { unfold mul, pointwise2. rewrite Hqs, Hks, broadcast_shapes_last by exact HE.
    eexists. split; reflexivity. }
  destruct (tsum_last3 qk S H E Hqks) as (s & Hsum & Hss).
  set (scores := div_scalar s (sqrt (INR E))).
  assert (shape scores = [S; H]) as Hscs by exact Hss.
  assert (group_index_ok scores ix (Some N) 0 0) as Hok.
  { unfold group_index_ok, ndim, size. rewrite Hscs. cbn [length nth].
    split; [lia|]. split; [reflexivity|]. split; [exact Hl|].
    split; [exact Hpos|]. intros ? [= <-]. split; [exact HN|].
    eapply Forall_impl; [exact Hix|]. cbn. intros; lia. }
  destruct (sparse_softmax_value epsilon _ _ _ _ _ Hok) as (a0 & Ha0 & Ha0s & _).
  rewrite Hscs in Ha0s.
  (* dropout *)
  assert (exists alpha,
            (if Rlt_dec 0 dropout_p then dropout a0 dropout_p keep = Ok alpha
             else alpha = a0)
            ∧ shape alpha = [S; H]
            ∧ (if Rlt_dec 0 dropout_p
               then lift (dropout a0 dropout_p keep) else mret a0)
              = (if Rlt_dec 0 dropout_p then lift (Ok alpha) else mret alpha))
    as (alpha & Hal & Hals & Hstep).
  { destruct (Rlt_dec 0 dropout_p) as [H0|H0].
    - destruct (dropout_ok a0 dropout_p keep) as (alpha & Hd & Hds & _); [lra|].
      exists alpha. rewrite Hd. repeat split. congruence.
    - exists a0. repeat split. exact Ha0s. }
  destruct (view_heads alpha S H Hals HH) as (w & Hw & Hws & Hwv).
  destruct (mul_heads vt w S H O Hvs Hws) as (prod & Hprod & Hps & Hpv).
  (* the accumulation into the output buffer *)
  assert (0 < ndim prod) as Hpn by (unfold ndim; rewrite Hps; cbn; lia).
  destruct (broadcast_index prod ix 0 0 Hpn) as (ai & Hai & Hais & Haiv).
  { unfold ndim. now rewrite Hps. }
  { unfold size. now rewrite Hps. }
  rewrite Hps in Hais, Haiv.
  destruct (scatter_add_ok (mkTensor [Z.to_nat N; H; O] (fun _ => 0%R)) ai prod
              S H O (Z.to_nat N)) as (out & Hout); try assumption; try reflexivity.
  { intros idx Hidx. rewrite Haiv by exact Hidx. rewrite Z2Nat.id by lia.
    apply (Forall_nth_Z _ _ _ Hix). rewrite Hl.
    apply (in_bounds_nth [S; H; O] idx 0 Hidx). cbn. lia. }
  exists scores, a0, alpha, w, prod, out.
  repeat (split; [assumption|]). split.
  { intros s0 hd o Hs0 Hhd Ho. rewrite Hpv, Hwv by assumption. reflexivity. }
  (* running the body *)
  unfold sparse_multi_head_attention.
  rewrite (run_load_float _ _ _ _ Hq), Hqs. cbn [unpack3].
  rewrite run_lift_Ok. cbv beta iota.
  rewrite (run_load_long _ _ _ _ Hi), (run_load_float _ _ _ _ Hk).
  rewrite Hqk, run_lift_Ok, Hsum, run_lift_Ok. fold N. fold scores.
  rewrite Ha0, run_lift_Ok.
  assert (forall B (f : Tensor -> Py B) h0,
            ((if Rlt_dec 0 dropout_p
              then lift (dropout a0 dropout_p keep) else mret a0) ≫= f) h0
            = f alpha h0) as Hdrop.
  { intros B f h0. rewrite Hstep. destruct (Rlt_dec 0 dropout_p); reflexivity. }
  rewrite Hdrop, Hw, run_lift_Ok.
  assert (forall B (f : unit -> Py B),
            (imul v w ≫= f) h = f tt (<[v:=FloatObj prod]> h)) as Himul.
  { intros B f. unfold imul. unfold mbind at 1. unfold Py_bind.
    rewrite (run_load_float _ _ _ _ Hv), Hprod, run_lift_Ok.
    destruct (decide _) as [_|Hno]; [reflexivity | congruence]. }
  rewrite Himul.
  rewrite (run_load_float v prod) by apply lookup_insert_eq.
  assert (size_of prod 2 = Ok O) as ->.
  { unfold size_of, ndim, size. rewrite Hps. reflexivity. }
  rewrite run_lift_Ok, zeros_ok.
  2:{ repeat constructor; lia. }
  rewrite run_lift_Ok, Hai, run_lift_Ok. cbn [fmap list_fmap].
  rewrite !Nat2Z.id, Hout, run_lift_Ok. reflexivity.
Qed.

End attention_facts.

Section attention_claims.
Variable epsilon : R.

(** Claim C5, as the code has it.  The function checks no
    shape itself; when the last dimensions of [q] and [k] differ and neither
    of them is one, the element-wise product [q * k] raises and the store
    is left as it was. *)
Theorem attention_rejects_incompatible_embedding
    (h : gmap nat object) q k v index qt kt ix S H E front Ek dim_size dropout_p keep :
  h !! q = Some (FloatObj qt) -> h !! k = Some (FloatObj kt) ->
  h !! index = Some (LongObj ix) ->
  shape qt = [S; H; E] -> shape kt = front ++ [Ek] ->
  E ≠ Ek -> E ≠ 1 -> Ek ≠ 1 ->
  sparse_multi_head_attention epsilon q k v index dim_size dropout_p keep h
  = (h, Raise RuntimeError).
Proof.
  intros Hq Hk Hi Hqs Hks HE H1 H2. unfold sparse_multi_head_attention.
  rewrite (run_load_float _ _ _ _ Hq), Hqs. cbn [unpack3].
  rewrite run_lift_Ok. cbv beta iota.
  rewrite (run_load_long _ _ _ _ Hi), (run_load_float _ _ _ _ Hk).
  assert (mul qt kt = Raise RuntimeError) as ->; [|reflexivity].
  unfold mul, pointwise2. rewrite Hqs, Hks.
  change [S; H; E] with ([S; H] ++ [E]).
  now rewrite broadcast_shapes_last_mismatch.
Qed.

(** Claim C2, as the code has it.  A call writes to no array
    other than the one [v] refers to: [q], [k] and [index] hold the same
    values afterwards unless they are that very array.  The array of [v]
    is overwritten by [v *= alpha.view(-1, H, 1)]: after a call on inputs
    of the documented shapes it holds the product of its former entries
    with the returned attention weights. *)
Theorem attention_writes_v_only (h : gmap nat object) q k v index dim_size dropout_p keep :
  let run := sparse_multi_head_attention epsilon q k v index dim_size dropout_p keep h in
  (forall l, l ≠ v -> run.1 !! l = h !! l)
  ∧ (forall qt kt vt ix S H E Ek O,
       attention_inputs_ok h q k v index qt kt vt ix S H E Ek O dim_size ->
       (dropout_p <= 1)%R ->
       exists out alpha prod,
         run.2 = Ok (out, alpha)
         ∧ run.1 !! v = Some (FloatObj prod)
         ∧ shape prod = shape vt
         ∧ forall s hd o, s < S -> hd < H -> o < O ->
             val prod [s; hd; o] = Rmult (val vt [s; hd; o]) (val alpha [s; hd])).
Proof.
  intros run. split.
  - intros l Hl. now apply attention_writes_only.
  - intros qt kt vt ix S H E Ek O Hok Hp.
    destruct (attention_run epsilon _ _ _ _ _ _ _ _ _ _ _ _ _ _ _ _ keep Hok Hp)
      as (scores & a0 & alpha & w & prod & out & _ & _ & _ & _ & _ & _ & _
          & Hps & Hpv & Hrun).
    exists out, alpha, prod. unfold run. rewrite Hrun. cbn [fst snd].
    split; [reflexivity|]. split; [apply lookup_insert_eq|].
    split; [|exact Hpv]. destruct Hok as (_ & _ & _ & _ & _ & _ & _ & Hvs & _).
    congruence.
Qed.

End attention_claims.

Lemma attention_rejects_incompatible_embedding_witness :
  let q := tensor3 [[[1; 2]]]%R in
  let k := tensor3 [[[1; 2; 3]]]%R in
  let h := example_store q k q [0]%Z in
  sparse_multi_head_attention epsilon_default 0 1 2 3 None 0 (fun _ => true) h
  = (h, Raise RuntimeError).
Proof.
  intros q k h.
  apply (attention_rejects_incompatible_embedding epsilon_default h 0 1 2 3 q k
           [0]%Z 1 1 2 [1; 1] 3); try reflexivity; lia.
Defined.

(** Claim C5 fails when one of the last dimensions is one:
    with [q] of shape (1, 1, 2) and [k] of shape (1, 1, 1) the product is
    broadcast and the call returns attention weights. *)
Lemma attention_broadcasts_unit_embedding :
  let q := tensor3 [[[1; 2]]]%R in
  let k := tensor3 [[[3]]]%R in
  let v := tensor3 [[[1]]]%R in
  let h := example_store q k v [0]%Z in
  let run := sparse_multi_head_attention epsilon_default 0 1 2 3 None 0
               (fun _ => true) h in
  shape q = [1; 1; 2] ∧ shape k = [1; 1; 1]
  ∧ (exists out alpha, run.2 = Ok (out, alpha) ∧ shape alpha = [1; 1])
  ∧ ¬ raises run.2.
Proof.
  intros q k v h run.
  assert (attention_inputs_ok h 0 1 2 3 q k v [0]%Z 1 1 2 1 1 None) as Hok.
  { apply example_store_ok; auto. repeat constructor; lia. }
  destruct (attention_run epsilon_default _ _ _ _ _ _ _ _ _ _ _ _ _ _ _ 0%R
              (fun _ => true) Hok)
    as (scores & a0 & alpha & w & prod & out & _ & _ & _ & _ & Hals
        & _ & _ & _ & _ & Hrun); [lra|].
  unfold run. rewrite Hrun. cbn [snd].
  split; [reflexivity|]. split; [reflexivity|]. split; [eauto|].
  intros [e He]. discriminate.
Qed.

Lemma attention_writes_v_only_witness :
  let q := tensor3 [[[1]]; [[1]]]%R in
  let h := example_store q q q [0; 0]%Z in
  let run := sparse_multi_head_attention epsilon_default 0 1 2 3 None 0
               (fun _ => true) h in
  run.1 !! 0 = Some (FloatObj q) ∧ run.1 !! 3 = Some (LongObj [0; 0]%Z)
  ∧ exists out alpha prod,
      run.2 = Ok (out, alpha) ∧ run.1 !! 2 = Some (FloatObj prod)
      ∧ val prod [1; 0; 0] = Rmult (val q [1; 0; 0]) (val alpha [1; 0]).
Proof.
  intros q h run.
  destruct (attention_writes_v_only epsilon_default h 0 1 2 3 None 0%R (fun _ => true))
    as [Hframe Hv].
  split; [rewrite Hframe by lia; reflexivity|].
  split; [rewrite Hframe by lia; reflexivity|].
  destruct (Hv q q q [0; 0]%Z 2 1 1 1 1) as (out & alpha & prod & Hr & Hl & _ & Hp).
  - apply example_store_ok; auto. repeat constructor; lia.
  - lra.
  - exists out, alpha, prod. split; [exact Hr|]. split; [exact Hl|].
    apply Hp; lia.
Defined.

(** Claim C2 fails for [v]: after a call on two elements of one
    group, the array passed as [v] no longer holds the value it held. *)
Lemma attention_overwrites_v :
  let q := tensor3 [[[1]]; [[1]]]%R in
  let v := tensor3 [[[1]]; [[1]]]%R in
  let h := example_store q q v [0; 0]%Z in
  let run := sparse_multi_head_attention epsilon_default 0 1 2 3 None 0
               (fun _ => true) h in
  h !! 2 = Some (FloatObj v)
  ∧ exists prod, run.1 !! 2 = Some (FloatObj prod)
      ∧ val prod [0; 0; 0] ≠ val v [0; 0; 0].
Proof.
  intros q v h run. split; [reflexivity|].
  assert (attention_inputs_ok h 0 1 2 3 q q v [0; 0]%Z 2 1 1 1 1 None) as Hok.
  { apply example_store_ok; auto. repeat constructor; lia. }
  destruct (attention_run epsilon_default _ _ _ _ _ _ _ _ _ _ _ _ _ _ _ 0%R
              (fun _ => true) Hok)
    as (scores & a0 & alpha & w & prod & out & Hss & Hgok & Ha0 & Hal & _
        & _ & _ & _ & Hpv & Hrun); [lra|].
  destruct (Rlt_dec 0 0); [lra|]. subst alpha.
  exists prod. unfold run. rewrite Hrun. cbn [fst].
  split; [apply lookup_insert_eq|].
  rewrite Hpv by lia.
  pose proof (sparse_softmax_column epsilon_default scores _ _ _ 0 a0 [0; 0] 0%Z
                Hgok Ha0) as Hcol.
  rewrite Hss in Hcol. specialize (Hcol ltac:(repeat constructor; lia) 0).
  cbv zeta in Hcol. specialize (Hcol ltac:(left)).
  apply two_member_weight in Hcol;
    [| apply exp_pos | apply exp_pos | unfold epsilon_default; lra].
  unfold column in Hcol. cbn [list_insert insert] in Hcol.
  change (val v [0; 0; 0]) with 1%R. lra.
Qed.

(** With a single element in its group, the weight after dropout is either
    dropped or rescaled. *)
Lemma single_weight_after_dropout (keep : list nat -> bool) :
  let q := tensor3 [[[1]]]%R in
  let h := example_store q q q [0]%Z in
  exists out alpha,
    (sparse_multi_head_attention epsilon_default 0 1 2 3 None (1 / 2) keep h).2
    = Ok (out, alpha)
    ∧ val alpha [0; 0]
      = if keep [0; 0] then (2 / (1 + epsilon_default))%R else 0%R.
Proof.
  intros q h.
  assert (attention_inputs_ok h 0 1 2 3 q q q [0]%Z 1 1 1 1 1 None) as Hok.
  { apply example_store_ok; auto. repeat constructor; lia. }
  destruct (attention_run epsilon_default _ _ _ _ _ _ _ _ _ _ _ _ _ _ _ (1 / 2)%R
              keep Hok)
    as (scores & a0 & alpha & w & prod & out & Hss & Hgok & Ha0 & Hal & _
        & _ & _ & _ & _ & Hrun); [lra|].
  destruct (Rlt_dec 0 (1 / 2)); [|lra].
  destruct (dropout_ok a0 (1 / 2) keep) as (alpha' & Hd & _ & Hdv); [lra|].
  rewrite Hal in Hd. injection Hd as <-.
  exists out, alpha. rewrite Hrun. split; [reflexivity|].
  rewrite Hdv. destruct (Req_dec_T (1 / 2) 1); [lra|].
  destruct (keep [0; 0]); [|reflexivity].
  pose proof (sparse_softmax_column epsilon_default scores _ _ _ 0 a0 [0; 0] 0%Z
                Hgok Ha0) as Hcol.
  rewrite Hss in Hcol. specialize (Hcol ltac:(repeat constructor; lia) 0).
  cbv zeta in Hcol. change (group_members [0%Z] 0%Z) with [0] in Hcol.
  specialize (Hcol ltac:(left)).
  cbn [fmap list_fmap Rmax_list foldl Rsum foldr] in Hcol.
  rewrite Rminus_diag, exp_0 in Hcol.
  unfold column in Hcol. cbn [list_insert insert] in Hcol. rewrite Hcol.
  unfold epsilon_default. field.
Qed.

(** ** The bidirectional model *)

Lemma stack_pair a b t :
  stack [a; b] (-1) = Ok t ->
  shape b = shape a
  ∧ shape t = shape a ++ [2]
  ∧ forall idx j, length idx = ndim a ->
      val t (idx ++ [j]) = val (nth j [a; b] a) idx.
Proof.
  unfold stack. rewrite wrap_dim_last. cbn -[nth].
  destruct (decide _) as [H|_]; [|discriminate]. intros [= <-].
  apply Forall_cons in H as [_ H]. apply Forall_cons in H as [H _].
  split; [exact H|]. cbn -[nth]. split.
  - apply insert_at_end.
  - intros idx j Hl. unfold ndim in *. rewrite <- Hl, nth_end, delete_end.
    reflexivity.
Qed.

Lemma fibre_pair t sh idx :
  shape t = sh ++ [2] -> length idx = length sh ->
  fibre t (length sh) idx = [val t (idx ++ [0]); val t (idx ++ [1])].
Proof.
  intros Hs Hl. unfold fibre, size. rewrite Hs, nth_end, <- Hl. cbn.
  rewrite !insert_at_end. reflexivity.
Qed.

Lemma argmin_pair a b :
  argmin [a; b] = (Rmin a b, if Rlt_dec b a then 1 else 0).
Proof.
  cbn. unfold Rmin. destruct (Rlt_dec b a), (Rle_dec a b); try reflexivity; lra.
Qed.

Lemma argmax_pair a b :
  argmax [a; b] = (Rmax a b, if Rlt_dec a b then 1 else 0).
Proof.
  cbn. unfold Rmax. destruct (Rlt_dec a b), (Rle_dec a b); try reflexivity;
    try lra. f_equal. lra.
Qed.

Lemma stack_pair_reduce a b t :
  stack [a; b] (-1) = Ok t ->
  ndim t ≠ 0
  ∧ wrap_dim (ndim t) (-1) = Ok (ndim a)
  ∧ delete (ndim a) (shape t) = shape a
  ∧ size t (ndim a) = 2
  ∧ forall idx, in_bounds (shape a) idx ->
      fibre t (ndim a) idx = [val a idx; val b idx].
Proof.
  intros H. apply stack_pair in H as (Hb & Ht & Hv).
  assert (ndim t = S (ndim a)) as Hn.
  { unfold ndim. rewrite Ht, length_app. cbn. lia. }
  rewrite Hn. split; [lia|]. split; [apply wrap_dim_last|].
  unfold ndim, size in *. rewrite Ht, delete_end, nth_end.
  repeat split. intros idx Hi. apply in_bounds_length in Hi.
  change (length (shape a)) with (ndim a).
  unfold ndim. rewrite (fibre_pair t (shape a)), !Hv by assumption. reflexivity.
Qed.

Lemma cat_None (a b : Tensor) (rest : list (option Tensor)) (dim : Z) :
  cat (Some a :: Some b :: None :: rest) dim = Raise TypeError.
Proof.
  unfold cat. destruct (decide _) as [_|H]; [reflexivity|].
  exfalso. apply H. do 2 apply Exists_cons_tl. apply Exists_cons_hd. reflexivity.
Qed.

Section grin_facts.
Context {GRIL Adj State : Type}.
Context (GRIL_init : nat -> config -> result GRIL).
Context (GRIL_forward :
  GRIL -> Tensor -> Adj -> option Tensor -> option Tensor -> option Tensor ->
  result (Tensor * Tensor * Tensor * State)).
Context (init_table : nat -> nat -> R) (init_weight : nat -> nat -> nat -> R)
        (init_bias : nat -> nat -> R).

#[local] Abbreviation init :=
  (init GRIL GRIL_init init_table init_weight init_bias).
#[local] Abbreviation forward := (forward GRIL Adj State GRIL_forward).

Lemma init_merge_mode cfg m : init cfg = Ok m -> model_merge_mode _ m = merge_mode cfg.
Proof.
  unfold grin_model.init. intros H.
  repeat (apply bind_returns in H; destruct H as (? & ? & H)).
  injection H as <-. reflexivity.
Qed.

Lemma init_out cfg m :
  init cfg = Ok m -> merge_mode cfg ≠ "mlp"%string ->
  out GRIL m = TorchFunction (merge_mode cfg).
Proof.
  unfold grin_model.init. intros H Hm.
  repeat (apply bind_returns in H; destruct H as (? & ? & H)).
  injection H as <-. cbn.
  destruct (decide (merge_mode cfg = "mlp"%string)); [contradiction|].
  destruct (decide _); [|discriminate]. congruence.
Qed.

Lemma unknown_mode_out cfg :
  merge_mode cfg ∉ ["mlp"; "mean"; "sum"; "min"; "max"]%string ->
  merge_mode cfg ≠ "mlp"%string
  ∧ merge_mode cfg ∉ ["mean"; "sum"; "min"; "max"]%string.
Proof.
  intros H. split; intros E; apply H.
  - rewrite E. apply list_elem_of_here.
  - apply list_elem_of_further, E.
Qed.

(** Claim C9.  Construction fails when the merge mode is none
    of the five known ones, and when an embedding size is given without a
    number of nodes.  When both cells are built, the second case fails on
    the assertion, and the first one (with no embedding asked for) with
    the value error of the merge option. *)
Theorem init_rejects_invalid_configuration cfg :
  merge_mode cfg ∉ ["mlp"; "mean"; "sum"; "min"; "max"]%string
  ∨ (is_Some (embedding_size cfg) ∧ n_nodes cfg = None) ->
  raises (init cfg)
  ∧ (returns (GRIL_init 0 cfg) -> returns (GRIL_init 1 cfg) ->
     (is_Some (embedding_size cfg) -> n_nodes cfg = None ->
      init cfg = Raise AssertionError)
     ∧ (embedding_size cfg = None ->
        merge_mode cfg ∉ ["mlp"; "mean"; "sum"; "min"; "max"]%string ->
        init cfg = Raise (merge_error (merge_mode cfg)))).
Proof.
  intros H. unfold grin_model.init. split.
  - destruct (GRIL_init 0 cfg) as [f|e]; [|eexists; reflexivity].
    destruct (GRIL_init 1 cfg) as [b|e]; [|eexists; reflexivity]. cbn.
    destruct H as [Hm | [[es Hes] Hn]].
    + apply unknown_mode_out in Hm as [Hmlp Hred].
      apply bind_raises. intros e.
      destruct (decide (merge_mode cfg = "mlp"%string)); [contradiction|].
      destruct (decide _); [contradiction|]. eexists. reflexivity.
    + rewrite Hes, Hn. eexists. reflexivity.
  - intros [f ->] [b ->]. cbn. split.
    + intros [es ->] ->. reflexivity.
    + intros -> Hm. apply unknown_mode_out in Hm as [Hmlp Hred]. cbn.
      destruct (decide (merge_mode cfg = "mlp"%string)); [contradiction|].
      destruct (decide _); [contradiction|]. reflexivity.
Qed.

(** Claim C1 at the input where the code departs from it:
    with merge mode ["mlp"] and no embedding size, [in_channels] adds [None]
    to an integer and construction raises a type error. *)
Theorem init_mlp_without_embedding cfg :
  merge_mode cfg = "mlp"%string -> embedding_size cfg = None ->
  raises (init cfg)
  ∧ (returns (GRIL_init 0 cfg) -> returns (GRIL_init 1 cfg) ->
     init cfg = Raise TypeError).
Proof.
  intros Hm He. unfold grin_model.init. rewrite He. split.
  - destruct (GRIL_init 0 cfg) as [f|e]; [|eexists; reflexivity].
    destruct (GRIL_init 1 cfg) as [b|e]; [|eexists; reflexivity]. cbn.
    destruct (decide _); [|contradiction]. eexists. reflexivity.
  - intros [f ->] [b ->]. cbn. destruct (decide _); [|contradiction]. reflexivity.
Qed.

(** Claim C10.  For a model constructed with merge mode ["mlp"],
    a forward call without mask fails: [None] is placed third in the list
    given to [torch.cat], which raises a type error. *)
Theorem forward_mlp_requires_mask cfg m x edge_index edge_weight u keep :
  init cfg = Ok m -> merge_mode cfg = "mlp"%string ->
  raises (forward m x edge_index edge_weight None u keep)
  ∧ forall fwd_repr bwd_repr rest,
      cat (Some fwd_repr :: Some bwd_repr :: None :: rest) (-1) = Raise TypeError.
Proof.
  intros Hi Hm. split; [|intros; apply cat_None].
  apply init_merge_mode in Hi. rewrite Hm in Hi.
  unfold grin_model.forward.
  apply bind_raises. intros [[[fwd_out fwd_pred] fwd_repr] st].
  apply bind_raises. intros rev_x.
  apply bind_raises. intros rev_mask.
  apply bind_raises. intros rev_u.
  apply bind_raises. intros [[[raw_out raw_pred] raw_repr] st'].
  apply bind_raises. intros bwd_out.
  apply bind_raises. intros bwd_pred.
  apply bind_raises. intros bwd_repr.
  destruct (decide _) as [_|Hne]; [|contradiction].
  destruct (emb GRIL m) as [e|]; cbn -[cat].
  - destruct (unpack2_star (shape fwd_repr)) as [bs|err]; cbn -[cat];
      [|eexists; reflexivity].
    rewrite cat_None. eexists. reflexivity.
  - rewrite cat_None. eexists. reflexivity.
Qed.

(** What the fusion branch computes from the two directional outputs. *)
Lemma forward_reduce cfg m x edge_index edge_weight mask u keep
      imp fwd_out bwd_out fwd_pred bwd_pred :
  init cfg = Ok m -> merge_mode cfg ≠ "mlp"%string ->
  forward m x edge_index edge_weight mask u keep
    = Ok (imp, (fwd_out, bwd_out, fwd_pred, bwd_pred)) ->
  exists t, stack [fwd_out; bwd_out] (-1) = Ok t
            ∧ call_out_dim GRIL m t (-1) = Ok imp.
Proof.
  intros Hi Hm H. pose proof (init_merge_mode _ _ Hi) as Hmm.
  unfold grin_model.forward in H.
  apply bind_returns in H as ([[[fo fp] fr] st] & _ & H).
  do 3 (apply bind_returns in H as (? & _ & H)).
  apply bind_returns in H as ([[[ro rp] rr] st'] & _ & H).
  do 3 (apply bind_returns in H as (? & _ & H)).
  apply bind_returns in H as (i & H & E). injection E as <- <- <- <- <-.
  destruct (decide _) as [E|_]; [congruence|].
  apply bind_returns in H as (t & Hs & H). eauto.
Qed.

(** Claim C4, mode by mode.  When the forward call of a model
    built with a reducing merge mode returns, the imputation is: for
    ["mean"] and ["sum"] a tensor of the shape of [fwd_out], the
    element-wise mean, respectively sum, of [fwd_out] and [bwd_out]; for
    ["min"] and ["max"] not a tensor but the pair of values and indices
    that [torch.min] and [torch.max] return for a reduction along a
    dimension. *)
Theorem forward_reduce_modes cfg m x edge_index edge_weight mask u keep
        imp fwd_out bwd_out fwd_pred bwd_pred :
  init cfg = Ok m ->
  forward m x edge_index edge_weight mask u keep
    = Ok (imp, (fwd_out, bwd_out, fwd_pred, bwd_pred)) ->
  (merge_mode cfg = "mean"%string ->
   exists t, imp = PyTensor t ∧ shape t = shape fwd_out
     ∧ forall idx, in_bounds (shape fwd_out) idx ->
         val t idx = ((val fwd_out idx + val bwd_out idx) / 2)%R)
  ∧ (merge_mode cfg = "sum"%string ->
     exists t, imp = PyTensor t ∧ shape t = shape fwd_out
       ∧ forall idx, in_bounds (shape fwd_out) idx ->
           val t idx = (val fwd_out idx + val bwd_out idx)%R)
  ∧ (merge_mode cfg = "min"%string ->
     exists values indices, imp = PyValuesIndices values indices
       ∧ shape values = shape fwd_out ∧ lshape indices = shape fwd_out
       ∧ forall idx, in_bounds (shape fwd_out) idx ->
           val values idx = Rmin (val fwd_out idx) (val bwd_out idx)
           ∧ lval indices idx
             = if Rlt_dec (val bwd_out idx) (val fwd_out idx) then 1%Z else 0%Z)
  ∧ (merge_mode cfg = "max"%string ->
     exists values indices, imp = PyValuesIndices values indices
       ∧ shape values = shape fwd_out ∧ lshape indices = shape fwd_out
       ∧ forall idx, in_bounds (shape fwd_out) idx ->
           val values idx = Rmax (val fwd_out idx) (val bwd_out idx)
           ∧ lval indices idx
             = if Rlt_dec (val fwd_out idx) (val bwd_out idx) then 1%Z else 0%Z).
Proof.
  intros Hi Hf.
  assert (forall mode, merge_mode cfg = mode -> mode ≠ "mlp"%string ->
            exists t, stack [fwd_out; bwd_out] (-1) = Ok t
                      ∧ call_out_dim GRIL m t (-1) = Ok imp
                      ∧ out GRIL m = TorchFunction mode) as Hstep.
  { intros mode <- Hne.
    destruct (forward_reduce _ _ _ _ _ _ _ _ _ _ _ _ _ Hi Hne Hf) as (t & Hs & Hc).
    exists t. auto using init_out. }
  repeat split; intros Hm;
    (destruct (Hstep _ Hm) as (t & Hs & Hc & Ho); [discriminate|]);
    apply stack_pair_reduce in Hs as (Hn & Hw & Hd & Hz & Hfib);
    unfold call_out_dim in Hc; rewrite Ho in Hc; cbn in Hc.
  - unfold tmean in Hc. rewrite Hw in Hc. cbn in Hc.
    destruct (decide (ndim t = 0)); [contradiction|]. injection Hc as <-.
    eexists. split; [reflexivity|]. split; [exact Hd|].
    intros idx Hidx. cbn. rewrite Hfib, Hz by assumption. cbn. lra.
  - unfold tsum in Hc. rewrite Hw in Hc. cbn in Hc.
    destruct (decide (ndim t = 0)); [contradiction|]. injection Hc as <-.
    eexists. split; [reflexivity|]. split; [exact Hd|].
    intros idx Hidx. cbn. rewrite Hfib by assumption. cbn. lra.
  - unfold tmin, reduce_with_indices in Hc. rewrite Hw in Hc. cbn in Hc.
    destruct (decide (ndim t = 0)); [contradiction|]. rewrite Hz in Hc.
    cbn in Hc. injection Hc as <-.
    do 2 eexists. split; [reflexivity|]. cbn. rewrite Hd. repeat split;
      rewrite Hfib, argmin_pair by assumption; cbn; [reflexivity|].
    destruct (Rlt_dec _ _); reflexivity.
  - unfold tmax, reduce_with_indices in Hc. rewrite Hw in Hc. cbn in Hc.
    destruct (decide (ndim t = 0)); [contradiction|]. rewrite Hz in Hc.
    cbn in Hc. injection Hc as <-.
    do 2 eexists. split; [reflexivity|]. cbn. rewrite Hd. repeat split;
      rewrite Hfib, argmax_pair by assumption; cbn; [reflexivity|].
    destruct (Rlt_dec _ _); reflexivity.
Qed.

End grin_facts.

Lemma init_rejects_invalid_configuration_witness :
  raises (echo_model_init (with_embedding (defaults 4) (Some 8%Z) None))
  ∧ raises (echo_model_init (with_mode (defaults 4) "median")).
Proof.
  split.
  - apply (init_rejects_invalid_configuration echo_init zero_table zero_weight zero_bias).
    right. split; [eexists; reflexivity | reflexivity].
  - apply (init_rejects_invalid_configuration echo_init zero_table zero_weight zero_bias).
    left. cbn. intros H. repeat (apply elem_of_cons in H as [H|H]; [discriminate|]).
    inversion H.
Defined.

Lemma init_mlp_without_embedding_witness :
  echo_model_init (defaults 4) = Raise TypeError.
Proof.
  apply (init_mlp_without_embedding echo_init zero_table zero_weight zero_bias);
    [reflexivity | reflexivity | eexists; reflexivity | eexists; reflexivity].
Defined.

Lemma echo_mlp_model :
  exists m, echo_model_init (with_embedding (defaults 4) (Some 8%Z) (Some 3%Z)) = Ok m.
Proof.
  unfold echo_model_init, init. cbn. unfold Dropout_init.
  destruct (Rlt_dec 0 0); [lra|]. destruct (Rlt_dec 1 0); [lra|].
  eexists. reflexivity.
Qed.

Lemma forward_mlp_requires_mask_witness :
  exists m,
    echo_model_init (with_embedding (defaults 4) (Some 8%Z) (Some 3%Z)) = Ok m
    ∧ raises (echo_model_forward m example_x tt None None None (fun _ => true)).
Proof.
  destruct echo_mlp_model as [m Hm]. exists m. split; [exact Hm|].
  exact (proj1 (forward_mlp_requires_mask echo_init echo_forward zero_table
                  zero_weight zero_bias _ m example_x tt None None
                  (fun _ => true) Hm eq_refl)).
Defined.

Lemma forward_reduce_modes_witness :
  (exists t bwd_out,
     echo_model_init (with_mode (defaults 4) "mean") = Ok echo_mean_model
     ∧ echo_model_forward echo_mean_model example_x tt None (Some example_mask)
         None (fun _ => true)
       = Ok (PyTensor t, (example_x, bwd_out, example_x, bwd_out))
     ∧ shape t = [2; 5; 3; 4]
     ∧ forall idx, in_bounds [2; 5; 3; 4] idx ->
         val t idx = ((val example_x idx + val bwd_out idx) / 2)%R)
  ∧ (exists values indices bwd_out,
       echo_model_init (with_mode (defaults 4) "min") = Ok echo_min_model
       ∧ echo_model_forward echo_min_model example_x tt None (Some example_mask)
           None (fun _ => true)
         = Ok (PyValuesIndices values indices,
               (example_x, bwd_out, example_x, bwd_out))
       ∧ shape values = [2; 5; 3; 4]).
Proof.
  split.
  - assert (echo_model_init (with_mode (defaults 4) "mean") = Ok echo_mean_model)
      as Hi by reflexivity.
    eassert (echo_model_forward echo_mean_model example_x tt None
               (Some example_mask) None
               (fun _ => true) = Ok (_, (example_x, _, example_x, _))) as Hf
      by reflexivity.
    destruct (forward_reduce_modes echo_init echo_forward zero_table zero_weight
                zero_bias (with_mode (defaults 4) "mean") echo_mean_model
                example_x tt None (Some example_mask) None (fun _ => true)
                _ _ _ _ _ Hi Hf) as (Hmean & _).
    destruct (Hmean eq_refl) as (t & Ht & Hs & Hv).
    eexists t, _. split; [exact Hi|]. split; [rewrite <- Ht; exact Hf|].
    split; [exact Hs | exact Hv].
  - assert (echo_model_init (with_mode (defaults 4) "min") = Ok echo_min_model)
      as Hi by reflexivity.
    eassert (echo_model_forward echo_min_model example_x tt None
               (Some example_mask) None
               (fun _ => true) = Ok (_, (example_x, _, example_x, _))) as Hf
      by reflexivity.
    destruct (forward_reduce_modes echo_init echo_forward zero_table zero_weight
                zero_bias (with_mode (defaults 4) "min") echo_min_model
                example_x tt None (Some example_mask) None (fun _ => true)
                _ _ _ _ _ Hi Hf) as (_ & _ & Hmin & _).
    destruct (Hmin eq_refl) as (values & indices & Hp & Hs & _).
    eexists values, indices, _. split; [exact Hi|].
    split; [rewrite <- Hp; exact Hf | exact Hs].
Defined.

(** * Further properties of the code *)

(** ** Tensor reversal *)

Lemma arange_down_nth (n j : nat) :
  j < n -> nth j (arange_down (Z.of_nat n - 1)) 0%Z = Z.of_nat (n - 1 - j).
Proof.
  intros H. unfold arange_down.
  replace (Z.to_nat (Z.of_nat n - 1 + 1)) with n by lia.
  rewrite nth_lookup, list_lookup_fmap, lookup_seq_lt by exact H. cbn. lia.
Qed.

Lemma arange_down_length (n : nat) : length (arange_down (Z.of_nat n - 1)) = n.
Proof. unfold arange_down. rewrite length_fmap, length_seq. lia. Qed.

Lemma arange_down_in_range (n : nat) :
  Forall (fun i => (0 <= i < Z.of_nat n)%Z) (arange_down (Z.of_nat n - 1)).
Proof.
  unfold arange_down. apply Forall_fmap, Forall_forall.
  intros i Hi%elem_of_seq. cbn. lia.
Qed.

Lemma reverse_tensor_reads tensor dim d :
  0 < ndim tensor -> wrap_dim (ndim tensor) dim = Ok d ->
  exists r, reverse_tensor tensor dim = Ok r
    ∧ shape r = shape tensor
    ∧ forall idx, in_bounds (shape tensor) idx ->
        val r idx = val tensor (mirror tensor d idx).
Proof.
  intros Hn Hw. pose proof (wrap_dim_lt _ _ _ Hw Hn) as Hd.
  unfold reverse_tensor, size_of.
  destruct (decide (ndim tensor = 0)); [lia|]. rewrite Hw.
  cbn [mbind result_bind]. unfold index_select. rewrite Hw.
  cbn [mbind result_bind].
  destruct (decide _) as [_|Hno]; [|exfalso; apply Hno, arange_down_in_range].
  eexists. split; [reflexivity|]. cbn [shape val]. split.
  - rewrite arange_down_length. apply insert_nth_id.
  - intros idx Hidx. rewrite alter_as_insert. unfold mirror. f_equal. f_equal.
    rewrite arange_down_nth; [lia|]. apply in_bounds_nth; assumption.
Qed.

Lemma mirror_in_bounds t d idx :
  d < ndim t -> in_bounds (shape t) idx -> in_bounds (shape t) (mirror t d idx).
Proof.
  intros Hd Hidx. apply in_bounds_insert_l; [exact Hidx|].
  pose proof (in_bounds_nth _ _ d Hidx Hd). unfold size. lia.
Qed.

Lemma mirror_mirror t t' d idx :
  shape t' = shape t -> d < ndim t -> in_bounds (shape t) idx ->
  mirror t d (mirror t' d idx) = idx.
Proof.
  intros Hs Hd Hidx. unfold mirror, size. rewrite Hs.
  pose proof (in_bounds_nth _ _ d Hidx Hd) as Hlt.
  pose proof (in_bounds_length _ _ Hidx) as Hl. unfold ndim in Hd.
  rewrite nth_insert_eq by lia. rewrite list_insert_insert_eq.
  replace (nth d (shape t) 0 - 1 - (nth d (shape t) 0 - 1 - nth d idx 0))
    with (nth d idx 0) by lia.
  apply insert_nth_id.
Qed.

(** X1.  [reverse_tensor] keeps the shape, and the entry of the result at
    a position is the entry of the input at the mirrored position, which
    lies inside the input: position [i] along [dim] reads position
    [size - 1 - i], and the other coordinates stay. *)
Theorem reverse_tensor_mirrors tensor dim d :
  0 < ndim tensor -> wrap_dim (ndim tensor) dim = Ok d ->
  exists r, reverse_tensor tensor dim = Ok r
    ∧ shape r = shape tensor
    ∧ forall idx, in_bounds (shape tensor) idx ->
        exists src, in_bounds (shape tensor) src
          ∧ val r idx = val tensor src
          ∧ nth d src 0 = size tensor d - 1 - nth d idx 0
          ∧ forall j, j ≠ d -> nth j src 0 = nth j idx 0.
Proof.
  intros Hn Hw. pose proof (wrap_dim_lt _ _ _ Hw Hn) as Hd.
  destruct (reverse_tensor_reads tensor dim d Hn Hw) as (r & Hr & Hs & Hv).
  exists r. split; [exact Hr|]. split; [exact Hs|]. intros idx Hidx.
  exists (mirror tensor d idx). split; [now apply mirror_in_bounds|].
  split; [now apply Hv|]. unfold mirror. split.
  - apply nth_insert_eq. rewrite (in_bounds_length _ _ Hidx). exact Hd.
  - intros j Hj. rewrite !nth_lookup, list_lookup_insert_ne by congruence.
    reflexivity.
Qed.

(** X2.  Reversing twice along the same dimension gives the input back. *)
Theorem reverse_tensor_involution tensor dim :
  0 < ndim tensor -> returns (wrap_dim (ndim tensor) dim) ->
  exists r rr, reverse_tensor tensor dim = Ok r
    ∧ reverse_tensor r dim = Ok rr
    ∧ same_values rr tensor.
Proof.
  intros Hn [d Hw]. pose proof (wrap_dim_lt _ _ _ Hw Hn) as Hd.
  destruct (reverse_tensor_reads tensor dim d Hn Hw) as (r & Hr & Hrs & Hrv).
  assert (ndim r = ndim tensor) as Hnd by (unfold ndim; now rewrite Hrs).
  destruct (reverse_tensor_reads r dim d) as (rr & Hrr & Hrrs & Hrrv);
    [lia | now rewrite Hnd |].
  exists r, rr. split; [exact Hr|]. split; [exact Hrr|].
  split; [congruence|]. rewrite Hrrs, Hrs. intros idx Hidx.
  rewrite Hrrv by (now rewrite Hrs).
  rewrite Hrv by (rewrite <- Hrs; apply mirror_in_bounds; [lia | now rewrite Hrs]).
  now rewrite mirror_mirror.
Qed.

(** X3.  [reverse_tensor] raises on a zero-dimensional tensor, and when
    [dim] is outside [[-ndim, ndim)]. *)
Theorem reverse_tensor_bad_dim tensor dim :
  ndim tensor = 0 ∨ ¬ (- Z.of_nat (ndim tensor) <= dim < Z.of_nat (ndim tensor))%Z ->
  raises (reverse_tensor tensor dim).
Proof.
  intros H. exists IndexError. unfold reverse_tensor, size_of.
  destruct (decide (ndim tensor = 0)); [reflexivity|].
  destruct H as [H|H]; [contradiction|]. unfold wrap_dim.
  destruct (decide _) as [Hin|_]; [|reflexivity]. exfalso. apply H. lia.
Qed.

Lemma reverse_tensor_mirrors_witness :
  exists r, reverse_tensor (tensor2 [[1; 2; 3]; [4; 5; 6]]%R) 1 = Ok r
    ∧ shape r = [2; 3] ∧ val r [1; 0] = 6%R ∧ val r [0; 2] = 1%R.
Proof.
  destruct (reverse_tensor_mirrors (tensor2 [[1; 2; 3]; [4; 5; 6]]%R) 1 1)
    as (r & Hr & Hs & Hv); [cbn; lia | reflexivity |].
  exists r. split; [exact Hr|]. split; [exact Hs|].
  assert (forall i j (src : list nat),
            in_bounds [2; 3] src -> nth 1 src 0 = j -> nth 0 src 0 = i ->
            src = [i; j]) as Hsrc.
  { intros i j src Hb Hj Hi. inversion Hb as [|a ? ? ? _ Hb']; subst.
    inversion Hb' as [|b ? ? ? _ Hb'']; subst. inversion Hb''. reflexivity. }
  split.
  - destruct (Hv [1; 0]) as (src & Hb & -> & Hd & Ho);
      [repeat constructor; lia|].
    rewrite (Hsrc 1 2 src Hb Hd (Ho 0 ltac:(lia))). reflexivity.
  - destruct (Hv [0; 2]) as (src & Hb & -> & Hd & Ho);
      [repeat constructor; lia|].
    rewrite (Hsrc 0 0 src Hb Hd (Ho 0 ltac:(lia))). reflexivity.
Defined.

Lemma reverse_tensor_involution_witness :
  exists r rr,
    reverse_tensor (tensor2 [[1; 2; 3]; [4; 5; 6]]%R) (-1) = Ok r
    ∧ reverse_tensor r (-1) = Ok rr
    ∧ same_values rr (tensor2 [[1; 2; 3]; [4; 5; 6]]%R).
Proof.
  apply reverse_tensor_involution; [cbn; lia | eexists; reflexivity].
Defined.

Lemma reverse_tensor_bad_dim_witness :
  raises (reverse_tensor (tensor2 [[1; 2; 3]; [4; 5; 6]]%R) 2)
  ∧ raises (reverse_tensor (mkTensor [] (fun _ => 1%R)) 0).
Proof.
  split; apply reverse_tensor_bad_dim; [right; cbn; lia | left; reflexivity].
Defined.

(** ** The gated activation: range, small sizes, dimensions *)

Lemma tanh_bounded (x : R) : (-1 < tanh x < 1)%R.
Proof.
  unfold tanh, sinh, cosh.
  pose proof (exp_pos x) as Hp. pose proof (exp_pos (- x)) as Hm.
  replace ((exp x - exp (- x)) / 2 / ((exp x + exp (- x)) / 2))%R
    with ((exp x - exp (- x)) * / (exp x + exp (- x)))%R by (field; lra).
  assert (0 < / (exp x + exp (- x)))%R as Hi by (apply Rinv_0_lt_compat; lra).
  assert ((exp x + exp (- x)) * / (exp x + exp (- x)) = 1)%R as Hinv
    by (apply Rinv_r; lra).
  split; nra.
Qed.

Lemma sigmoid_bounded (x : R) : (0 < sigmoid_R x < 1)%R.
Proof.
  unfold sigmoid_R. pose proof (exp_pos (- x)) as Hm.
  assert (0 < / (1 + exp (- x)))%R as Hi by (apply Rinv_0_lt_compat; lra).
  assert ((1 + exp (- x)) * / (1 + exp (- x)) = 1)%R as Hinv
    by (apply Rinv_r; lra).
  unfold Rdiv. split; nra.
Qed.

(** X4.  Every entry of what [gated_tanh] returns lies between -1 and 1. *)
Theorem gated_tanh_bounded input dim out idx :
  gated_tanh input dim = Ok out ->
  (-1 <= val out idx <= 1)%R.
Proof.
  unfold gated_tanh. intros H.
  apply bind_returns in H as (parts & _ & H).
  destruct parts as [|a [|b [|c parts]]]; try discriminate.
  unfold mul, pointwise2 in H. apply bind_returns in H as (sh & _ & H).
  injection H as <-. cbn [val ttanh tsigmoid pointwise].
  pose proof (tanh_bounded (val a (bcast_index (shape a) idx))) as Ht.
  pose proof (sigmoid_bounded (val b (bcast_index (shape b) idx))) as Hs.
  split; nra.
Qed.

Lemma gated_tanh_bounded_witness :
  exists out, gated_tanh (tensor1 [1; 2; 3; 4]%R) (-1) = Ok out
    ∧ Rle (-1) (val out [0]) ∧ Rle (val out [0]) 1.
Proof.
  eexists. split; [reflexivity|].
  apply (gated_tanh_bounded (tensor1 [1; 2; 3; 4]%R) (-1)). reflexivity.
Defined.

Lemma bcast_index_unit sh d n idx :
  d < length sh -> in_bounds (<[d:=n]> sh) idx ->
  bcast_index (<[d:=1]> sh) idx = <[d:=0]> idx.
Proof.
  intros Hd Hidx. unfold bcast_index.
  rewrite (in_bounds_length _ _ Hidx), !length_insert, Nat.sub_diag, drop_0.
  revert d idx Hd Hidx. induction sh as [|x sh IH]; intros d idx Hd Hidx;
    [cbn in Hd; lia|].
  destruct d as [|d]; cbn in *; inversion Hidx as [|i m idx' sh' Hi Hrest]; subst.
  - cbn. f_equal. pose proof (bcast_index_id _ _ Hrest) as Hid.
    unfold bcast_index in Hid.
    rewrite (Forall2_length _ _ _ Hrest), Nat.sub_diag, drop_0 in Hid.
    exact Hid.
  - cbn. rewrite IH by (assumption || lia).
    destruct (decide (x = 1)); [f_equal; lia | reflexivity].
Qed.

(** X5.  The two odd sizes on which [gated_tanh] returns.  With size one
    along [dim] the second part is empty and so is the result.  With size
    three the parts have sizes two and one; the single gate entry is
    broadcast over both entries of the first part. *)
Theorem gated_tanh_small_odd input dim d :
  0 < ndim input -> wrap_dim (ndim input) dim = Ok d ->
  (size input d = 1 ->
     exists out, gated_tanh input dim = Ok out
       ∧ shape out = <[d:=0]> (shape input))
  ∧ (size input d = 3 ->
       exists out, gated_tanh input dim = Ok out
         ∧ shape out = <[d:=2]> (shape input)
         ∧ forall idx, in_bounds (shape out) idx ->
             val out idx = Rmult (tanh (val input idx))
                                 (sigmoid_R (val input (<[d:=2]> idx)))).
Proof.
  intros Hn Hw. pose proof (wrap_dim_lt _ _ _ Hw Hn) as Hd. unfold ndim in Hd.
  rewrite (gated_tanh_unfold _ _ _ Hn Hw). cbv zeta. split; intros Hs; rewrite Hs.
  - change (1 mod 2) with 1. change (1 / 2) with 0.
    destruct (decide (0 < 1)); [|lia].
    unfold mul, pointwise2. cbn [shape ttanh tsigmoid pointwise slice].
    rewrite broadcast_shapes_same_length by (now rewrite !length_insert).
    rewrite zip_dims_insert by exact Hd. cbn.
    eexists. split; reflexivity.
  - change (3 mod 2) with 1. change (3 / 2) with 1.
    destruct (decide (0 < 1)); [|lia].
    unfold mul, pointwise2. cbn [shape ttanh tsigmoid pointwise slice].
    rewrite broadcast_shapes_same_length by (now rewrite !length_insert).
    rewrite zip_dims_insert by exact Hd. cbn [Nat.add Nat.sub].
    change (broadcast_dim 2 1) with (Ok 2 : result nat). cbn [mbind result_bind].
    eexists. split; [reflexivity|]. split; [reflexivity|]. cbn [shape val].
    intros idx Hidx. pose proof (in_bounds_length _ _ Hidx) as Hl.
    rewrite length_insert in Hl.
    rewrite bcast_index_id by assumption.
    rewrite (bcast_index_unit _ _ 2) by assumption.
    cbn [val ttanh tsigmoid pointwise slice].
    rewrite (list_alter_id (Nat.add 0)) by reflexivity.
    rewrite alter_as_insert, nth_insert_eq, list_insert_insert_eq by lia.
    reflexivity.
Qed.

Lemma gated_tanh_small_odd_witness :
  (exists out, gated_tanh (tensor2 [[1]; [2]]%R) (-1) = Ok out ∧ shape out = [2; 0])
  ∧ (exists out, gated_tanh (tensor2 [[1; 2; 3]]%R) (-1) = Ok out
       ∧ shape out = [1; 2]
       ∧ val out [0; 1] = (tanh 2 * sigmoid_R 3)%R).
Proof.
  split.
  - destruct (gated_tanh_small_odd (tensor2 [[1]; [2]]%R) (-1) 1) as [H _];
      [cbn; lia | reflexivity |].
    destruct (H eq_refl) as (out & Ho & Hs). exists out. split; assumption.
  - destruct (gated_tanh_small_odd (tensor2 [[1; 2; 3]]%R) (-1) 1) as [_ H];
      [cbn; lia | reflexivity |].
    destruct (H eq_refl) as (out & Ho & Hs & Hv). exists out.
    split; [exact Ho|]. split; [exact Hs|].
    rewrite Hv; [reflexivity|]. rewrite Hs. repeat constructor.
Defined.

(** X6.  [gated_tanh] raises on a zero-dimensional input, which
    [torch.tensor_split] does not accept, and when [dim] is outside
    [[-ndim, ndim)]. *)
Theorem gated_tanh_bad_dim input dim :
  ndim input = 0 ∨ ¬ (- Z.of_nat (ndim input) <= dim < Z.of_nat (ndim input))%Z ->
  raises (gated_tanh input dim).
Proof.
  intros H. unfold gated_tanh, tensor_split.
  destruct (decide (ndim input = 0)); [eexists; reflexivity|].
  destruct H as [H|H]; [contradiction|]. unfold wrap_dim.
  destruct (decide (_ <= dim < _)%Z) as [Hin|_]; [|eexists; reflexivity].
  exfalso. apply H. lia.
Qed.

Lemma gated_tanh_bad_dim_witness :
  raises (gated_tanh (mkTensor [] (fun _ => 1%R)) (-1))
  ∧ raises (gated_tanh (tensor1 [1; 2]%R) 1).
Proof.
  split; apply gated_tanh_bad_dim; [left; reflexivity | right; cbn; lia].
Defined.

(** ** The grouped softmax: range, independence of groups, order *)

Section softmax_more.
Variable epsilon : R.

(** X7.  With a non-negative [epsilon], every weight that
    [sparse_softmax] returns lies between 0 and 1. *)
Theorem sparse_softmax_range src index num_nodes dim d :
  (0 <= epsilon)%R ->
  group_index_ok src index num_nodes dim d ->
  exists out, sparse_softmax epsilon src index num_nodes dim = Ok out
    ∧ forall idx, in_bounds (shape src) idx -> (0 <= val out idx <= 1)%R.
Proof.
  intros He Hok.
  destruct (sparse_softmax_value epsilon _ _ _ _ _ Hok) as (out & Ho & _ & Hv).
  exists out. split; [exact Ho|]. intros idx Hidx. rewrite Hv by exact Hidx.
  cbv zeta. destruct Hok as (Hn & Hw & Hl & _).
  pose proof (wrap_dim_lt _ _ _ Hw Hn) as Hd.
  set (grp := group_members index (nth (nth d idx 0) index 0%Z)).
  set (m := Rmax_list (column src d idx <$> grp)).
  set (T := Rsum ((fun j => exp (column src d idx j - m)) <$> grp)).
  assert (exp (val src idx - m) <= T)%R as Hle.
  { apply Rsum_nonneg_ge.
    - apply Forall_fmap, Forall_forall. intros x _. cbn. left. apply exp_pos.
    - apply list_elem_of_fmap. exists (nth d idx 0). split.
      + unfold column. now rewrite insert_nth_id.
      + apply group_members_nonempty. rewrite Hl. apply in_bounds_nth; assumption. }
  pose proof (exp_pos (val src idx - m)) as Hpos.
  assert (0 < / (T + epsilon))%R as Hi by (apply Rinv_0_lt_compat; lra).
  assert ((T + epsilon) * / (T + epsilon) = 1)%R as Hinv by (apply Rinv_r; lra).
  unfold Rdiv. split; nra.
Qed.

(** X8.  The weight at a position depends only on the scores of its own
    group: changing [src] at positions of other groups leaves it
    unchanged. *)
Theorem sparse_softmax_groups_independent src src' index num_nodes dim d :
  group_index_ok src index num_nodes dim d ->
  shape src' = shape src ->
  exists out out',
    sparse_softmax epsilon src index num_nodes dim = Ok out
    ∧ sparse_softmax epsilon src' index num_nodes dim = Ok out'
    ∧ forall idx, in_bounds (shape src) idx ->
        (forall j, j ∈ group_members index (group_at index d idx) ->
           column src' d idx j = column src d idx j) ->
        val out' idx = val out idx.
Proof.
  intros Hok Hsh.
  assert (group_index_ok src' index num_nodes dim d) as Hok'.
  { unfold group_index_ok, ndim, size in *. now rewrite Hsh. }
  destruct (sparse_softmax_value epsilon _ _ _ _ _ Hok) as (out & Ho & _ & Hv).
  destruct (sparse_softmax_value epsilon _ _ _ _ _ Hok') as (out' & Ho' & _ & Hv').
  exists out, out'. split; [exact Ho|]. split; [exact Ho'|].
  intros idx Hidx Heq. unfold group_at in Heq.
  rewrite Hv, Hv' by (rewrite ?Hsh; assumption). cbv zeta.
  destruct Hok as (Hn & Hw & Hl & _).
  pose proof (wrap_dim_lt _ _ _ Hw Hn) as Hd.
  set (grp := group_members index (nth (nth d idx 0) index 0%Z)) in *.
  assert (column src' d idx <$> grp = column src d idx <$> grp) as ->.
  { apply list_fmap_ext. intros i j Hj%list_elem_of_lookup_2. now apply Heq. }
  assert (val src' idx = val src idx) as ->.
  { specialize (Heq (nth d idx 0)). unfold column in Heq.
    rewrite insert_nth_id in Heq. apply Heq.
    apply group_members_nonempty. rewrite Hl. apply in_bounds_nth; assumption. }
  f_equal. f_equal. f_equal. apply list_fmap_ext.
  intros i j Hj%list_elem_of_lookup_2. now rewrite Heq.
Qed.

(** X9.  Inside a group the weights are ordered as the scores are. *)
Theorem sparse_softmax_keeps_order src index num_nodes dim d :
  (0 <= epsilon)%R ->
  group_index_ok src index num_nodes dim d ->
  exists out, sparse_softmax epsilon src index num_nodes dim = Ok out
    ∧ forall idx i j, in_bounds (shape src) idx ->
        i < length index -> j < length index ->
        nth i index 0%Z = nth j index 0%Z ->
        (column src d idx i <= column src d idx j)%R ->
        (column out d idx i <= column out d idx j)%R.
Proof.
  intros He Hok.
  destruct (sparse_softmax_value epsilon _ _ _ _ _ Hok) as (out & Ho & _ & _).
  exists out. split; [exact Ho|]. intros idx i j Hidx Hi Hj Hg Hle.
  pose proof (sparse_softmax_column epsilon _ _ _ _ _ _ _ (nth j index 0%Z)
                Hok Ho Hidx) as Hc.
  cbv zeta in Hc.
  assert (i ∈ group_members index (nth j index 0%Z)) as Hgi.
  { rewrite <- Hg. now apply group_members_nonempty. }
  assert (j ∈ group_members index (nth j index 0%Z)) as Hgj
    by now apply group_members_nonempty.
  rewrite (Hc i Hgi), (Hc j Hgj).
  set (grp := group_members index (nth j index 0%Z)) in *.
  set (m := Rmax_list (column src d idx <$> grp)).
  pose proof (softmax_normaliser_ge_1 (column src d idx) grp) as HT.
  cbv zeta in HT. fold m in HT.
  set (T := Rsum ((fun j0 => exp (column src d idx j0 - m)) <$> grp)) in *.
  assert (1 <= T)%R as HT1.
  { apply HT. intros Hnil. rewrite Hnil in Hgj. inversion Hgj. }
  assert (0 < / (T + epsilon))%R as Hinv by (apply Rinv_0_lt_compat; lra).
  assert (exp (column src d idx i - m) <= exp (column src d idx j - m))%R as Hexp.
  { destruct Hle as [Hlt|Heq]; [left; apply exp_increasing; lra | right; now rewrite Heq]. }
  unfold Rdiv. nra.
Qed.

Lemma broadcast_length_mismatch src index dim d :
  0 < ndim src -> wrap_dim (ndim src) dim = Ok d ->
  length index ≠ size src d -> length index ≠ 1 ->
  broadcast index src dim = Raise RuntimeError.
Proof.
  intros Hn Hw Hl H1. pose proof (wrap_dim_lt _ _ _ Hw Hn) as Hd.
  unfold broadcast.
  assert (Z.to_nat (if decide (dim < 0)%Z then (Z.of_nat (ndim src) + dim)%Z else dim) = d)
    as ->.
  { unfold wrap_dim in Hw. destruct (decide _) as [H|_]; [|discriminate].
    injection Hw as <-. repeat destruct (decide _); lia. }
  set (shx := (replicate d 1 ++ [length index])
                ++ replicate (ndim src - length (replicate d 1 ++ [length index])) 1).
  assert (length shx = ndim src) as Hlx.
  { unfold shx. rewrite !length_app, !length_replicate. cbn. lia. }
  unfold expand. cbn [lshape lval].
  destruct (decide _) as [[_ Hall]|_]; [exfalso|reflexivity].
  fold (ndim src) in Hall. rewrite <- Hlx, pad_shape_same in Hall.
  assert (shx !! d = Some (length index)) as Hx.
  { unfold shx. rewrite <- app_assoc, lookup_app_r by (rewrite length_replicate; lia).
    rewrite length_replicate, Nat.sub_diag. reflexivity. }
  destruct (lookup_lt_is_Some_2 (shape src) d Hd) as [n Hsn].
  pose proof (Forall2_lookup_lr _ _ _ _ _ _ Hall Hx Hsn) as Hor.
  unfold size in Hl. rewrite nth_lookup, Hsn in Hl. cbn in *. lia.
Qed.

(** X10.  An [index] whose length is neither the size of [src] along
    [dim] nor one cannot be expanded to the shape of [src]: the call
    raises. *)
Theorem sparse_softmax_length_mismatch src index num_nodes dim d :
  0 < ndim src -> wrap_dim (ndim src) dim = Ok d ->
  length index ≠ size src d -> length index ≠ 1 ->
  raises (sparse_softmax epsilon src index num_nodes dim).
Proof.
  intros Hn Hw Hl H1. exists RuntimeError. unfold sparse_softmax.
  now rewrite (broadcast_length_mismatch _ _ _ _ Hn Hw Hl H1).
Qed.

End softmax_more.

Lemma sparse_softmax_range_witness :
  exists out,
    sparse_softmax epsilon_default example_src example_index None (-2) = Ok out
    ∧ Rle 0 (val out [1; 0]) ∧ Rle (val out [1; 0]) 1.
Proof.
  destruct (sparse_softmax_range epsilon_default example_src example_index None
              (-2) 0 epsilon_default_nonneg example_group_index_ok)
    as (out & Ho & Hr).
  exists out. split; [exact Ho|]. apply Hr. repeat constructor; lia.
Defined.

Lemma sparse_softmax_groups_independent_witness :
  exists out out',
    sparse_softmax epsilon_default example_src example_index None (-2) = Ok out
    ∧ sparse_softmax epsilon_default (tensor2 [[1]; [7]; [3]]%R) example_index
        None (-2) = Ok out'
    ∧ val out' [0; 0] = val out [0; 0] ∧ val out' [2; 0] = val out [2; 0].
Proof.
  destruct (sparse_softmax_groups_independent epsilon_default example_src
              (tensor2 [[1]; [7]; [3]]%R)
              example_index None (-2) 0 example_group_index_ok eq_refl)
    as (out & out' & Ho & Ho' & H).
  exists out, out'. split; [exact Ho|]. split; [exact Ho'|].
  split; apply H; try (repeat constructor; lia).
  - intros j Hj. change (group_members example_index (group_at example_index 0 [0; 0]))
      with [0; 2] in Hj.
    apply elem_of_cons in Hj as [->|Hj]; [reflexivity|].
    apply list_elem_of_singleton in Hj as ->. reflexivity.
  - intros j Hj. change (group_members example_index (group_at example_index 0 [2; 0]))
      with [0; 2] in Hj.
    apply elem_of_cons in Hj as [->|Hj]; [reflexivity|].
    apply list_elem_of_singleton in Hj as ->. reflexivity.
Defined.

Lemma sparse_softmax_keeps_order_witness :
  exists out,
    sparse_softmax epsilon_default example_src example_index None (-2) = Ok out
    ∧ Rle (val out [0; 0]) (val out [2; 0]).
Proof.
  destruct (sparse_softmax_keeps_order epsilon_default example_src example_index
              None (-2) 0 epsilon_default_nonneg example_group_index_ok)
    as (out & Ho & Hord).
  exists out. split; [exact Ho|].
  apply (Hord [0; 0] 0 2); try (cbn; lia); try reflexivity.
  - repeat constructor; lia.
  - unfold column, example_src. cbn. lra.
Defined.

Lemma sparse_softmax_length_mismatch_witness :
  raises (sparse_softmax epsilon_default example_src [0; 1]%Z None (-2)).
Proof.
  apply (sparse_softmax_length_mismatch epsilon_default example_src [0; 1]%Z None
           (-2) 0); cbn; try lia. reflexivity.
Defined.

(** ** The attention kernel: values, scores, rejected calls *)

Lemma Py_bind_inv {A B} (m : Py A) (f : A -> Py B) (h h' : gmap nat object) b :
  (m ≫= f) h = (h', Ok b) ->
  exists a h1, m h = (h1, Ok a) ∧ f a h1 = (h', Ok b).
Proof.
  unfold mbind, Py_bind. destruct (m h) as [h1 [a|e]]; [eauto | discriminate].
Qed.

Lemma lift_inv {A} (r : result A) (h h1 : gmap nat object) a :
  lift r h = (h1, Ok a) -> r = Ok a ∧ h1 = h.
Proof. unfold lift. intros [= <- ->]. auto. Qed.

Lemma load_float_inv l (h h1 : gmap nat object) t :
  load_float l h = (h1, Ok t) -> h !! l = Some (FloatObj t) ∧ h1 = h.
Proof.
  unfold load_float. destruct (h !! l) as [[t'|ix]|]; intros [=]; subst; auto.
Qed.

Lemma load_long_inv l (h h1 : gmap nat object) ix :
  load_long l h = (h1, Ok ix) -> h !! l = Some (LongObj ix) ∧ h1 = h.
Proof.
  unfold load_long. destruct (h !! l) as [[t'|ix']|]; intros [=]; subst; auto.
Qed.

Lemma imul_inv l w (h h1 : gmap nat object) u :
  imul l w h = (h1, Ok u) ->
  exists t prod, h !! l = Some (FloatObj t) ∧ mul t w = Ok prod
    ∧ shape prod = shape t ∧ h1 = <[l:=FloatObj prod]> h.
Proof.
  unfold imul. intros H.
  apply Py_bind_inv in H as (t & h2 & [Ht ->]%load_float_inv & H).
  apply Py_bind_inv in H as (prod & h3 & [Hp ->]%lift_inv & H).
  destruct (decide _) as [Hs|_]; [|discriminate].
  unfold store in H. injection H as <-. eauto 6.
Qed.

Section attention_inverse.
Variable epsilon : R.

(** Every step of a call that returned. *)
Lemma attention_inv q k v index dim_size dropout_p keep
      (h h' : gmap nat object) out alpha :
  sparse_multi_head_attention epsilon q k v index dim_size dropout_p keep h
  = (h', Ok (out, alpha)) ->
  exists qt B H E ix kt qk s a0 w vt prod O z ai,
    let N := maybe_num_nodes ix dim_size in
    h !! q = Some (FloatObj qt) ∧ shape qt = [B; H; E]
    ∧ h !! index = Some (LongObj ix) ∧ h !! k = Some (FloatObj kt)
    ∧ mul qt kt = Ok qk ∧ tsum qk (-1) = Ok s
    ∧ sparse_softmax epsilon (div_scalar s (sqrt (INR E))) ix (Some N) 0 = Ok a0
    ∧ (if Rlt_dec 0 dropout_p then dropout a0 dropout_p keep = Ok alpha
       else alpha = a0)
    ∧ view alpha [(-1)%Z; Z.of_nat H; 1%Z] = Ok w
    ∧ h !! v = Some (FloatObj vt) ∧ mul vt w = Ok prod
    ∧ shape prod = shape vt ∧ h' = <[v:=FloatObj prod]> h
    ∧ size_of prod 2 = Ok O
    ∧ zeros [N; Z.of_nat H; Z.of_nat O] = Ok z
    ∧ broadcast ix prod 0 = Ok ai
    ∧ scatter_add_ z 0 ai prod = Ok out.
Proof.
  unfold sparse_multi_head_attention. intros H0.
  apply Py_bind_inv in H0 as (qt & h1 & [Hq ->]%load_float_inv & H0).
  apply Py_bind_inv in H0 as ([[B H] E] & h1 & [Hu ->]%lift_inv & H0).
  apply Py_bind_inv in H0 as (ix & h1 & [Hi ->]%load_long_inv & H0).
  apply Py_bind_inv in H0 as (kt & h1 & [Hk ->]%load_float_inv & H0).
  apply Py_bind_inv in H0 as (qk & h1 & [Hqk ->]%lift_inv & H0).
  apply Py_bind_inv in H0 as (s & h1 & [Hs ->]%lift_inv & H0).
  apply Py_bind_inv in H0 as (a0 & h1 & [Ha0 ->]%lift_inv & H0).
  apply Py_bind_inv in H0 as (al & h1 & Hdrop & H0).
  apply Py_bind_inv in H0 as (w & h2 & [Hw ->]%lift_inv & H0).
  apply Py_bind_inv in H0 as ([] & h2 & Himul & H0).
  apply imul_inv in Himul as (vt & prod & Hv & Hprod & Hps & ->).
  apply Py_bind_inv in H0 as (vt' & h3 & [Hv' ->]%load_float_inv & H0).
  rewrite lookup_insert_eq in Hv'. injection Hv' as <-.
  apply Py_bind_inv in H0 as (O & h3 & [HO ->]%lift_inv & H0).
  apply Py_bind_inv in H0 as (z & h3 & [Hz ->]%lift_inv & H0).
  apply Py_bind_inv in H0 as (ai & h3 & [Hai ->]%lift_inv & H0).
  apply Py_bind_inv in H0 as (out' & h3 & [Hout ->]%lift_inv & H0).
  injection H0 as <- <- <-.
  assert (shape qt = [B; H; E]) as Hqs.
  { unfold unpack3 in Hu.
    destruct (shape qt) as [|a [|b [|c [|]]]]; try discriminate. congruence. }
  assert (h1 = h ∧ (if Rlt_dec 0 dropout_p then dropout a0 dropout_p keep = Ok al
                    else al = a0)) as [-> Hal].
  { destruct (Rlt_dec 0 dropout_p).
    - apply lift_inv in Hdrop as [? ?]. auto.
    - injection Hdrop as <- <-. auto. }
  exists qt, B, H, E, ix, kt, qk, s, a0, w, vt, prod, O, z, ai. cbv zeta.
  repeat (split; [assumption || reflexivity|]). assumption.
Qed.

End attention_inverse.

Lemma scatter_add_values self ai src S H O N out :
  shape self = [N; H; O] -> lshape ai = [S; H; O] -> shape src = [S; H; O] ->
  scatter_add_ self 0 ai src = Ok out ->
  shape out = [N; H; O]
  ∧ forall g hd o, g < N -> hd < H -> o < O ->
      val out [g; hd; o]
      = Rplus (val self [g; hd; o])
          (Rsum ((fun j => val src [j; hd; o])
                   <$> filter (fun j => lval ai [j; hd; o] = Z.of_nat g) (seq 0 S))).
Proof.
  intros Hself Hai Hsrc. unfold scatter_add_, ndim, size.
  rewrite Hself, Hai, Hsrc. cbn [length].
  change (wrap_dim 3 0) with (Ok 0 : result nat). cbn [mbind result_bind].
  destruct (decide _) as [_|_]; [|discriminate].
  destruct (decide _) as [_|_]; [|discriminate].
  intros [= <-]. cbn [shape val]. split; [reflexivity|].
  intros g hd o Hg Hh Ho. f_equal.
  destruct (decide _) as [_|Hno].
  - reflexivity.
  - exfalso. apply Hno. cbn. repeat constructor; lia.
Qed.

Section attention_values.
Variable epsilon : R.

(** X11.  The attended values.  Row [g] of [out] is, per head and output
    feature, the sum over the queries of group [g] of the entry of [v]
    times the weight of the query; a group without queries gets zero. *)
Theorem attention_output_accumulates
    (h : gmap nat object) q k v index qt kt vt ix S H E Ek O dim_size dropout_p keep :
  attention_inputs_ok h q k v index qt kt vt ix S H E Ek O dim_size ->
  (dropout_p <= 1)%R ->
  let N := Z.to_nat (maybe_num_nodes ix dim_size) in
  exists h' out alpha,
    sparse_multi_head_attention epsilon q k v index dim_size dropout_p keep h
    = (h', Ok (out, alpha))
    ∧ shape out = [N; H; O]
    ∧ forall g hd o, g < N -> hd < H -> o < O ->
        val out [g; hd; o]
        = Rsum ((fun s => Rmult (val vt [s; hd; o]) (val alpha [s; hd]))
                  <$> group_members ix (Z.of_nat g)).
Proof.
  intros Hok Hp N.
  destruct (attention_run epsilon _ _ _ _ _ _ _ _ _ _ _ _ _ _ _ _ keep Hok Hp)
    as (scores & a0 & alpha & w & prod & out & _ & _ & _ & _ & _ & _ & _
        & Hps & Hpv & Hrun).
  exists (<[v:=FloatObj prod]> h), out, alpha. split; [exact Hrun|].
  apply attention_inv in Hrun
    as (qt' & B & H' & E' & ix' & kt' & qk & s & a0' & w' & vt' & prod' & O' & z & ai
        & Hq' & Hqs' & Hi' & _ & _ & _ & _ & _ & _ & _ & _ & _ & Hh & HO & Hz & Hai
        & Hout).
  destruct Hok as (Hq & _ & _ & Hi & Hqs & _ & _ & _ & _ & Hl & Hpos & Hn).
  rewrite Hq in Hq'. injection Hq' as <-. rewrite Hqs in Hqs'.
  injection Hqs' as <- <- <-. rewrite Hi in Hi'. injection Hi' as <-.
  assert (prod' = prod) as ->.
  { apply (f_equal (fun m : gmap nat object => m !! v)) in Hh.
    rewrite !lookup_insert_eq in Hh. congruence. }
  assert (O' = O) as ->.
  { assert (size_of prod 2 = Ok O) as HO'.
    { unfold size_of, ndim, size. rewrite Hps. reflexivity. }
    congruence. }
  destruct (maybe_num_nodes_bounds ix dim_size Hpos Hn) as [HN Hix].
  rewrite zeros_ok in Hz by (repeat constructor; lia). injection Hz as <-.
  destruct (broadcast_index prod ix 0 0) as (ai' & Hai' & Hais & Haiv).
  { unfold ndim. rewrite Hps. cbn. lia. }
  { unfold ndim. now rewrite Hps. }
  { unfold size. now rewrite Hps. }
  rewrite Hai in Hai'. injection Hai' as <-. rewrite Hps in Hais, Haiv.
  apply (scatter_add_values _ _ _ S H O N) in Hout as [Hos Hov];
    [| cbn; now rewrite !Nat2Z.id | assumption | assumption].
  split; [exact Hos|]. intros g hd o Hg Hh0 Ho. rewrite Hov by assumption.
  cbn [val]. rewrite Rplus_0_l. unfold group_members. rewrite Hl.
  erewrite (filter_ext_elem _ (fun j => nth j ix 0%Z = Z.of_nat g)).
  - f_equal. apply list_fmap_ext. intros i j Hj%list_elem_of_lookup_2.
    apply list_elem_of_filter in Hj as [_ Hj%elem_of_seq].
    apply Hpv; lia.
  - intros j Hj%elem_of_seq. rewrite Haiv by (repeat constructor; lia). reflexivity.
Qed.

(** X12.  Without dropout the weights returned are the grouped softmax
    of the scores, and the score of a query and a head is the dot product
    of its query and key rows divided by the square root of [E]. *)
Theorem attention_scores_are_scaled_dot_products
    (h : gmap nat object) q k v index qt kt vt ix S H E O dim_size dropout_p keep :
  attention_inputs_ok h q k v index qt kt vt ix S H E E O dim_size ->
  ¬ (0 < dropout_p)%R ->
  exists h' out alpha scores,
    sparse_multi_head_attention epsilon q k v index dim_size dropout_p keep h
    = (h', Ok (out, alpha))
    ∧ shape scores = [S; H]
    ∧ (forall i hd, i < S -> hd < H ->
         val scores [i; hd]
         = Rdiv (Rsum ((fun e => Rmult (val qt [i; hd; e]) (val kt [i; hd; e]))
                         <$> seq 0 E))
                (sqrt (INR E)))
    ∧ sparse_softmax epsilon scores ix
        (Some (maybe_num_nodes ix dim_size)) 0 = Ok alpha.
Proof.
  intros Hok Hp.
  destruct (attention_run epsilon _ _ _ _ _ _ _ _ _ _ _ _ _ _ _ dropout_p keep Hok)
    as (scores & a0 & alpha & w & prod & out & _ & _ & _ & _ & _ & _ & _
        & _ & _ & Hrun); [lra|].
  exists (<[v:=FloatObj prod]> h), out, alpha.
  pose proof Hrun as Hinv. apply attention_inv in Hinv
    as (qt' & B & H' & E' & ix' & kt' & qk & s & a0' & w' & vt' & prod' & O' & z & ai
        & Hq' & Hqs' & Hi' & Hk' & Hqk & Hs & Ha0 & Hal & _).
  destruct Hok as (Hq & Hk & _ & Hi & Hqs & Hks & _).
  rewrite Hq in Hq'. injection Hq' as <-. rewrite Hqs in Hqs'.
  injection Hqs' as <- <- <-. rewrite Hi in Hi'. injection Hi' as <-.
  rewrite Hk in Hk'. injection Hk' as <-.
  destruct (Rlt_dec 0 dropout_p); [contradiction|]. subst a0'.
  exists (div_scalar s (sqrt (INR E))). split; [exact Hrun|].
  destruct (pointwise2_same Rmult qt kt) as (qk' & Hqk' & Hqks & Hqkv);
    [congruence|].
  unfold mul in Hqk. rewrite Hqk in Hqk'. injection Hqk' as <-.
  rewrite Hqs in Hqks, Hqkv.
  unfold tsum, ndim in Hs. rewrite Hqks in Hs. cbn in Hs. injection Hs as <-.
  split; [reflexivity|]. split; [|exact Ha0].
  intros i hd Hi0 Hh0. cbn [val div_scalar pointwise]. unfold Rdiv. f_equal.
  unfold fibre, size. rewrite Hqks. cbn [nth]. f_equal.
  apply list_fmap_ext. intros pos e He%list_elem_of_lookup_2%elem_of_seq.
  cbn. apply Hqkv. repeat constructor; lia.
Qed.

(** X13.  A query tensor that is not three-dimensional cannot be
    unpacked into [B, H, E]: the call raises and writes nothing. *)
Theorem attention_requires_rank_three
    (h : gmap nat object) q k v index qt dim_size dropout_p keep :
  h !! q = Some (FloatObj qt) -> ndim qt ≠ 3 ->
  exists e,
    sparse_multi_head_attention epsilon q k v index dim_size dropout_p keep h
    = (h, Raise e).
Proof.
  intros Hq Hn. exists (ValueError "unpack"). unfold sparse_multi_head_attention.
  rewrite (run_load_float _ _ _ _ Hq). unfold ndim in Hn.
  destruct (shape qt) as [|a [|b [|c [|d l]]]]; cbn in Hn; try reflexivity. lia.
Qed.

(** X14.  A dropout probability above one is rejected by [F.dropout];
    this happens before [v] is scaled, so the store is left as it was. *)
Theorem attention_rejects_large_dropout
    (h : gmap nat object) q k v index qt kt vt ix S H E Ek O dim_size dropout_p keep :
  attention_inputs_ok h q k v index qt kt vt ix S H E Ek O dim_size ->
  (1 < dropout_p)%R ->
  exists e,
    sparse_multi_head_attention epsilon q k v index dim_size dropout_p keep h
    = (h, Raise e).
Proof.
  intros Hok Hp. exists (ValueError "dropout probability").
  destruct (attention_run epsilon _ _ _ _ _ _ _ _ _ _ _ _ _ _ _ 0%R keep Hok)
    as (scores & a0 & alpha & w & prod & out & _ & _ & _ & _ & _ & _ & _
        & _ & _ & Hrun); [lra|].
  apply attention_inv in Hrun
    as (qt' & B & H' & E' & ix' & kt' & qk & s & a0' & w' & vt' & prod' & O' & z & ai
        & Hq' & Hqs' & Hi' & Hk' & Hqk & Hs & Ha0 & _).
  unfold sparse_multi_head_attention.
  rewrite (run_load_float _ _ _ _ Hq'), Hqs'. cbn [unpack3].
  rewrite run_lift_Ok. cbv beta iota.
  rewrite (run_load_long _ _ _ _ Hi'), (run_load_float _ _ _ _ Hk').
  rewrite Hqk, run_lift_Ok, Hs, run_lift_Ok, Ha0, run_lift_Ok.
  destruct (Rlt_dec 0 dropout_p); [|lra]. unfold dropout.
  destruct (Rlt_dec dropout_p 0); [lra|]. destruct (Rlt_dec 1 dropout_p); [|lra].
  reflexivity.
Qed.

End attention_values.

Lemma example_attention_store_ok :
  attention_inputs_ok example_attention_store 0 1 2 3
    (tensor3 [[[1; 2]]; [[3; 4]]; [[5; 6]]]%R)
    (tensor3 [[[1; 0]]; [[0; 1]]; [[1; 1]]]%R)
    (tensor3 [[[10]]; [[20]]; [[30]]]%R) [0; 2; 0]%Z 3 1 2 2 1 None.
Proof.
  apply example_store_ok; auto. repeat constructor; lia.
Defined.

Lemma attention_output_accumulates_witness :
  exists h' out alpha,
    sparse_multi_head_attention epsilon_default 0 1 2 3 None 0 (fun _ => true)
      example_attention_store = (h', Ok (out, alpha))
    ∧ shape out = [3; 1; 1]
    ∧ val out [0; 0; 0]
      = Rplus (Rmult 10 (val alpha [0; 0])) (Rplus (Rmult 30 (val alpha [2; 0])) 0)
    ∧ val out [1; 0; 0] = 0%R.
Proof.
  destruct (attention_output_accumulates epsilon_default _ _ _ _ _ _ _ _ _ _ _ _ _ _
              None 0%R (fun _ => true) example_attention_store_ok)
    as (h' & out & alpha & Hrun & Hs & Hv); [lra|].
  exists h', out, alpha. split; [exact Hrun|]. split; [exact Hs|].
  split; rewrite Hv by (cbn; lia); reflexivity.
Defined.

Lemma attention_scores_are_scaled_dot_products_witness :
  exists h' out alpha scores,
    sparse_multi_head_attention epsilon_default 0 1 2 3 None 0 (fun _ => true)
      example_attention_store = (h', Ok (out, alpha))
    ∧ val scores [1; 0] = Rdiv (Rplus (Rmult 3 0) (Rplus (Rmult 4 1) 0)) (sqrt (INR 2))
    ∧ sparse_softmax epsilon_default scores [0; 2; 0]%Z (Some 3%Z) 0 = Ok alpha.
Proof.
  destruct (attention_scores_are_scaled_dot_products epsilon_default _ _ _ _ _ _ _ _
              _ _ _ _ _ None 0%R (fun _ => true) example_attention_store_ok)
    as (h' & out & alpha & scores & Hrun & _ & Hv & Hsoft); [lra|].
  exists h', out, alpha, scores. split; [exact Hrun|].
  split; [rewrite Hv by lia; reflexivity | exact Hsoft].
Defined.

Lemma attention_requires_rank_three_witness :
  exists e,
    sparse_multi_head_attention epsilon_default 0 1 2 3 None 0 (fun _ => true)
      (example_store (tensor2 [[1; 2]]%R) (tensor2 [[1; 2]]%R)
                     (tensor2 [[1; 2]]%R) [0]%Z)
    = (example_store (tensor2 [[1; 2]]%R) (tensor2 [[1; 2]]%R)
                     (tensor2 [[1; 2]]%R) [0]%Z,
       Raise e).
Proof.
  apply (attention_requires_rank_three epsilon_default _ 0 1 2 3
           (tensor2 [[1; 2]]%R)); [reflexivity | cbn; lia].
Defined.

Lemma attention_rejects_large_dropout_witness :
  exists e,
    sparse_multi_head_attention epsilon_default 0 1 2 3 None 2 (fun _ => true)
      example_attention_store
    = (example_attention_store, Raise e).
Proof.
  apply (attention_rejects_large_dropout epsilon_default _ _ _ _ _ _ _ _ _ _ _ _ _ _
           None 2%R (fun _ => true) example_attention_store_ok). lra.
Defined.

(** ** The attention kernel: what the weights of a group add up to *)

Lemma softmax_normaliser_ext (col col' : nat -> R) (grp : list nat) :
  (forall j, j ∈ grp -> col j = col' j) ->
  softmax_normaliser col grp = softmax_normaliser col' grp.
Proof.
  intros H. unfold softmax_normaliser.
  assert (col <$> grp = col' <$> grp) as ->.
  { apply list_fmap_ext. intros i j Hj%list_elem_of_lookup_2. now apply H. }
  f_equal. apply list_fmap_ext. intros i j Hj%list_elem_of_lookup_2.
  cbn. now rewrite H.
Qed.

(** The product [q * k], the last dimension of [k] being broadcast when it
    is one. *)
Lemma mul_last_values a b S H E Ek r :
  shape a = [S; H; E] -> shape b = [S; H; Ek] -> Ek = E ∨ Ek = 1 ->
  mul a b = Ok r ->
  shape r = [S; H; E]
  ∧ forall s hd e, s < S -> hd < H -> e < E ->
      val r [s; hd; e]
      = Rmult (val a [s; hd; e])
              (val b [s; hd; if decide (Ek = 1) then 0 else e]).
Proof.
  intros Ha Hb HE. unfold mul, pointwise2.
  rewrite Ha, Hb, broadcast_shapes_last by exact HE.
  cbn [mbind result_bind]. intros [= <-]. split; [reflexivity|].
  intros s hd e Hs Hh He. cbn [val]. unfold bcast_index.
  cbn [length Nat.sub drop zip_with].
  repeat destruct (decide _); repeat f_equal; lia.
Qed.

Section attention_normalisation.
Variable epsilon : R.

(** The scores that a call on inputs of the documented shapes hands to the
    grouped softmax, the weights the softmax returns for them, and the
    weights the call returns. *)
Lemma attention_weights_run
    (h : gmap nat object) q k v index qt kt vt ix S H E Ek O dim_size dropout_p keep :
  attention_inputs_ok h q k v index qt kt vt ix S H E Ek O dim_size ->
  (dropout_p <= 1)%R ->
  let N := maybe_num_nodes ix dim_size in
  exists h' out alpha scores a0,
    sparse_multi_head_attention epsilon q k v index dim_size dropout_p keep h
    = (h', Ok (out, alpha))
    ∧ shape scores = [S; H]
    ∧ (forall s hd, s < S -> hd < H ->
         val scores [s; hd] = attention_score qt kt s hd)
    ∧ group_index_ok scores ix (Some N) 0 0
    ∧ sparse_softmax epsilon scores ix (Some N) 0 = Ok a0
    ∧ shape alpha = [S; H]
    ∧ (if Rlt_dec 0 dropout_p then dropout a0 dropout_p keep = Ok alpha
       else alpha = a0).
Proof.
  intros Hok Hp N.
  destruct (attention_run epsilon _ _ _ _ _ _ _ _ _ _ _ _ _ _ _ dropout_p keep Hok Hp)
    as (scores0 & a00 & alpha & w & prod & out & _ & _ & _ & _ & Hals & _ & _
        & _ & _ & Hrun).
  exists (<[v:=FloatObj prod]> h), out, alpha.
  pose proof Hrun as Hinv. apply attention_inv in Hinv
    as (qt' & B & H' & E' & ix' & kt' & qk & s & a0 & w' & vt' & prod' & O' & z & ai
        & Hq' & Hqs' & Hi' & Hk' & Hqk & Hs & Ha0 & Hal & _).
  destruct Hok as (Hq & Hk & _ & Hi & Hqs & Hks & HE & _ & HH & Hl & Hpos & Hn).
  rewrite Hq in Hq'. injection Hq' as <-. rewrite Hqs in Hqs'.
  injection Hqs' as <- <- <-. rewrite Hi in Hi'. injection Hi' as <-.
  rewrite Hk in Hk'. injection Hk' as <-.
  destruct (maybe_num_nodes_bounds ix dim_size Hpos Hn) as [HN Hix].
  destruct (mul_last_values qt kt S H E Ek qk Hqs Hks HE Hqk) as [Hqks Hqkv].
  exists (div_scalar s (sqrt (INR E))), a0.
  unfold tsum, ndim in Hs. rewrite Hqks in Hs. cbn in Hs. injection Hs as <-.
  split; [exact Hrun|]. split; [reflexivity|].
  split; [|split; [|split; [exact Ha0|split; [exact Hals|exact Hal]]]].
  - intros i hd Hi0 Hh0. cbn [val div_scalar pointwise].
    unfold attention_score, size. rewrite Hqs, Hks. cbn [nth].
    unfold Rdiv. f_equal. unfold fibre, size. rewrite Hqks. cbn [nth]. f_equal.
    apply list_fmap_ext. intros pos e He%list_elem_of_lookup_2%elem_of_seq.
    cbn. apply Hqkv; lia.
  - unfold group_index_ok, ndim, size. cbn [shape div_scalar pointwise length nth].
    split; [lia|]. split; [reflexivity|]. split; [exact Hl|].
    split; [exact Hpos|]. intros ? [= <-]. split; [exact HN|].
    eapply Forall_impl; [exact Hix|]. cbn. intros; lia.
Qed.

(** Claim C7, as the code computes it in exact arithmetic.  The theorem is
    about the formula of the code evaluated over the real numbers, for a
    non-negative [epsilon]; it says nothing of the rounding of a floating
    format.

    Over every non-empty group of every column, the outputs of
    [sparse_softmax] add up to [T / (T + epsilon)], where [T], the sum over
    the group of the exponentials [exp (src_j - max)], is at least one: the
    sum falls short of one by [epsilon / (T + epsilon)].

    A call of [sparse_multi_head_attention] on inputs of the documented
    shapes, with a positive embedding size [E] and [dropout_p <= 1],
    returns; the weights [a0] that the grouped softmax computes from the
    scores add up to [T / (T + epsilon)] within every non-empty group and
    head, [T] being taken over the scores of the group.  The weights
    returned are [a0] when [dropout_p <= 0]; when [dropout_p > 0] each
    returned weight is what dropout makes of the entry of [a0]: zero, or
    the entry divided by [1 - dropout_p]. *)
Theorem attention_weights_normalised :
  (0 <= epsilon)%R ->
  (forall src index num_nodes dim d,
     group_index_ok src index num_nodes dim d ->
     exists out, sparse_softmax epsilon src index num_nodes dim = Ok out
       ∧ forall idx g, in_bounds (shape src) idx ->
           group_members index g ≠ [] ->
           let T := softmax_normaliser (column src d idx) (group_members index g) in
           (1 <= T)%R
           ∧ Rsum (column out d idx <$> group_members index g)
             = (T / (T + epsilon))%R)
  ∧ (forall (h : gmap nat object) q k v index qt kt vt ix S H E Ek O
            dim_size dropout_p keep,
       attention_inputs_ok h q k v index qt kt vt ix S H E Ek O dim_size ->
       0 < E ->
       (dropout_p <= 1)%R ->
       exists h' out alpha a0,
         sparse_multi_head_attention epsilon q k v index dim_size dropout_p keep h
         = (h', Ok (out, alpha))
         ∧ shape alpha = [S; H]
         ∧ (forall g hd, hd < H -> group_members ix g ≠ [] ->
              let T := softmax_normaliser (fun s => attention_score qt kt s hd)
                                          (group_members ix g) in
              (1 <= T)%R
              ∧ Rsum ((fun s => val a0 [s; hd]) <$> group_members ix g)
                = (T / (T + epsilon))%R)
         ∧ (forall s hd, s < S -> hd < H ->
              val alpha [s; hd]
              = if Rlt_dec 0 dropout_p
                then dropout_value dropout_p keep [s; hd] (val a0 [s; hd])
                else val a0 [s; hd])).
Proof.
  intros He. split.
  - intros src index num_nodes dim d Hok.
    destruct (sparse_softmax_value epsilon _ _ _ _ _ Hok) as (out & Ho & _).
    exists out. split; [exact Ho|]. intros idx g Hidx Hne.
    eapply sparse_softmax_group_total; eassumption.
  - intros h q k v index qt kt vt ix S H E Ek O dim_size dropout_p keep Hok HE Hp.
    destruct (attention_weights_run _ _ _ _ _ _ _ _ _ _ _ _ _ _ _ _ keep Hok Hp)
      as (h' & out & alpha & scores & a0 & Hrun & Hss & Hsv & Hgok & Ha0 & Hals & Hal).
    exists h', out, alpha, a0. split; [exact Hrun|]. split; [exact Hals|]. split.
    + intros g hd Hhd Hne.
      assert (0 < S) as HS.
      { destruct Hok as (_ & _ & _ & _ & _ & _ & _ & _ & _ & Hl & _).
        destruct (group_members ix g) as [|j l] eqn:Eg; [congruence|].
        assert (j ∈ group_members ix g) as Hj by (rewrite Eg; left).
        apply group_members_lt in Hj. lia. }
      pose proof (sparse_softmax_group_total epsilon scores ix _ 0 0 a0 [0; hd] g
                    Hgok Ha0) as Hsum.
      rewrite Hss in Hsum.
      specialize (Hsum ltac:(repeat constructor; assumption) Hne).
      cbv zeta in Hsum |- *.
      rewrite (softmax_normaliser_ext (fun s => attention_score qt kt s hd)
                 (column scores 0 [0; hd])).
      * exact Hsum.
      * intros j Hj. unfold column. cbn [list_insert insert]. symmetry.
        apply Hsv; [|exact Hhd].
        apply group_members_lt in Hj.
        destruct Hok as (_ & _ & _ & _ & _ & _ & _ & _ & _ & Hl & _). lia.
    + intros s hd Hs Hhd. destruct (Rlt_dec 0 dropout_p).
      * revert Hal. unfold dropout, dropout_value.
        destruct (Rlt_dec dropout_p 0); [discriminate|].
        destruct (Rlt_dec 1 dropout_p); [discriminate|].
        intros [= <-]. reflexivity.
      * now subst alpha.
Qed.

End attention_normalisation.

Lemma attention_weights_normalised_witness :
  (exists out,
     sparse_softmax epsilon_default example_src example_index None (-2) = Ok out
     ∧ let T := softmax_normaliser (column example_src 0 [0; 0]) [0; 2] in
       (1 <= T)%R
       ∧ Rsum (column out 0 [0; 0] <$> [0; 2]) = (T / (T + epsilon_default))%R)
  ∧ (let q := tensor3 [[[1]]; [[1]]]%R in
     let h := example_store q q q [0; 0]%Z in
     exists h' out alpha a0,
       sparse_multi_head_attention epsilon_default 0 1 2 3 None (1 / 2)
         (fun _ => true) h
       = (h', Ok (out, alpha))
       ∧ (let T := softmax_normaliser (fun s => attention_score q q s 0) [0; 1] in
          (1 <= T)%R
          ∧ Rsum ((fun s => val a0 [s; 0]) <$> [0; 1])
            = (T / (T + epsilon_default))%R)
       ∧ val alpha [0; 0] = Rmult 2 (val a0 [0; 0])).
Proof.
  destruct (attention_weights_normalised epsilon_default epsilon_default_nonneg)
    as [Hsoft Hatt].
  split.
  - destruct (Hsoft _ _ _ _ _ example_group_index_ok) as (out & Ho & Hsum).
    exists out. split; [exact Ho|].
    apply (Hsum [0; 0] 0%Z); [repeat constructor; lia | discriminate].
  - intros q h.
    destruct (Hatt h 0 1 2 3 q q q [0; 0]%Z 2 1 1 1 1 None (1 / 2)%R (fun _ => true))
      as (h' & out & alpha & a0 & Hrun & _ & Hsum & Hdrop).
    + apply example_store_ok; auto. repeat constructor; lia.
    + lia.
    + lra.
    + exists h', out, alpha, a0. split; [exact Hrun|]. split.
      * apply (Hsum 0%Z 0); [lia | discriminate].
      * rewrite (Hdrop 0 0) by lia. destruct (Rlt_dec 0 (1 / 2)); [|lra].
        unfold dropout_value. destruct (Req_dec_T (1 / 2) 1); [lra|].
        destruct (Req_dec_T (1 / 2) 0); [lra|]. lra.
Defined.

(** ** The grouped softmax on float32 tensors *)

Lemma broadcast32_index src index dim d :
  0 < ndim32 src -> wrap_dim (ndim32 src) dim = Ok d ->
  length index = size32 src d ->
  exists ei, broadcast32 index src dim = Ok ei
    ∧ lshape ei = shape32 src
    ∧ forall idx, in_bounds (shape32 src) idx ->
        lval ei idx = nth (nth d idx 0) index 0%Z.
Proof.
  intros Hn Hw Hl.
  exact (broadcast_index (mkTensor (shape32 src) (fun _ => 0%R)) index dim d Hn Hw Hl).
Qed.

Lemma scatter32_gather t ei index dim d N r :
  0 < ndim32 t -> wrap_dim (ndim32 t) dim = Ok d ->
  lshape ei = shape32 t -> length index = size32 t d ->
  (forall idx, in_bounds (shape32 t) idx -> lval ei idx = nth (nth d idx 0) index 0%Z) ->
  (0 <= N)%Z -> Forall (fun g => (0 <= g < N)%Z) index ->
  exists r', (scatter32 t ei dim N r ≫= fun s => index_select32 s dim index) = Ok r'
    ∧ shape32 r' = shape32 t
    ∧ forall idx, in_bounds (shape32 t) idx ->
        val32 r' idx = reduce_list32 r
          (column32 t d idx <$> group_members index (nth (nth d idx 0) index 0%Z)).
Proof.
  intros Hn Hw Hsh Hl Hei HN Hix. pose proof (wrap_dim_lt _ _ _ Hw Hn) as Hd.
  unfold ndim32 in Hd. unfold scatter32. rewrite Hw. cbn [mbind result_bind].
  destruct (decide (lshape ei ≠ shape32 t)); [contradiction|].
  destruct (decide (N < 0)%Z); [lia|].
  destruct (decide _) as [_|Hno].
  2:{ exfalso. apply Hno. apply Forall_forall. intros idx Hidx.
      apply all_indices_in_bounds in Hidx. rewrite Hei by exact Hidx.
      apply (Forall_nth_Z _ _ _ Hix). rewrite Hl.
      apply in_bounds_nth; assumption. }
  cbn [mbind result_bind]. unfold index_select32, ndim32. cbn [shape32 val32].
  rewrite length_insert. fold (ndim32 t). rewrite Hw. cbn [mbind result_bind].
  destruct (decide _) as [_|Hno].
  2:{ exfalso. apply Hno. eapply Forall_impl; [exact Hix|]. intros g Hg.
      cbv beta in Hg. unfold size32. cbn [shape32].
      rewrite nth_insert_eq by exact Hd. lia. }
  eexists. split; [reflexivity|]. cbn [shape32 val32]. split.
  { rewrite list_insert_insert_eq, Hl. apply insert_nth_id. }
  intros idx Hidx. f_equal.
  pose proof (in_bounds_length _ _ Hidx) as Hli.
  assert (nth d idx 0 < length index) as Hlt.
  { rewrite Hl. apply in_bounds_nth; assumption. }
  pose proof (Forall_nth_Z _ _ _ Hix Hlt) as Hg. cbn in Hg.
  rewrite alter_as_insert. unfold members.
  rewrite nth_insert_eq by lia. rewrite Z2Nat.id by lia.
  unfold group_members. rewrite <- Hl.
  erewrite (filter_ext_elem _ (fun j => nth j index 0%Z = nth (nth d idx 0) index 0%Z)).
  - apply list_fmap_ext. intros i j _. unfold column32.
    now rewrite list_insert_insert_eq.
  - intros j Hj%elem_of_seq. rewrite list_insert_insert_eq, Hei.
    + rewrite nth_insert_eq by lia. reflexivity.
    + apply in_bounds_insert_l; [assumption|]. unfold size32 in Hl. lia.
Qed.

Lemma pointwise2_32_same f a b :
  shape32 b = shape32 a ->
  exists r, pointwise2_32 f a b = Ok r ∧ shape32 r = shape32 a
    ∧ forall idx, in_bounds (shape32 a) idx -> val32 r idx = f (val32 a idx) (val32 b idx).
Proof.
  intros H. unfold pointwise2_32. rewrite H, broadcast_shapes_same.
  eexists. split; [reflexivity|]. split; [reflexivity|]. cbn.
  intros idx Hidx. now rewrite bcast_index_id.
Qed.

Section softmax32_value.
Variable exp32 : f32 -> f32.
Variable epsilon : f32.

(** On float32 tensors the kernel returns, and computes the expression it
    computes over the reals with every operation rounded: the maximum of
    the group, the exponentials of the differences, their sum accumulated
    in index order, and the quotient by that sum plus [epsilon]. *)
Lemma sparse_softmax32_value src index num_nodes dim d :
  group_index32_ok src index num_nodes dim d ->
  exists out, sparse_softmax32 exp32 epsilon src index num_nodes dim = Ok out
    ∧ shape32 out = shape32 src
    ∧ forall idx, in_bounds (shape32 src) idx ->
        let grp := group_members index (nth (nth d idx 0) index 0%Z) in
        let m := reduce_list32 ReduceMax (column32 src d idx <$> grp) in
        val32 out idx
        = f32_div (exp32 (f32_sub (val32 src idx) m))
            (f32_add (reduce_list32 ReduceSum
                        ((fun j => exp32 (f32_sub (column32 src d idx j) m)) <$> grp))
                     epsilon).
Proof.
  intros (Hn & Hw & Hl & Hpos & Hnn).
  destruct (maybe_num_nodes_bounds index num_nodes Hpos Hnn) as [HN Hix].
  pose proof (wrap_dim_lt _ _ _ Hw Hn) as Hd. unfold ndim32 in Hd.
  unfold sparse_softmax32.
  destruct (broadcast32_index _ _ _ _ Hn Hw Hl) as (ei & -> & Hes & Hev).
  cbn [mbind result_bind]. rewrite <- bind_assoc.
  destruct (scatter32_gather src ei index dim d _ ReduceMax Hn Hw Hes Hl Hev HN Hix)
    as (smax & -> & Hms & Hmv).
  cbn [mbind result_bind]. unfold sub32.
  destruct (pointwise2_32_same f32_sub src smax Hms) as (diff & -> & Hds & Hdv).
  cbn [fmap result_fmap mbind result_bind]. rewrite <- bind_assoc.
  assert (shape32 (pointwise32 exp32 diff) = shape32 src) as Hos by exact Hds.
  destruct (scatter32_gather (pointwise32 exp32 diff) ei index dim d
              (maybe_num_nodes index num_nodes) ReduceSum)
    as (ssum & -> & Hss & Hsv); try assumption.
  { unfold ndim32. now rewrite Hos. }
  { unfold ndim32. now rewrite Hos. }
  { now rewrite Hos. }
  { unfold size32. now rewrite Hos. }
  { now rewrite Hos. }
  cbn [mbind result_bind]. unfold div32.
  destruct (pointwise2_32_same f32_div (pointwise32 exp32 diff)
              (add_scalar32 ssum epsilon))
    as (out & -> & Hrs & Hrv); [cbn; congruence|].
  exists out. split; [reflexivity|]. split; [congruence|].
  intros idx Hidx. cbv zeta. rewrite Hrv by (now rewrite Hos).
  cbn [val32 add_scalar32 pointwise32]. rewrite Hsv by (now rewrite Hos).
  rewrite Hdv, Hmv by assumption. f_equal. f_equal. f_equal.
  apply list_fmap_ext. intros i j Hj.
  apply list_elem_of_lookup_2 in Hj.
  pose proof (group_members_lt _ _ _ Hj) as Hjl.
  pose proof (group_members_group _ _ _ Hj) as Hjg.
  assert (in_bounds (shape32 src) (<[d:=j]> idx)) as Hb.
  { apply in_bounds_insert_l; [assumption|]. unfold size32 in Hl. lia. }
  pose proof (in_bounds_length _ _ Hidx) as Hli.
  unfold column32 at 1. cbn [val32 pointwise32]. rewrite Hdv, Hmv by assumption.
  rewrite nth_insert_eq by lia. rewrite Hjg. unfold column32. f_equal. f_equal.
  f_equal. apply list_fmap_ext. intros i' j' _.
  now rewrite list_insert_insert_eq.
Qed.

End softmax32_value.

Lemma nth_replicate_default {A} (n j : nat) (x : A) : nth j (replicate n x) x = x.
Proof.
  revert j. induction n as [|n IH]; intros [|j]; cbn; auto.
Qed.

Lemma Rsum_constant {A} (f : A -> R) (l : list A) (c : R) :
  (forall x, x ∈ l -> f x = c) -> Rsum (f <$> l) = (INR (length l) * c)%R.
Proof.
  induction l as [|x l IH]; intros H.
  - cbn. lra.
  - rewrite fmap_cons, length_cons, S_INR.
    change (Rsum (f x :: (f <$> l))) with (f x + Rsum (f <$> l))%R.
    rewrite IH by (intros y Hy; apply H; now right).
    rewrite (H x) by left. lra.
Qed.

Lemma f32_value_finite (m : positive) (e : positive) :
  f32_value (SpecFloat.S754_finite false m (Zneg e))
  = (IZR (Zpos m) / IZR (2 ^ Zpos e))%R.
Proof.
  unfold f32_value. cbn [SpecFloat.cond_Zopp]. unfold Rdiv. f_equal.
  change (Zneg e) with (- Zpos e)%Z. rewrite powerRZ_neg'. f_equal.
  symmetry. apply Zpower_pos_powerRZ.
Qed.

(** [tsl.epsilon] in float32 is 14073749 / 2^48, a little above 5e-8. *)
Lemma epsilon32_value :
  epsilon32 = SpecFloat.S754_finite false 14073749 (-48)
  ∧ f32_value epsilon32 = (14073749 / 281474976710656)%R.
Proof.
  assert (epsilon32 = SpecFloat.S754_finite false 14073749 (-48)) as H
    by reflexivity.
  split; [exact H|]. rewrite H, f32_value_finite. reflexivity.
Qed.

(** Both readings of the tolerance, the constant 5e-8 and its float32
    rounding, are below 5.1e-8. *)
Lemma tolerance_small (eps : R) :
  eps = epsilon_default ∨ eps = f32_value epsilon32 -> (eps < 51 / 1000000000)%R.
Proof.
  intros [-> | ->].
  - unfold epsilon_default. lra.
  - destruct epsilon32_value as [_ ->]. lra.
Qed.

(** Thirty equal scores in one group, in float32.  Every difference to the
    maximum is zero and every exponential is one; their sum is 30, which
    [epsilon32] is too small to change: 30 + epsilon32 rounds back to 30.
    Every weight is 1 / 30 rounded to float32, that is 8947849 / 2^28. *)
Lemma equal_scores32_weights (exp32 : f32 -> f32) :
  exp32 (SpecFloat.S754_zero false) = f32_of_Z 1 ->
  exists out,
    sparse_softmax32 exp32 epsilon32 equal_scores32 one_group None (-2) = Ok out
    ∧ forall j, j < 30 ->
        val32 out [j; 0] = SpecFloat.S754_finite false 8947849 (-28).
Proof.
  intros Hexp.
  destruct (sparse_softmax32_value exp32 epsilon32 equal_scores32 one_group None (-2) 0)
    as (out & Ho & _ & Hv).
  { split; [cbn; lia|]. split; [reflexivity|]. split; [reflexivity|].
    split; [|intros n [=]]. apply Forall_forall.
    intros g Hg%elem_of_replicate. lia. }
  exists out. split; [exact Ho|]. intros j Hj. rewrite Hv.
  2:{ constructor; [exact Hj|]. constructor; [lia|]. constructor. }
  cbv zeta. cbn [nth].
  assert (nth j one_group 0%Z = 0%Z) as -> by apply nth_replicate_default.
  change (group_members one_group 0%Z) with (seq 0 30).
  unfold column32. cbn [val32 equal_scores32].
  change (reduce_list32 ReduceMax ((fun _ : nat => f32_of_Z 1) <$> seq 0 30))
    with (f32_of_Z 1).
  change (f32_sub (f32_of_Z 1) (f32_of_Z 1)) with (SpecFloat.S754_zero false).
  rewrite Hexp. reflexivity.
Qed.

(** The tolerance of claim C7 fails, in two ways.

    In float32, for thirty equal scores in one group and whatever
    [torch.exp] returns away from zero: the thirty weights that
    [sparse_softmax] returns add up to 1 + 7 / 2^27, which is more than
    [epsilon] above one, be [epsilon] the constant 5e-8 or its float32
    rounding; added up in float32 in index order they give 1 + 3 / 2^23.

    With dropout, over the reals: for [dropout_p = 1/2] and a group of one
    element, the returned weight is 0 when the element is dropped and
    [2 / (1 + epsilon)] when it is kept; neither is within [epsilon] of
    one. *)
Lemma normalisation_tolerance_fails :
  (forall exp32 : f32 -> f32,
     exp32 (SpecFloat.S754_zero false) = f32_of_Z 1 ->
     exists out,
       sparse_softmax32 exp32 epsilon32 equal_scores32 one_group None (-2) = Ok out
       ∧ group_members one_group 0%Z ≠ []
       ∧ forall eps, eps = epsilon_default ∨ eps = f32_value epsilon32 ->
           ¬ near_one eps
               (Rsum ((fun j => f32_value (val32 out [j; 0]))
                        <$> group_members one_group 0%Z))
           ∧ ¬ near_one eps
                 (f32_value (reduce_list32 ReduceSum
                               ((fun j => val32 out [j; 0])
                                  <$> group_members one_group 0%Z))))
  ∧ (let q := tensor3 [[[1]]]%R in
     let h := example_store q q q [0]%Z in
     let weights_sum keep :=
       match (sparse_multi_head_attention epsilon_default 0 1 2 3 None (1 / 2)
                keep h).2 with
       | Ok (_, alpha) => Some (Rsum ((fun s => val alpha [s; 0])
                                        <$> group_members [0%Z] 0%Z))
       | Raise _ => None
       end in
     group_members [0%Z] 0%Z = [0]
     ∧ (exists x, weights_sum (fun _ => true) = Some x
                  ∧ ¬ near_one epsilon_default x)
     ∧ (exists x, weights_sum (fun _ => false) = Some x
                  ∧ ¬ near_one epsilon_default x)).
Proof.
  split.
  - intros exp32 Hexp.
    destruct (equal_scores32_weights exp32 Hexp) as (out & Ho & Hv).
    exists out. split; [exact Ho|].
    change (group_members one_group 0%Z) with (seq 0 30).
    split; [discriminate|]. intros eps Heps%tolerance_small. split.
    + rewrite (Rsum_constant _ _ (8947849 / 268435456)%R).
      2:{ intros j Hj%elem_of_seq. rewrite Hv by lia.
          rewrite f32_value_finite. reflexivity. }
      unfold near_one. cbn [length seq INR].
      intros Hn. unfold Rabs in Hn. destruct (Rcase_abs _); lra.
    + assert ((fun j => val32 out [j; 0]) <$> seq 0 30
              = (fun _ => SpecFloat.S754_finite false 8947849 (-28)) <$> seq 0 30)
        as ->.
      { apply list_fmap_ext. intros i j Hj%list_elem_of_lookup_2%elem_of_seq.
        apply Hv. lia. }
      change (reduce_list32 ReduceSum
                ((fun _ : nat => SpecFloat.S754_finite false 8947849 (-28))
                   <$> seq 0 30))
        with (SpecFloat.S754_finite false 8388611 (-23)).
      rewrite f32_value_finite. change (2 ^ 23)%Z with 8388608%Z.
      unfold near_one.
      intros Hn. unfold Rabs in Hn. destruct (Rcase_abs _); lra.
  - cbv zeta. split; [reflexivity|]. split.
    + pose proof (single_weight_after_dropout (fun _ => true)) as Hw.
      cbv zeta in Hw. destruct Hw as (out & alpha & -> & Hv).
      eexists. split; [reflexivity|].
      change (group_members [0%Z] 0%Z) with [0]. cbn [fmap list_fmap Rsum foldr].
      rewrite Hv. apply rescaled_weight_far. unfold epsilon_default. lra.
    + pose proof (single_weight_after_dropout (fun _ => false)) as Hw.
      cbv zeta in Hw. destruct Hw as (out & alpha & -> & Hv).
      eexists. split; [reflexivity|].
      change (group_members [0%Z] 0%Z) with [0]. cbn [fmap list_fmap Rsum foldr].
      rewrite Hv. unfold near_one, epsilon_default.
      replace (0 + 0 - 1)%R with (- (1))%R by lra. rewrite Rabs_Ropp, Rabs_R1. lra.
Qed.

(** ** The bidirectional model: construction and the two passes *)

Lemma wrap_dim_time nd : 2 <= nd -> wrap_dim nd 1 = Ok 1.
Proof.
  intros H. unfold wrap_dim. destruct (decide _) as [_|Hno]; [|lia].
  destruct (decide _); [lia | reflexivity].
Qed.

Lemma reverse_tensor_no_time_axis t :
  ndim t < 2 -> reverse_tensor t 1 = Raise IndexError.
Proof.
  intros H. unfold reverse_tensor, size_of.
  destruct (decide (ndim t = 0)); [reflexivity|]. unfold wrap_dim.
  destruct (decide _) as [Hin|_]; [lia | reflexivity].
Qed.

(** What a successful reversal along the time axis, dimension 1, tells. *)
Lemma reverse_tensor_time_inv t r :
  reverse_tensor t 1 = Ok r ->
  2 <= ndim t ∧ shape r = shape t
  ∧ forall idx, in_bounds (shape t) idx -> val r idx = val t (mirror t 1 idx).
Proof.
  intros H. destruct (decide (2 <= ndim t)) as [Hn|Hn].
  - destruct (reverse_tensor_reads t 1 1) as (r' & Hr & Hs & Hv);
      [lia | now apply wrap_dim_time |].
    rewrite H in Hr. injection Hr as <-. auto.
  - rewrite reverse_tensor_no_time_axis in H by lia. discriminate.
Qed.

Lemma removelast_insert_last (sh : list nat) (x : nat) :
  removelast (<[length sh - 1 := x]> sh) = removelast sh.
Proof.
  induction sh as [|a sh _] using rev_ind; [reflexivity|].
  rewrite length_app. cbn [length].
  replace (length sh + 1 - 1) with (length sh + 0) by lia.
  rewrite insert_app_r. cbn. now rewrite !removelast_last.
Qed.

(** [torch.cat(tensors, -1)] keeps every dimension of the first tensor
    but the last. *)
Lemma cat_last_shape (t0 : Tensor) (rest : list (option Tensor)) (c : Tensor) :
  cat (Some t0 :: rest) (-1) = Ok c ->
  removelast (shape c) = removelast (shape t0).
Proof.
  unfold cat. destruct (decide (Exists _ _)) as [|_]; [discriminate|]. intros H.
  apply bind_returns in H as (d & Hd & H).
  destruct (decide (ndim t0 = 0)) as [|Hn]; [discriminate|].
  destruct (decide _) as [_|]; [|discriminate]. injection H as <-. cbn [shape].
  destruct (ndim t0) as [|nd] eqn:En; [contradiction|].
  rewrite wrap_dim_last in Hd. injection Hd as <-.
  replace nd with (length (shape t0) - 1) by (unfold ndim in En; lia).
  apply removelast_insert_last.
Qed.

Lemma Linear_forward_shape l x y :
  Linear_forward l x = Ok y ->
  exists front, shape x = front ++ [in_features l]
    ∧ shape y = front ++ [out_features l].
Proof.
  unfold Linear_forward. destruct (reverse (shape x)) as [|n rsh] eqn:E;
    [discriminate|].
  destruct (decide _) as [->|_]; [|discriminate]. intros [= <-]. cbn [shape].
  exists (reverse rsh). rewrite reverse_cons. split; [|reflexivity].
  rewrite <- (reverse_involutive (shape x)), E, reverse_cons. reflexivity.
Qed.

Lemma dropout_shape input p keep out :
  dropout input p keep = Ok out -> shape out = shape input.
Proof.
  unfold dropout. destruct (Rlt_dec p 0); [discriminate|].
  destruct (Rlt_dec 1 p); [discriminate|]. intros [= <-]. reflexivity.
Qed.

Lemma dropout_none input keep :
  dropout input 0 keep
  = Ok (mkTensor (shape input) (fun idx =>
          if Req_dec_T 0 1 then 0%R
          else if Req_dec_T 0 0 then val input idx
          else if keep idx then (val input idx / (1 - 0))%R else 0%R)).
Proof.
  unfold dropout. destruct (Rlt_dec 0 0); [lra|]. destruct (Rlt_dec 1 0); [lra|].
  reflexivity.
Qed.

Section grin_more.
Context {GRIL Adj State : Type}.
Context (GRIL_init : nat -> config -> result GRIL).
Context (GRIL_forward :
  GRIL -> Tensor -> Adj -> option Tensor -> option Tensor -> option Tensor ->
  result (Tensor * Tensor * Tensor * State)).
Context (init_table : nat -> nat -> R) (init_weight : nat -> nat -> nat -> R)
        (init_bias : nat -> nat -> R).

#[local] Abbreviation init :=
  (init GRIL GRIL_init init_table init_weight init_bias).
#[local] Abbreviation forward := (forward GRIL Adj State GRIL_forward).

(** X15.  With one of the four reducing merge modes and no embedding,
    construction succeeds once both cells are built: the model holds the
    two cells, no embedding, and the reduction named by the mode as its
    output function. *)
Theorem init_reduce_mode_succeeds cfg fwd bwd :
  GRIL_init 0 cfg = Ok fwd -> GRIL_init 1 cfg = Ok bwd ->
  merge_mode cfg ∈ ["mean"; "sum"; "min"; "max"]%string ->
  embedding_size cfg = None ->
  init cfg = Ok (mkModel GRIL fwd bwd None (merge_mode cfg)
                   (TorchFunction (merge_mode cfg)) true).
Proof.
  intros Hf Hb Hm He. unfold grin_model.init. rewrite Hf, Hb, He. cbn.
  destruct (decide (merge_mode cfg = "mlp"%string)) as [E|_].
  { exfalso. rewrite E in Hm.
    repeat (apply elem_of_cons in Hm as [Hm|Hm]; [discriminate|]). inversion Hm. }
  destruct (decide _); [reflexivity | contradiction].
Qed.

(** X16.  With merge mode ["mlp"], an embedding size and a number of
    nodes, construction succeeds once both cells are built.  The first
    linear layer reads [4 * hidden_size + input_size + embedding_size]
    features and writes [ff_size]; the second reads [ff_size] and writes
    [input_size]; the embedding table has one row per node. *)
Theorem init_mlp_with_embedding_succeeds cfg fwd bwd es n :
  GRIL_init 0 cfg = Ok fwd -> GRIL_init 1 cfg = Ok bwd ->
  merge_mode cfg = "mlp"%string ->
  embedding_size cfg = Some es -> n_nodes cfg = Some n ->
  (0 <= es)%Z -> (0 <= n)%Z ->
  (0 <= hidden_size cfg)%Z -> (0 <= input_size cfg)%Z -> (0 <= ff_size cfg)%Z ->
  (0 <= ff_dropout cfg <= 1)%R ->
  exists m lin1 lin2,
    init cfg = Ok m
    ∧ emb GRIL m = Some (mkEmbedding (Z.to_nat n) (Z.to_nat es) init_table)
    ∧ out GRIL m = Sequential lin1 (ff_dropout cfg) lin2
    ∧ Z.of_nat (in_features lin1)
      = (4 * hidden_size cfg + input_size cfg + es)%Z
    ∧ Z.of_nat (out_features lin1) = ff_size cfg
    ∧ Z.of_nat (in_features lin2) = ff_size cfg
    ∧ Z.of_nat (out_features lin2) = input_size cfg.
Proof.
  intros Hf Hb Hm He Hn Hes Hnn Hh Hi Hff Hp. clear GRIL_forward.
  unfold grin_model.init. rewrite Hf, Hb, He, Hn. cbn [mbind result_bind].
  unfold StaticGraphEmbedding_init.
  destruct (decide (0 <= n ∧ 0 <= es)%Z) as [_|Hno]; [|exfalso; apply Hno; lia].
  cbn [fmap result_fmap mbind result_bind].
  destruct (decide (merge_mode cfg = "mlp"%string)); [|contradiction].
  cbn [py_add mbind result_bind]. unfold Linear_init, Dropout_init.
  destruct (decide _) as [_|Hno]; [|exfalso; apply Hno; lia].
  cbn [mbind result_bind].
  destruct (Rlt_dec (ff_dropout cfg) 0); [lra|].
  destruct (Rlt_dec 1 (ff_dropout cfg)); [lra|]. cbn [mbind result_bind].
  destruct (decide _) as [_|Hno]; [|exfalso; apply Hno; lia].
  cbn [mbind result_bind]. do 3 eexists. split; [reflexivity|].
  repeat split; cbn [in_features out_features]; rewrite ?Z2Nat.id by lia;
    reflexivity.
Qed.

(** X17.  The two passes of a forward call that returned.  The forward
    cell ran on [x], [mask] and [u]; the backward cell ran on their
    reversals along the time axis; and the [bwd_out] and [bwd_pred] handed
    back are the outputs of the backward cell reversed in time again. *)
Theorem forward_reverses_backward_pass m x edge_index edge_weight mask u keep
        imp fwd_out bwd_out fwd_pred bwd_pred :
  forward m x edge_index edge_weight mask u keep
    = Ok (imp, (fwd_out, bwd_out, fwd_pred, bwd_pred)) ->
  exists fwd_repr st rev_x rev_mask rev_u raw_out raw_pred raw_repr st',
    GRIL_forward (fwd_gril GRIL m) x edge_index edge_weight mask u
      = Ok (fwd_out, fwd_pred, fwd_repr, st)
    ∧ reverse_tensor x 1 = Ok rev_x
    ∧ reverse_opt mask 1 = Ok rev_mask ∧ reverse_opt u 1 = Ok rev_u
    ∧ GRIL_forward (bwd_gril GRIL m) rev_x edge_index edge_weight rev_mask rev_u
      = Ok (raw_out, raw_pred, raw_repr, st')
    ∧ shape rev_x = shape x
    ∧ (forall idx, in_bounds (shape x) idx ->
         val rev_x idx = val x (mirror x 1 idx))
    ∧ shape bwd_out = shape raw_out
    ∧ (forall idx, in_bounds (shape raw_out) idx ->
         val bwd_out idx = val raw_out (mirror raw_out 1 idx))
    ∧ shape bwd_pred = shape raw_pred
    ∧ (forall idx, in_bounds (shape raw_pred) idx ->
         val bwd_pred idx = val raw_pred (mirror raw_pred 1 idx)).
Proof.
  unfold grin_model.forward. intros H.
  apply bind_returns in H as ([[[fo fp] fr] st] & Hfwd & H).
  apply bind_returns in H as (rx & Hrx & H).
  apply bind_returns in H as (rmask & Hrm & H).
  apply bind_returns in H as (ru & Hru & H).
  apply bind_returns in H as ([[[ro rp] rr] st'] & Hbwd & H).
  apply bind_returns in H as (bo & Hbo & H).
  apply bind_returns in H as (bp & Hbp & H).
  apply bind_returns in H as (br & Hbr & H).
  apply bind_returns in H as (i & _ & E). injection E as <- <- <- <- <-.
  apply reverse_tensor_time_inv in Hbo as (_ & Hbos & Hbov).
  apply reverse_tensor_time_inv in Hbp as (_ & Hbps & Hbpv).
  pose proof (reverse_tensor_time_inv _ _ Hrx) as (_ & Hrxs & Hrxv).
  exists fr, st, rx, rmask, ru, ro, rp, rr, st'.
  repeat (split; [assumption|]). assumption.
Qed.

(** X18.  The input needs a time axis: with fewer than two dimensions the
    forward call raises, whatever the cells do. *)
Theorem forward_requires_time_axis m x edge_index edge_weight mask u keep :
  ndim x < 2 -> raises (forward m x edge_index edge_weight mask u keep).
Proof.
  intros Hn. unfold grin_model.forward.
  apply bind_raises. intros [[[fo fp] fr] st].
  rewrite reverse_tensor_no_time_axis by exact Hn. eexists. reflexivity.
Qed.

Lemma init_mlp_out cfg m :
  init cfg = Ok m -> merge_mode cfg = "mlp"%string ->
  (0 <= input_size cfg)%Z ->
  exists lin1 p lin2, out GRIL m = Sequential lin1 p lin2
    ∧ out_features lin2 = Z.to_nat (input_size cfg).
Proof.
  unfold grin_model.init. intros H Hm Hi.
  apply bind_returns in H as (fwd & _ & H).
  apply bind_returns in H as (bwd & _ & H).
  apply bind_returns in H as (e & _ & H).
  apply bind_returns in H as (o & Ho & H). injection H as <-. cbn [out].
  destruct (decide (merge_mode cfg = "mlp"%string)); [|contradiction].
  apply bind_returns in Ho as (ic & _ & Ho).
  apply bind_returns in Ho as (lin1 & _ & Ho).
  apply bind_returns in Ho as (p & _ & Ho).
  apply bind_returns in Ho as (lin2 & Hl2 & Ho). injection Ho as <-.
  exists lin1, p, lin2. split; [reflexivity|].
  unfold Linear_init in Hl2. destruct (decide _); [|discriminate].
  injection Hl2 as <-. reflexivity.
Qed.

(** X19.  With merge mode ["mlp"], the imputation of a forward call that
    returned is a tensor: it has the dimensions of the representation of
    the forward cell, except the last one, which is [input_size]. *)
Theorem forward_mlp_imputation_shape cfg m x edge_index edge_weight mask u keep
        imp fwd_out bwd_out fwd_pred bwd_pred :
  init cfg = Ok m -> merge_mode cfg = "mlp"%string ->
  (0 <= input_size cfg)%Z ->
  forward m x edge_index edge_weight mask u keep
    = Ok (imp, (fwd_out, bwd_out, fwd_pred, bwd_pred)) ->
  exists y fwd_repr st,
    GRIL_forward (fwd_gril GRIL m) x edge_index edge_weight mask u
      = Ok (fwd_out, fwd_pred, fwd_repr, st)
    ∧ imp = PyTensor y
    ∧ shape y = removelast (shape fwd_repr) ++ [Z.to_nat (input_size cfg)].
Proof.
  intros Hi Hm Hin H.
  destruct (init_mlp_out cfg m Hi Hm Hin) as (lin1 & p & lin2 & Ho & Hof).
  pose proof (init_merge_mode _ _ _ _ _ _ Hi) as Hmm. rewrite Hm in Hmm.
  unfold grin_model.forward in H.
  apply bind_returns in H as ([[[fo fp] fr] st] & Hfwd & H).
  do 3 (apply bind_returns in H as (? & _ & H)).
  apply bind_returns in H as ([[[ro rp] rr] st'] & _ & H).
  do 2 (apply bind_returns in H as (? & _ & H)).
  apply bind_returns in H as (br & _ & H).
  apply bind_returns in H as (i & H & E). injection E as <- <- <- <- <-.
  destruct (decide _) as [_|Hne]; [|contradiction].
  apply bind_returns in H as (inputs & Hinp & H).
  apply bind_returns in H as (c & Hc & H).
  assert (removelast (shape c) = removelast (shape fr)) as Hcs.
  { destruct (emb GRIL m) as [e|].
    - apply bind_returns in Hinp as (bs & _ & Hinp).
      apply bind_returns in Hinp as (t & _ & Hinp). injection Hinp as <-.
      exact (cat_last_shape _ _ _ Hc).
    - injection Hinp as <-. exact (cat_last_shape _ _ _ Hc). }
  unfold call_out in H. rewrite Ho in H.
  apply bind_returns in H as (h1 & Hh1 & H).
  apply bind_returns in H as (h2 & Hh2 & H).
  apply bind_returns in H as (y & Hy & H). injection H as <-.
  apply Linear_forward_shape in Hh1 as (front & Hcf & Hh1s).
  apply Linear_forward_shape in Hy as (front' & Hh2s & Hys).
  assert (shape h2 = shape h1) as Hsame.
  { destruct (training GRIL m); [apply dropout_shape in Hh2 | injection Hh2 as <-];
      [rewrite Hh2|]; reflexivity. }
  rewrite Hsame, Hh1s in Hh2s. apply app_inj_tail in Hh2s as [-> _].
  rewrite Hcf, removelast_last in Hcs.
  exists y, fr, st. split; [exact Hfwd|]. split; [reflexivity|].
  now rewrite Hys, Hof, Hcs.
Qed.

End grin_more.

Lemma Linear_forward_value l x y front o :
  Linear_forward l x = Ok y ->
  val y (front ++ [o]) = affine l (at_feature x front) o.
Proof.
  unfold Linear_forward. destruct (reverse (shape x)) as [|n rsh]; [discriminate|].
  destruct (decide _) as [_|_]; [|discriminate]. intros [= <-]. cbn [val].
  rewrite last_last, removelast_last. reflexivity.
Qed.

Lemma affine_ext l (f g : nat -> R) o :
  (forall i, i < in_features l -> f i = g i) -> affine l f o = affine l g o.
Proof.
  intros H. unfold affine. f_equal. f_equal. apply list_fmap_ext.
  intros pos i Hi%list_elem_of_lookup_2%elem_of_seq. f_equal. apply H. lia.
Qed.

Lemma dropout_value_ok input p keep out idx :
  dropout input p keep = Ok out ->
  val out idx = dropout_value p keep idx (val input idx).
Proof.
  unfold dropout. destruct (Rlt_dec p 0); [discriminate|].
  destruct (Rlt_dec 1 p); [discriminate|]. intros [= <-]. reflexivity.
Qed.

Lemma insert_end (front : list nat) (j o : nat) :
  <[length front := o]> (front ++ [j]) = front ++ [o].
Proof.
  replace (length front) with (length front + 0) by lia.
  now rewrite insert_app_r.
Qed.

(** [torch.cat] of four tensors along the last dimension, feature by
    feature. *)
Lemma cat_four_features (a b m t c : Tensor) (front : list nat) (j : nat) :
  cat [Some a; Some b; Some m; Some t] (-1) = Ok c ->
  S (length front) = ndim a ->
  j < width a + width b + width m + width t ->
  ndim b = ndim a ∧ ndim m = ndim a ∧ ndim t = ndim a
  ∧ shape c = <[length front := width a + width b + width m + width t]> (shape a)
  ∧ at_feature c front j
    = if decide (j < width a) then at_feature a front j
      else if decide (j < width a + width b) then at_feature b front (j - width a)
      else if decide (j < width a + width b + width m)
           then at_feature m front (j - width a - width b)
           else at_feature t front (j - width a - width b - width m).
Proof.
  intros H Hl Hj. unfold cat in H.
  destruct (decide (Exists _ _)) as [|_]; [discriminate|].
  apply bind_returns in H as (d & Hd & H).
  destruct (decide (ndim a = 0)) as [|_]; [discriminate|].
  destruct (decide _) as [Hall|]; [|discriminate]. injection H as <-.
  rewrite <- Hl, wrap_dim_last in Hd. injection Hd as <-.
  cbn [fmap list_fmap default] in Hall |- *.
  assert (forall x, <[length front:=0]> (shape x) = <[length front:=0]> (shape a) ->
            ndim x = ndim a) as Hnd.
  { intros x E. apply (f_equal length) in E. now rewrite !length_insert in E. }
  inversion Hall as [|? ? _ Hall1]; subst.
  inversion Hall1 as [|? ? Hb Hall2]; subst.
  inversion Hall2 as [|? ? Hm Hall3]; subst.
  inversion Hall3 as [|? ? Ht _]; subst.
  pose proof (Hnd _ Hb) as Hnb. pose proof (Hnd _ Hm) as Hnm.
  pose proof (Hnd _ Ht) as Hnt.
  assert (forall x, ndim x = ndim a -> size x (length front) = width x) as Hw.
  { intros x E. unfold width. rewrite E, <- Hl. f_equal. lia. }
  rewrite !Hw by (reflexivity || assumption).
  split; [exact Hnb|]. split; [exact Hnm|]. split; [exact Hnt|]. cbn [shape].
  split; [f_equal; lia|].
  unfold at_feature. cbn [val]. rewrite nth_end. cbn [locate].
  destruct (decide (j < width a)) as [|H1].
  { cbn [nth]. now rewrite insert_end. }
  destruct (decide (j - width a < width b)) as [|H2].
  { destruct (decide (j < width a + width b)); [|lia].
    cbn [nth]. now rewrite insert_end. }
  destruct (decide (j < width a + width b)); [lia|].
  destruct (decide (j - width a - width b < width m)) as [|H3].
  { destruct (decide (j < width a + width b + width m)); [|lia].
    cbn [nth]. now rewrite insert_end. }
  destruct (decide (j < width a + width b + width m)); [lia|].
  destruct (decide (j - width a - width b - width m < width t)); [|lia].
  cbn [nth]. now rewrite insert_end.
Qed.

Section grin_values.
Context {GRIL Adj State : Type}.
Context (GRIL_forward :
  GRIL -> Tensor -> Adj -> option Tensor -> option Tensor -> option Tensor ->
  result (Tensor * Tensor * Tensor * State)).

#[local] Abbreviation forward := (forward GRIL Adj State GRIL_forward).

(** X20.  The imputation of the ["mlp"] mode, entry by entry.  At the
    leading coordinates [front] the output network reads the features of
    the forward representation, of the backward representation (what the
    backward cell gave, reversed in time), of the mask and of the embedding
    of the node, in this order; the imputation is the second linear layer
    applied to the dropout of the rectified first linear layer.  The first
    layer reads exactly as many features as the four parts have together;
    dropout is applied in training mode only. *)
Theorem forward_mlp_imputation_values m x edge_index edge_weight mk u keep
        e lin1 p lin2 imp fwd_out bwd_out fwd_pred bwd_pred :
  model_merge_mode GRIL m = "mlp"%string -> emb GRIL m = Some e ->
  out GRIL m = Sequential lin1 p lin2 ->
  forward m x edge_index edge_weight (Some mk) u keep
    = Ok (imp, (fwd_out, bwd_out, fwd_pred, bwd_pred)) ->
  exists y fwd_repr bwd_repr,
    imp = PyTensor y
    ∧ (exists st, GRIL_forward (fwd_gril GRIL m) x edge_index edge_weight (Some mk) u
                  = Ok (fwd_out, fwd_pred, fwd_repr, st))
    ∧ (exists rev_x rev_mask rev_u raw_out raw_pred raw_repr st',
         reverse_tensor x 1 = Ok rev_x
         ∧ reverse_opt (Some mk) 1 = Ok rev_mask ∧ reverse_opt u 1 = Ok rev_u
         ∧ GRIL_forward (bwd_gril GRIL m) rev_x edge_index edge_weight rev_mask rev_u
           = Ok (raw_out, raw_pred, raw_repr, st')
         ∧ reverse_tensor raw_repr 1 = Ok bwd_repr)
    ∧ in_features lin1
      = width fwd_repr + width bwd_repr + width mk + emb_size e
    ∧ forall front o, in_bounds (shape y) (front ++ [o]) ->
        val y (front ++ [o])
        = affine lin2
            (fun hh =>
               (if training GRIL m then dropout_value p keep (front ++ [hh])
                else id)
                 (relu_R (affine lin1 (mlp_features fwd_repr bwd_repr mk e front) hh)))
            o.
Proof.
  intros Hmm He Ho H. unfold grin_model.forward in H.
  apply bind_returns in H as ([[[fo fp] fr] st] & Hfwd & H).
  apply bind_returns in H as (rx & Hrx & H).
  apply bind_returns in H as (rmask & Hrm & H).
  apply bind_returns in H as (ru & Hru & H).
  apply bind_returns in H as ([[[ro rp] rr] st'] & Hbwd & H).
  apply bind_returns in H as (bo & Hbo & H).
  apply bind_returns in H as (bp & Hbp & H).
  apply bind_returns in H as (br & Hbr & H).
  apply bind_returns in H as (i & H & E). injection E as <- <- <- <- <-.
  destruct (decide _) as [_|Hne]; [|contradiction]. rewrite He in H.
  apply bind_returns in H as (inputs & Hinp & H).
  apply bind_returns in Hinp as ([b s] & Hbs & Hinp).
  apply bind_returns in Hinp as (t & Ht & Hinp). injection Hinp as <-.
  cbn [app] in H. apply bind_returns in H as (c & Hc & H).
  unfold call_out in H. rewrite Ho in H.
  apply bind_returns in H as (h1 & Hh1 & H).
  apply bind_returns in H as (h2 & Hh2 & H).
  apply bind_returns in H as (y & Hy & H). injection H as <-.
  unfold StaticGraphEmbedding_forward in Ht. injection Ht as <-.
  exists y, fr, br. split; [reflexivity|]. split; [now exists st|].
  split; [exists rx, rmask, ru, ro, rp, rr, st'; auto|].
  (* shapes *)
  pose proof (Linear_forward_shape _ _ _ Hh1) as (front1 & Hcf & Hh1s).
  pose proof (Linear_forward_shape _ _ _ Hy) as (front2 & Hh2s & Hys).
  assert (shape h2 = shape h1) as Hsame.
  { destruct (training GRIL m); [apply dropout_shape in Hh2 | injection Hh2 as <-];
      [rewrite Hh2|]; reflexivity. }
  rewrite Hsame, Hh1s in Hh2s. apply app_inj_tail in Hh2s as [<- _].
  pose proof (cat_last_shape _ _ _ Hc) as Hrl.
  rewrite Hcf, removelast_last in Hrl.
  assert (ndim fr ≠ 0) as Hfr0.
  { unfold cat in Hc. destruct (decide (Exists _ _)); [discriminate|].
    apply bind_returns in Hc as (d & _ & Hc).
    destruct (decide (ndim fr = 0)); [discriminate | assumption]. }
  assert (S (length front1) = ndim fr) as Hlen.
  { rewrite Hrl. unfold ndim in *. destruct (shape fr) as [|a l] using rev_ind;
      [contradiction|]. rewrite removelast_last, length_app. cbn. lia. }
  set (embt := {| shape := [b; s; emb_nodes e; emb_size e];
                  val := fun idx => emb_table e (nth 2 idx 0) (nth 3 idx 0) |}) in *.
  assert (width embt = emb_size e ∧ ndim embt = 4) as [Hwe Hne4] by (split; reflexivity).
  assert (in_features lin1 = width fr + width br + width mk + width embt) as Hin.
  { destruct (decide (0 < width fr + width br + width mk + width embt)) as [Hpos|Hz].
    - destruct (cat_four_features _ _ _ _ _ front1 0 Hc Hlen Hpos)
        as (_ & _ & _ & Hcs & _).
      rewrite Hcf in Hcs. apply (f_equal (fun l => nth (length front1) l 0)) in Hcs.
      rewrite nth_end in Hcs. rewrite Hcs. apply nth_insert_eq. unfold ndim in Hlen. lia.
    - (* all widths are zero *)
      unfold cat in Hc. destruct (decide (Exists _ _)) as [|_]; [discriminate|].
      apply bind_returns in Hc as (d & Hd & Hc).
      destruct (decide (ndim fr = 0)) as [|_]; [contradiction|].
      destruct (decide _) as [Hall|]; [|discriminate]. injection Hc as <-.
      rewrite <- Hlen, wrap_dim_last in Hd. injection Hd as <-.
      cbn [shape] in Hcf. apply (f_equal (fun l => nth (length front1) l 0)) in Hcf.
      rewrite nth_end in Hcf. rewrite nth_insert_eq in Hcf by (unfold ndim in Hlen; lia).
      rewrite <- Hcf. cbn [fmap list_fmap default foldr].
      assert (forall x, <[length front1:=0]> (shape x) = <[length front1:=0]> (shape fr) ->
                size x (length front1) = width x) as Hw.
      { intros x0 E. apply (f_equal length) in E. rewrite !length_insert in E.
        unfold width, ndim. rewrite E. unfold ndim in Hlen. rewrite <- Hlen.
        f_equal. lia. }
      inversion Hall as [|? ? Ha Hall1]; subst.
      inversion Hall1 as [|? ? Hb Hall2]; subst.
      inversion Hall2 as [|? ? Hm Hall3]; subst.
      inversion Hall3 as [|? ? Ht _]; subst.
      rewrite !Hw by assumption. lia. }
  split; [now rewrite Hin, Hwe|].
  intros front o Hidx.
  assert (length front = length front1) as Hlf.
  { apply in_bounds_length in Hidx. rewrite Hys, !length_app in Hidx.
    cbn in Hidx. lia. }
  rewrite (Linear_forward_value _ _ _ front o Hy).
  apply affine_ext. intros hh _. unfold at_feature.
  assert (val h2 (front ++ [hh])
          = (if training GRIL m then dropout_value p keep (front ++ [hh]) else id)
              (relu_R (val h1 (front ++ [hh])))) as ->.
  { destruct (training GRIL m).
    - now rewrite (dropout_value_ok _ _ _ _ _ Hh2).
    - injection Hh2 as <-. reflexivity. }
  f_equal. f_equal. rewrite (Linear_forward_value _ _ _ front hh Hh1).
  apply affine_ext. intros j Hj.
  assert (S (length front) = ndim fr) as Hlen' by lia.
  destruct (cat_four_features _ _ _ _ _ front j Hc Hlen') as (_ & _ & Hnt & _ & Hv);
    [lia|].
  rewrite Hv. unfold mlp_features. cbv zeta.
  repeat (destruct (decide _); [reflexivity|]).
  unfold at_feature, embt. cbn [val].
  assert (length front = 3) as Hl3 by (rewrite Hne4 in Hnt; lia).
  destruct front as [|f0 [|f1 [|f2 [|]]]]; try discriminate. reflexivity.
Qed.

End grin_values.

Lemma init_reduce_mode_succeeds_witness :
  echo_model_init (with_mode (defaults 4) "sum")
  = Ok (mkModel unit tt tt None "sum" (TorchFunction "sum") true).
Proof.
  apply (init_reduce_mode_succeeds echo_init zero_table zero_weight zero_bias
           (with_mode (defaults 4) "sum") tt tt); try reflexivity.
  right. left.
Defined.

Lemma init_mlp_with_embedding_succeeds_witness :
  exists m lin1 lin2,
    echo_model_init small_mlp_config = Ok m
    ∧ out unit m = Sequential lin1 0 lin2
    ∧ in_features lin1 = 20 ∧ out_features lin2 = 4.
Proof.
  destruct (init_mlp_with_embedding_succeeds echo_init zero_table
              zero_weight zero_bias small_mlp_config tt tt 8 3)
    as (m & lin1 & lin2 & Hi & _ & Ho & H1 & _ & _ & H2);
    try reflexivity; try (cbn; lia); try (cbn; lra).
  exists m, lin1, lin2. split; [exact Hi|]. split; [exact Ho|].
  cbn in H1, H2. lia.
Defined.

Lemma forward_requires_time_axis_witness :
  raises (echo_model_forward echo_mean_model (tensor1 [1; 2; 3]%R) tt None None
            None (fun _ => true)).
Proof.
  apply (forward_requires_time_axis (GRIL:=unit) echo_forward). cbn. lia.
Defined.

Lemma forward_reverses_backward_pass_witness :
  exists imp bwd_out rev_x raw_out,
    echo_model_forward echo_mean_model example_x tt None (Some example_mask)
      None (fun _ => true)
    = Ok (imp, (example_x, bwd_out, example_x, bwd_out))
    ∧ reverse_tensor example_x 1 = Ok rev_x
    ∧ val rev_x [0; 0; 0; 0] = 4%R
    ∧ val bwd_out [0; 0; 0; 0] = val raw_out [0; 4; 0; 0].
Proof.
  eassert (echo_model_forward echo_mean_model example_x tt None
             (Some example_mask) None
             (fun _ => true) = Ok (_, (example_x, _, example_x, _))) as Hf
    by reflexivity.
  destruct (forward_reverses_backward_pass echo_forward echo_mean_model
              example_x tt None (Some example_mask) None (fun _ => true)
              _ _ _ _ _ Hf)
    as (fr & st & rx & rm & ru & ro & rp & rr & st' & Hfw & Hrx & _ & _ & Hbw
        & Hrxs & Hrxv & Hbs & Hbv & _).
  eexists _, _, rx, ro. split; [exact Hf|]. split; [exact Hrx|].
  assert (shape ro = [2; 5; 3; 4]) as Hros.
  { unfold echo_forward in Hbw. injection Hbw as <- _ _ _. exact Hrxs. }
  split.
  - rewrite Hrxv by (repeat constructor; lia). cbn. lra.
  - rewrite Hbv by (rewrite Hros; repeat constructor; lia).
    unfold mirror, size. rewrite Hros. reflexivity.
Defined.

Lemma small_mlp_model_init : echo_model_init small_mlp_config = Ok small_mlp_model.
Proof.
  unfold echo_model_init, grin_model.init, small_mlp_config, Dropout_init.
  cbn [ff_dropout]. destruct (Rlt_dec 0 0); [lra|]. destruct (Rlt_dec 1 0); [lra|].
  reflexivity.
Qed.

Lemma small_mlp_model_forward :
  exists y bwd_out,
    echo_model_forward small_mlp_model example_x tt None (Some example_mask)
      None (fun _ => true) = Ok (PyTensor y, (example_x, bwd_out, example_x, bwd_out))
    ∧ shape y = [2; 5; 3; 4].
Proof.
  unfold echo_model_forward, grin_model.forward, small_mlp_model.
  eassert (reverse_tensor example_x 1 = Ok _) as -> by reflexivity.
  cbn [fwd_gril bwd_gril echo_forward mbind result_bind
       reverse_opt fmap result_fmap].
  eassert (reverse_tensor example_mask 1 = Ok _) as -> by reflexivity.
  cbn [mbind result_bind fmap result_fmap echo_forward].
  eassert (reverse_tensor _ 1 = Ok _) as -> by reflexivity.
  cbn [mbind result_bind model_merge_mode emb].
  destruct (decide ("mlp" = "mlp")%string) as [_|Hne]; [|congruence].
  eassert (unpack2_star _ = Ok _) as -> by reflexivity.
  cbn [mbind result_bind StaticGraphEmbedding_forward app].
  eassert (cat _ (-1) = Ok _) as -> by reflexivity.
  cbn [mbind result_bind]. unfold call_out. cbn [out training].
  eassert (Linear_forward _ _ = Ok _) as -> by reflexivity.
  cbn [mbind result_bind].
  rewrite dropout_none. cbn [mbind result_bind].
  eassert (Linear_forward _ _ = Ok _) as -> by reflexivity.
  eexists _, _. split; reflexivity.
Qed.

Lemma forward_mlp_imputation_shape_witness :
  exists y bwd_out,
    echo_model_forward small_mlp_model example_x tt None (Some example_mask)
      None (fun _ => true) = Ok (PyTensor y, (example_x, bwd_out, example_x, bwd_out))
    ∧ shape y = [2; 5; 3; 4].
Proof.
  destruct small_mlp_model_forward as (y & bo & Hf & _).
  destruct (forward_mlp_imputation_shape echo_init echo_forward zero_table
              zero_weight zero_bias small_mlp_config small_mlp_model example_x
              tt None (Some example_mask) None (fun _ => true) (PyTensor y)
              example_x bo example_x bo
              small_mlp_model_init eq_refl ltac:(cbn; lia) Hf)
    as (y' & fr & st & Hfw & E & Hs).
  injection E as <-. unfold echo_forward in Hfw. injection Hfw as <-.
  exists y, bo. split; [exact Hf | exact Hs].
Defined.

Lemma forward_mlp_imputation_values_witness :
  exists y bwd_out bwd_repr,
    echo_model_forward small_mlp_model example_x tt None (Some example_mask)
      None (fun _ => true) = Ok (PyTensor y, (example_x, bwd_out, example_x, bwd_out))
    ∧ val y [0; 0; 0; 0]
      = affine (mkLinear 5 4 (zero_weight 1) (zero_bias 1))
          (fun hh =>
             dropout_value 0 (fun _ => true) [0; 0; 0; hh]
               (relu_R (affine (mkLinear 20 5 (zero_weight 0) (zero_bias 0))
                          (mlp_features example_x bwd_repr example_mask
                             (mkEmbedding 3 8 zero_table) [0; 0; 0]) hh)))
          0.
Proof.
  destruct small_mlp_model_forward as (y & bo & Hf & Hs).
  destruct (forward_mlp_imputation_values echo_forward small_mlp_model example_x
              tt None example_mask None (fun _ => true)
              (mkEmbedding 3 8 zero_table)
              (mkLinear 20 5 (zero_weight 0) (zero_bias 0)) 0
              (mkLinear 5 4 (zero_weight 1) (zero_bias 1))
              (PyTensor y) example_x bo example_x bo eq_refl eq_refl eq_refl Hf)
    as (y' & fr & br & E & [st Hfw] & _ & _ & Hv).
  injection E as <-. unfold echo_forward in Hfw. injection Hfw as <-.
  exists y, bo, br. split; [exact Hf|].
  apply (Hv [0; 0; 0] 0). rewrite Hs. repeat constructor; lia.
Defined.
(** ** The predictor: collecting the predictions of an epoch *)

Lemma append_batch_lookup (acc : gmap string (list Tensor))
    (b_res : gmap string Tensor) (k : string) :
  map_fold (fun k v acc => append_result acc k v) acc b_res !! k
  = match b_res !! k with
    | Some v => Some (default [] (acc !! k) ++ [v])
    | None => acc !! k
    end.
Proof.
  revert k.
  apply (map_fold_weak_ind (fun r (m : gmap string Tensor) =>
    forall k, r !! k = match m !! k with
                       | Some v => Some (default [] (acc !! k) ++ [v])
                       | None => acc !! k
                       end)).
  - intros k. rewrite lookup_empty. reflexivity.
  - intros i x m r Hi IH k. unfold append_result.
    destruct (decide (i = k)) as [->|Hne].
    + rewrite lookup_insert_eq. specialize (IH k). rewrite Hi in IH.
      rewrite IH. destruct (acc !! k); cbn; now rewrite lookup_insert_eq.
    + rewrite lookup_insert_ne by exact Hne. rewrite <- IH.
      destruct (r !! i); now rewrite lookup_insert_ne.
Qed.

Lemma process_from (acc : gmap string (list Tensor))
    (res : list (gmap string Tensor)) (k : string) :
  foldl (fun processed_res b_res =>
           map_fold (fun k v acc => append_result acc k v) processed_res b_res)
        acc res !! k
  = match acc !! k, gathered k res with
    | None, [] => None
    | o, l => Some (default [] o ++ l)
    end.
Proof.
  revert acc. induction res as [|b res IH]; intros acc; cbn.
  - destruct (acc !! k); [rewrite app_nil_r|]; reflexivity.
  - rewrite IH, append_batch_lookup. unfold gathered. cbn.
    destruct (b !! k) as [v|]; [|reflexivity].
    cbn. fold (gathered k res).
    destruct (acc !! k); cbn; rewrite <- ?app_assoc; reflexivity.
Qed.

(** After the first loop a key holds the list of what the batches gave
    for it, in batch order; a key no batch has is absent. *)
Lemma process_lookup (res : list (gmap string Tensor)) (k : string) :
  process res !! k
  = match gathered k res with [] => None | l => Some l end.
Proof.
  unfold process. rewrite process_from, lookup_empty. reflexivity.
Qed.

Lemma wrap_dim_first (nd : nat) : wrap_dim nd 0 = Ok 0.
Proof.
  unfold wrap_dim. destruct (decide _) as [_|Hr]; [|exfalso; lia].
  destruct (decide (0 < 0)%Z); [lia|reflexivity].
Qed.

Lemma no_missing_tensor (l : list Tensor) :
  ¬ Exists (fun o : option Tensor => o = None) (Some <$> l).
Proof.
  intros Hex. apply Exists_exists in Hex as (o & Hin & ->).
  apply list_elem_of_fmap in Hin as (? & ? & _). discriminate.
Qed.

Lemma default_Some (t0 : Tensor) (l : list Tensor) :
  default t0 <$> (Some <$> l) = l.
Proof. induction l as [|a l IH]; cbn; [|rewrite IH]; reflexivity. Qed.

(** [torch.cat(v, 0)] on a list of tensors. *)
Lemma cat_rows (t0 : Tensor) (l : list Tensor) :
  cat (Some <$> t0 :: l) 0
  = if decide (ndim t0 = 0) then Raise RuntimeError
    else if decide (Forall (fun t => <[0 := 0]> (shape t) = <[0 := 0]> (shape t0))
                           (t0 :: l))
    then Ok (mkTensor
               (<[0 := foldr Nat.add 0 ((fun t => size t 0) <$> t0 :: l)]> (shape t0))
               (fun idx =>
                  let '(b, o) := locate ((fun t => size t 0) <$> t0 :: l)
                                        (nth 0 idx 0) in
                  val (nth b (t0 :: l) t0) (<[0 := o]> idx)))
    else Raise RuntimeError.
Proof.
  unfold cat. rewrite fmap_cons.
  destruct (decide (Exists _ _)) as [Hex|_].
  { exfalso. exact (no_missing_tensor (t0 :: l) Hex). }
  rewrite wrap_dim_first. cbn [mbind result_bind].
  rewrite <- fmap_cons, default_Some. reflexivity.
Qed.

Lemma concatenate_spec (m : gmap string (list Tensor)) :
  match concatenate m with
  | Ok o => forall k,
      match m !! k with
      | Some l => exists t, cat (Some <$> l) 0 = Ok t ∧ o !! k = Some t
      | None => o !! k = None
      end
  | Raise e => exists k l, m !! k = Some l ∧ raises (cat (Some <$> l) 0)
  end.
Proof.
  unfold concatenate.
  apply (map_fold_weak_ind (fun r (m : gmap string (list Tensor)) =>
    match r with
    | Ok o => forall k,
        match m !! k with
        | Some l => exists t, cat (Some <$> l) 0 = Ok t ∧ o !! k = Some t
        | None => o !! k = None
        end
    | Raise e => exists k l, m !! k = Some l ∧ raises (cat (Some <$> l) 0)
    end)).
  - intros k. rewrite !lookup_empty. reflexivity.
  - intros i x m' r Hi IH. destruct r as [o|e]; cbn.
    + destruct (cat (Some <$> x) 0) as [t|e] eqn:Hc; cbn.
      * intros k. destruct (decide (i = k)) as [->|Hne].
        -- rewrite !lookup_insert_eq. exists t. split; [exact Hc|reflexivity].
        -- rewrite !lookup_insert_ne by exact Hne. apply IH.
      * exists i, x. rewrite lookup_insert_eq. split; [reflexivity|]. now exists e.
    + destruct IH as (k & l & Hk & Hr).
      exists k, l. split; [|exact Hr].
      rewrite lookup_insert_ne; [exact Hk|]. intros ->. congruence.
Qed.

Lemma mapM_Ok {A B} (f : A -> result B) (l : list A) (out : list B) :
  mapM f l = Ok out <-> Forall2 (fun a b => f a = Ok b) l out.
Proof.
  revert out. induction l as [|a l IH]; intros out; cbn.
  - split.
    + intros [= <-]. constructor.
    + intros H. inversion H. reflexivity.
  - split.
    + intros H. destruct (f a) as [b|e] eqn:Hb; [|discriminate]. cbn in H.
      destruct (mapM f l) as [bs|e] eqn:Hbs; [|discriminate]. cbn in H.
      injection H as <-. constructor; [exact Hb|]. apply IH. reflexivity.
    + intros H. inversion H as [|? b ? bs Hb Hbs]; subst. rewrite Hb. cbn.
      apply IH in Hbs. rewrite Hbs. reflexivity.
Qed.

Lemma mapM_Raise {A B} (f : A -> result B) (l : list A) e :
  mapM f l = Raise e -> exists a, a ∈ l ∧ f a = Raise e.
Proof.
  induction l as [|a l IH]; cbn; [discriminate|].
  destruct (f a) as [b|e'] eqn:Hb; cbn.
  - destruct (mapM f l) as [bs|e'']; cbn; [discriminate|].
    intros [= ->]. destruct (IH eq_refl) as (a' & Hin & Ha').
    exists a'. split; [now apply list_elem_of_further | exact Ha'].
  - intros [= ->]. exists a. split; [apply list_elem_of_here | exact Hb].
Qed.

Lemma concatenate_process_Ok (res : list (gmap string Tensor))
    (o : gmap string Tensor) :
  concatenate (process res) = Ok o ->
  forall k t, o !! k = Some t <-> cat (Some <$> gathered k res) 0 = Ok t.
Proof.
  intros H k t. pose proof (concatenate_spec (process res)) as Hs.
  rewrite H in Hs. specialize (Hs k). rewrite process_lookup in Hs.
  destruct (gathered k res) as [|t0 l] eqn:Hg.
  - rewrite Hs. cbn. split; discriminate.
  - destruct Hs as (t' & Hc & Ho). rewrite Hc, Ho. split; congruence.
Qed.

Lemma rows_compatible_cat (l : list Tensor) :
  l ≠ [] -> (returns (cat (Some <$> l) 0) <-> rows_compatible l).
Proof.
  destruct l as [|t0 l]; [congruence|]. intros _. rewrite cat_rows. split.
  - intros [t Ht]. destruct (decide (ndim t0 = 0)) as [|Hn]; [discriminate|].
    destruct (decide _) as [Hall|]; [|discriminate].
    assert (forall a, a ∈ t0 :: l ->
              shape a ≠ [] ∧ tail (shape a) = tail (shape t0)) as Hone.
    { intros a Ha. rewrite Forall_forall in Hall. specialize (Hall a Ha).
      unfold ndim in Hn. destruct (shape t0) as [|n0 sh0]; [contradiction|].
      destruct (shape a) as [|n sh]; [discriminate|].
      cbn in Hall. injection Hall as ->. split; [discriminate|reflexivity]. }
    intros a b Ha Hb. destruct (Hone a Ha) as [Hne Hta].
    destruct (Hone b Hb) as [_ Htb]. split; [exact Hne|congruence].
  - intros Hc.
    assert (t0 ∈ t0 :: l) as H0 by apply list_elem_of_here.
    destruct (decide (ndim t0 = 0)) as [Hn|_].
    { exfalso. destruct (Hc t0 t0 H0 H0) as [Hne _]. unfold ndim in Hn.
      destruct (shape t0); [contradiction|discriminate]. }
    destruct (decide _) as [_|Hall]; [eexists; reflexivity|].
    exfalso. apply Hall. apply Forall_forall. intros a Ha.
    destruct (Hc a t0 Ha H0) as [Hne Ht].
    destruct (Hc t0 t0 H0 H0) as [Hne0 _].
    destruct (shape a) as [|n sh]; [contradiction|].
    destruct (shape t0) as [|n0 sh0]; [contradiction|].
    cbn in Ht |- *. congruence.
Qed.

Lemma concatenate_process_returns (res : list (gmap string Tensor)) :
  (forall k, rows_compatible (gathered k res)) ->
  returns (concatenate (process res)).
Proof.
  pose proof (concatenate_spec (process res)) as Hs.
  intros Hc. destruct (concatenate (process res)) as [o|e]; [now exists o|].
  exfalso. destruct Hs as (k & l & Hk & e' & Hr).
  rewrite process_lookup in Hk.
  destruct (gathered k res) as [|t0 l'] eqn:Hg; [discriminate|].
  injection Hk as <-.
  assert (returns (cat (Some <$> t0 :: l') 0)) as [t Ht].
  { apply rows_compatible_cat; [discriminate|]. rewrite <- Hg. apply Hc. }
  congruence.
Qed.

(** X21.  What [on_predict_epoch_end] leaves in [results]: one dictionary
    per dataloader, which holds under a key the concatenation along
    dimension 0 of what the batches of that dataloader gave for the key, in
    batch order.  A batch without the key is skipped, and a key that no
    batch has is absent. *)
Theorem on_predict_epoch_end_concatenates results out :
  on_predict_epoch_end results = Ok out ->
  length out = length results
  ∧ forall i res o, results !! i = Some res -> out !! i = Some o ->
      forall k t, o !! k = Some t <-> cat (Some <$> gathered k res) 0 = Ok t.
Proof.
  unfold on_predict_epoch_end. cbn zeta. intros H. apply mapM_Ok in H.
  apply Forall2_fmap_l in H. split.
  - symmetry. exact (Forall2_length _ _ _ H).
  - intros i res o Hr Ho.
    pose proof (Forall2_lookup_lr _ _ _ _ _ _ H Hr Ho) as Hc. cbn in Hc.
    exact (concatenate_process_Ok res o Hc).
Qed.

(** X22.  No sample is lost or repeated: the tensor collected under a
    key has as many rows as the batches have under that key together. *)
Theorem on_predict_epoch_end_rows results out i res o k t :
  on_predict_epoch_end results = Ok out ->
  results !! i = Some res -> out !! i = Some o -> o !! k = Some t ->
  size t 0 = foldr Nat.add 0 ((fun b => size b 0) <$> gathered k res).
Proof.
  unfold on_predict_epoch_end. cbn zeta. intros H Hr Ho Hk. apply mapM_Ok in H.
  apply Forall2_fmap_l in H.
  pose proof (Forall2_lookup_lr _ _ _ _ _ _ H Hr Ho) as Hc. cbn in Hc.
  apply (concatenate_process_Ok res o Hc) in Hk.
  destruct (gathered k res) as [|t0 l] eqn:Hg; [discriminate|].
  rewrite cat_rows in Hk.
  destruct (decide (ndim t0 = 0)) as [|Hn]; [discriminate|].
  destruct (decide _) as [_|]; [|discriminate]. injection Hk as <-.
  unfold ndim in Hn. unfold size at 1. cbn [shape].
  destruct (shape t0) as [|n0 sh0] eqn:Hs0; [contradiction|]. reflexivity.
Qed.

(** X23.  The method returns when, for every dataloader and key, the
    tensors of the batches can be stacked along dimension 0: none is
    zero-dimensional and they agree on the other dimensions.  Batches may
    differ in their keys and in their number of rows. *)
Theorem on_predict_epoch_end_returns results :
  (forall res k, res ∈ results -> rows_compatible (gathered k res)) ->
  returns (on_predict_epoch_end results).
Proof.
  unfold on_predict_epoch_end. cbn zeta. intros Hc.
  destruct (mapM concatenate (process <$> results)) as [out|e] eqn:H;
    [now exists out|].
  exfalso. apply mapM_Raise in H as (m & Hin & Hm).
  apply list_elem_of_fmap in Hin as (res & -> & Hin).
  assert (returns (concatenate (process res))) as [o Ho].
  { apply concatenate_process_returns. intros k. now apply Hc. }
  congruence.
Qed.

Lemma example_predictions_output :
  exists o t,
    on_predict_epoch_end [example_predictions] = Ok [o]
    ∧ o !! "y_hat"%string = Some t.
Proof. eexists _, _. split; reflexivity. Qed.

Lemma example_predictions_compatible (k : string) :
  rows_compatible (gathered k example_predictions).
Proof.
  unfold gathered, example_predictions. cbn [omap list_omap].
  rewrite !lookup_insert, !lookup_empty.
  destruct (decide ("y_hat" = k)%string) as [_|_];
    [|destruct (decide ("y" = k)%string) as [_|_]];
    intros t t' Ht Ht';
    repeat match goal with
           | H : _ ∈ _ :: _ |- _ => apply elem_of_cons in H as [->|H]
           | H : _ ∈ [] |- _ => inversion H
           end;
    (split; [cbn; discriminate|reflexivity]).
Qed.

Lemma on_predict_epoch_end_concatenates_witness :
  exists o t,
    on_predict_epoch_end [example_predictions] = Ok [o]
    ∧ o !! "y_hat"%string = Some t
    ∧ cat [Some (tensor2 [[1]; [2]]%R); Some (tensor2 [[3]]%R)] 0 = Ok t.
Proof.
  destruct example_predictions_output as (o & t & Ho & Ht).
  destruct (on_predict_epoch_end_concatenates _ _ Ho) as [_ H].
  exists o, t. split; [exact Ho|]. split; [exact Ht|].
  apply (H 0 example_predictions o eq_refl eq_refl "y_hat"%string t). exact Ht.
Defined.

Lemma on_predict_epoch_end_rows_witness :
  exists o t,
    on_predict_epoch_end [example_predictions] = Ok [o]
    ∧ o !! "y_hat"%string = Some t ∧ size t 0 = 3.
Proof.
  destruct example_predictions_output as (o & t & Ho & Ht).
  exists o, t. split; [exact Ho|]. split; [exact Ht|].
  exact (on_predict_epoch_end_rows [example_predictions] [o] 0
           example_predictions o "y_hat" t Ho eq_refl eq_refl Ht).
Defined.

Lemma on_predict_epoch_end_returns_witness :
  returns (on_predict_epoch_end [example_predictions]).
Proof.
  apply on_predict_epoch_end_returns. intros res k Hin.
  apply list_elem_of_singleton in Hin as ->. apply example_predictions_compatible.
Defined.

(** ** The predictor: checkpoints and optimizers *)

Section predictor_facts.
Context {Obj Cls StateDict Weights : Type}.
Context `{EqDecision Obj} `{EqDecision Cls}.
Context (PyNone : Obj).
Context (load_state_dict : StateDict -> outcome Weights).

#[local] Abbreviation Predictor := (Predictor (Obj:=Obj) (Cls:=Cls)).
#[local] Abbreviation Checkpoint :=
  (Checkpoint (Obj:=Obj) (Cls:=Cls) (StateDict:=StateDict)).

Lemma check_kwargs_Return (self : Predictor) items :
  check_kwargs self items = Return tt
  <-> Forall (fun kv => model_kwargs self !! kv.1 = Some kv.2) items.
Proof.
  induction items as [|[k v] items IH]; cbn.
  - split; [constructor|reflexivity].
  - destruct (model_kwargs self !! k) as [v'|] eqn:Hk.
    + destruct (decide (v = v')) as [->|Hne].
      * rewrite IH. split; [now constructor|]. intros H. now inversion H.
      * split; [discriminate|]. intros H. inversion H as [|? ? Hv]; subst.
        cbn in Hv. congruence.
    + split; [discriminate|]. intros H. inversion H as [|? ? Hv]; subst.
      cbn in Hv. congruence.
Qed.

Lemma check_kwargs_app (self : Predictor) pre items :
  Forall (fun kv => model_kwargs self !! kv.1 = Some kv.2) pre ->
  check_kwargs self (pre ++ items) = check_kwargs self items.
Proof.
  induction 1 as [|[k v] pre Hk _ IH]; [reflexivity|]. cbn in Hk |- *.
  rewrite Hk. destruct (decide (v = v)); [exact IH|contradiction].
Qed.

(** X24.  Which checkpoints [load_model] loads: those of the predictor's
    model class whose every keyword argument is held, with an equal value,
    by the predictor.  The predictor may hold further arguments; the state
    dictionary is loaded only after these checks. *)
Theorem load_model_accepts (self : Predictor) (model : Checkpoint) w :
  load_model load_state_dict self model = Return w
  <-> ckpt_model_class model = model_cls self
      ∧ Forall (fun kv => model_kwargs self !! kv.1 = Some kv.2)
               (ckpt_model_kwargs model)
      ∧ load_state_dict (ckpt_state_dict model) = Return w.
Proof.
  unfold load_model. destruct (decide _) as [Hc|Hc].
  - rewrite <- check_kwargs_Return.
    destruct (check_kwargs self (ckpt_model_kwargs model)) as [[]|e].
    + tauto.
    + split; [discriminate|]. intros (_ & ? & _). discriminate.
  - split; [discriminate|]. tauto.
Qed.

(** X25.  The first keyword argument of the checkpoint that the predictor
    does not hold with an equal value decides how [load_model] fails: a
    key error when the predictor has no such argument, an assertion error
    when the values differ. *)
Theorem load_model_first_mismatch (self : Predictor) (model : Checkpoint)
    pre k v post :
  ckpt_model_class model = model_cls self ->
  ckpt_model_kwargs model = pre ++ (k, v) :: post ->
  Forall (fun kv => model_kwargs self !! kv.1 = Some kv.2) pre ->
  model_kwargs self !! k ≠ Some v ->
  load_model load_state_dict self model
  = Throw (match model_kwargs self !! k with
           | None => KeyError k
           | Some _ => Builtin AssertionError
           end).
Proof.
  intros Hc Hk Hpre Hv. unfold load_model.
  destruct (decide _) as [_|]; [|contradiction].
  rewrite Hk, check_kwargs_app by exact Hpre. cbn.
  destruct (model_kwargs self !! k) as [v'|]; [|reflexivity].
  destruct (decide (v = v')) as [->|_]; [contradiction|reflexivity].
Qed.

(** X26.  [configure_optimizers] removes ['monitor'] from the scheduler
    arguments of the predictor.  The call that finds a monitored metric
    hands it out; the predictor it leaves behind has none, so a later call
    returns a configuration without ['monitor'] and changes nothing. *)
Theorem configure_optimizers_monitor_once (self self' : Predictor) sched cfg :
  scheduler_class self = Some sched ->
  configure_optimizers PyNone self = (self', Ok cfg) ->
  cfg !! "monitor"%string
  = (if decide (default PyNone (scheduler_kwargs self !! "monitor"%string) = PyNone)
     then None else scheduler_kwargs self !! "monitor"%string)
  ∧ scheduler_kwargs self' !! "monitor"%string = None
  ∧ forall self'' cfg',
      configure_optimizers PyNone self' = (self'', Ok cfg') ->
      cfg' !! "monitor"%string = None ∧ self'' = self'.
Proof.
  intros Hs H. unfold configure_optimizers in H.
  destruct (optim_class self _ _) as [opt|] eqn:Ho; [|congruence].
  rewrite Hs in H. cbn [scheduler_kwargs] in H.
  destruct (sched opt _) as [sc|] eqn:Hsc; [|congruence].
  injection H as <- <-. cbn [scheduler_kwargs]. split; [|split].
  - destruct (decide _) as [Hm|Hm].
    + rewrite !lookup_insert_ne by discriminate. apply lookup_empty.
    + rewrite lookup_insert_eq.
      destruct (scheduler_kwargs self !! "monitor"%string); [reflexivity|].
      contradiction.
  - rewrite lookup_delete_eq. reflexivity.
  - intros self'' cfg' H. unfold configure_optimizers in H.
    cbn [optim_class parameters optim_kwargs scheduler_class scheduler_kwargs
         model_cls model_kwargs] in H.
    rewrite Ho in H. rewrite lookup_delete_eq in H. cbn [default] in H.
    rewrite (delete_id (delete _ _)) in H by apply lookup_delete_eq.
    rewrite Hsc in H. destruct (decide (PyNone = PyNone)); [|contradiction].
    injection H as <- <-. split; [|reflexivity].
    rewrite !lookup_insert_ne by discriminate. apply lookup_empty.
Qed.

End predictor_facts.

Lemma load_model_accepts_witness :
  load_model (fun _ : unit => Return tt) example_predictor
    (example_checkpoint [("input_size", "4")]%string) = Return tt.
Proof.
  apply load_model_accepts. split; [reflexivity|]. split; [|reflexivity].
  repeat constructor.
Defined.

Lemma load_model_first_mismatch_witness :
  load_model (fun _ : unit => Return tt) example_predictor
    (example_checkpoint [("input_size", "4"); ("n_nodes", "3")]%string)
  = Throw (KeyError "n_nodes")
  ∧ load_model (fun _ : unit => Return tt) example_predictor
      (example_checkpoint [("hidden_size", "32")]%string)
    = Throw (Builtin AssertionError).
Proof.
  split.
  - apply (load_model_first_mismatch (fun _ : unit => Return tt)
             example_predictor
             (example_checkpoint [("input_size", "4"); ("n_nodes", "3")]%string)
             [("input_size", "4")]%string "n_nodes" "3" []);
      [reflexivity | reflexivity | repeat constructor | discriminate].
  - apply (load_model_first_mismatch (fun _ : unit => Return tt)
             example_predictor
             (example_checkpoint [("hidden_size", "32")]%string)
             [] "hidden_size" "32" []);
      [reflexivity | reflexivity | constructor | discriminate].
Defined.

Lemma configure_optimizers_monitor_once_witness :
  exists self' cfg,
    configure_optimizers "None"%string example_predictor = (self', Ok cfg)
    ∧ cfg !! "monitor"%string = Some "val_mae"%string
    ∧ forall self'' cfg',
        configure_optimizers "None"%string self' = (self'', Ok cfg') ->
        cfg' !! "monitor"%string = None ∧ self'' = self'.
Proof.
  eassert (configure_optimizers "None"%string example_predictor = (_, Ok _))
    as H by reflexivity.
  eexists _, _. split; [exact H|].
  destruct (configure_optimizers_monitor_once "None"%string example_predictor
              _ _ _ eq_refl H) as (Hm & _ & Hnext).
  split; [exact Hm | exact Hnext].
Defined.
